(** * dataup-sdk: the evaluation pipeline, embedded and verified

    A shallow embedding of the core of the SDK:
    - [dataup/cvat/utils.py]       [shape_to_label]
    - [dataup/cvat/client.py]      [JobsResource.iter_frames],
                                   [JobsResource.get_annotations],
                                   [JobsResource.iter_jobs_with_annotations]
    - [dataup/_pagination.py]      [paginate]
    - [dataup/evaluation/runner.py] [EvaluationRunner.run_and_submit]

    Conventions.  Python [int] is [Z].  A coordinate (Python [float]) is a
    finite double, kept as the rational [Q] it stands for; comparisons are
    exact, a subtraction or a product returns the double nearest to the
    exact result ([float_round], ties to the even significand) or an
    infinity, and [int(x)] truncates toward zero and raises
    [OverflowError] on an infinity (coordinates that are themselves
    infinite or NaN are outside the model).  A [str] is kept as its UTF-8
    bytes.  A [dict] is a [gmap], a [set] a [gset].  A call that may raise returns a [result]; a generator
    is the list of what it yields together with the way it ends; a
    [while True] loop takes one unit of fuel per turn. *)

From Stdlib Require Import ZArith QArith Qround Qabs Qminmax Qpower Lqa.
From stdpp Require Import gmap strings list pretty sorting.

Open Scope Z_scope.

(** ** Exceptions and results *)

Inductive exn : Type :=
  | ValueError
  | IndexError
  | OverflowError
  | APIError (status_code : Z)
  | ConnectionError
  | TimeoutError
  | ValidationError
  | ImageError
  | InferenceError.

Inductive result (A : Type) : Type :=
  | Ok (a : A)
  | Raise (e : exn).
Arguments Ok {A} a.
Arguments Raise {A} e.

#[global] Instance result_ret : MRet result := λ A a, Ok a.
#[global] Instance result_bind : MBind result := λ A B k r,
  match r with
  | Ok a => k a
  | Raise e => Raise e
  end.

(** A list comprehension whose element expression may raise: evaluated left
    to right, the first exception ends it. *)
Fixpoint comprehension {A B} (f : A → result B) (l : list A) : result (list B) :=
  match l with
  | [] => Ok []
  | a :: l' => b ← f a; bs ← comprehension f l'; Ok (b :: bs)
  end.

Definition is_ok {A} (r : result A) : bool :=
  match r with Ok _ => true | Raise _ => false end.

(** ** Python primitives *)

(** [l[i]]: [IndexError] outside the list. *)
Definition py_index {A} (l : list A) (i : nat) : result A :=
  match l !! i with
  | Some a => Ok a
  | None => Raise IndexError
  end.

(** [range(0, n, 2)]. *)
Definition range_step2 (n : nat) : list nat :=
  (λ k, 2 * k)%nat <$> seq 0 ((n + 1) / 2).

(** [range(start, stop)] over the integers. *)
Definition py_range (start stop : Z) : list Z := seqZ start (stop - start).

(** [int(x)] on a finite number: truncation toward zero. *)
Definition py_int (x : Q) : Z := Z.quot (Qnum x) (Z.pos (Qden x)).

Definition Qltb (x y : Q) : bool := negb (Qle_bool y x).

(** [min(a, b)] keeps [a] unless [b < a]; [max(a, b)] keeps [a] unless
    [b > a]. *)
Definition py_min (a b : Q) : Q := if Qltb b a then b else a.
Definition py_max (a b : Q) : Q := if Qltb a b then b else a.

(** [min(l)] and [max(l)] on a non-empty list (the callers test emptiness). *)
Definition py_min_list (x : Q) (l : list Q) : Q := foldl py_min x l.
Definition py_max_list (x : Q) (l : list Q) : Q := foldl py_max x l.

(** *** Doubles

    The finite doubles are the numbers [m * 2^e] with [|m| < 2^53] and
    [-1074 <= e <= 971].  An operation on doubles returns the double
    nearest to the exact result, the one with the even significand when
    two are as near; a result whose magnitude rounds to [2^1024] is an
    infinity. *)

(** [floor(log2 q)] for a positive [q]. *)
Definition binade (q : Q) : Z :=
  let e := Z.log2 (Qnum q) - Z.log2 (Z.pos (Qden q)) in
  if Qle_bool (2 ^ e) q then e else e - 1.

(** The integer nearest to [x], the even one of the two when [x] lies
    halfway. *)
Definition round_half_even (x : Q) : Z :=
  let n := Qfloor x in
  match (x - inject_Z n ?= 1 # 2)%Q with
  | Lt => n
  | Eq => if Z.even n then n else n + 1
  | Gt => n + 1
  end.

(** The spacing of the doubles around a positive [a]: 53 significant
    bits, and [2^-1074] below [2^-1022]. *)
Definition ulp (a : Q) : Q := (2 ^ (Z.max (binade a) (-1022) - 52))%Q.

(** The multiple of the spacing nearest to [a >= 0]. *)
Definition nearest_double (a : Q) : Q :=
  (inject_Z (round_half_even (a / ulp a)) * ulp a)%Q.

(** The double an exact result [q] is rounded to; [None] stands for an
    infinity. *)
Definition float_round (q : Q) : option Q :=
  let q := Qred q in
  let r := nearest_double (Qabs q) in
  if Qle_bool (2 ^ 1024) r then None
  else Some (Qred (if Qle_bool 0 q then r else - r)).

(** The least magnitude that rounds to an infinity: halfway between the
    largest double, [2^1024 - 2^971], and [2^1024]. *)
Definition overflow_threshold : Q := (2 ^ 1024 - 2 ^ 970)%Q.

(** [x - y] and [x * y] on doubles. *)
Definition float_sub (x y : Q) : option Q := float_round (x - y).
Definition float_mul (x y : Q) : option Q := float_round (x * y).

(** [int(x)] on the result of an operation: [OverflowError] on an
    infinity. *)
Definition py_int_of (x : option Q) : result Z :=
  match x with
  | Some r => Ok (py_int r)
  | None => Raise OverflowError
  end.

(** [str(n)] for an integer. *)
Definition py_str (n : Z) : string := pretty n.

(** ** Data model *)

(** [dataup/cvat/models/enums.py] *)
Inductive ShapeType : Type :=
  | RECTANGLE | POLYGON | POLYLINE | POINTS | ELLIPSE | CUBOID | SKELETON | MASK.

Definition ShapeType_value (t : ShapeType) : string :=
  match t with
  | RECTANGLE => "rectangle"
  | POLYGON => "polygon"
  | POLYLINE => "polyline"
  | POINTS => "points"
  | ELLIPSE => "ellipse"
  | CUBOID => "cuboid"
  | SKELETON => "skeleton"
  | MASK => "mask"
  end.

(** [ShapeType(value)]: the member with that value, [ValueError] if none. *)
Definition ShapeType_of (value : string) : result ShapeType :=
  if decide (value = "rectangle") then Ok RECTANGLE
  else if decide (value = "polygon") then Ok POLYGON
  else if decide (value = "polyline") then Ok POLYLINE
  else if decide (value = "points") then Ok POINTS
  else if decide (value = "ellipse") then Ok ELLIPSE
  else if decide (value = "cuboid") then Ok CUBOID
  else if decide (value = "skeleton") then Ok SKELETON
  else if decide (value = "mask") then Ok MASK
  else Raise ValueError.

(** [dataup/cvat/models/tasks.py] *)
Record CVATLabelAttribute : Type := {
  cla_id : Z;
  cla_name : string;
}.

Record CVATLabel : Type := {
  cl_id : Z;
  cl_name : string;
  cl_attributes : list CVATLabelAttribute;
}.

(** [dataup/cvat/models/annotations.py] *)
Record AttributeValue : Type := {
  spec_id : Z;
  value : string;
}.

Record Shape : Type := {
  shape_type : ShapeType;
  frame : Z;
  label_id : Z;
  points : list Q;
  attributes : list AttributeValue;
}.

(** What an element of a dict shape's ["attributes"] can be: a dict (read
    with [.get]), an [AttributeValue], or anything else. *)
Inductive attr_item : Type :=
  | AttrDict (spec : option Z) (val : option string)
  | AttrObj (a : AttributeValue)
  | AttrOther.

(** A shape given as a [dict]; a field is [None] when the key is absent. *)
Record ShapeDict : Type := {
  d_type : option string;
  d_frame : Z;
  d_label_id : option Z;
  d_points : option (list Q);
  d_attributes : option (list attr_item);
}.

Inductive shape_arg : Type :=
  | OfDict (d : ShapeDict)
  | OfShape (s : Shape).

(** [Shape.model_dump()]: every field is present, the attributes are
    dumped to dicts, and the enum member is a [str] equal to its value. *)
Definition model_dump (s : Shape) : ShapeDict :=
  {| d_type := Some (ShapeType_value (shape_type s));
     d_frame := frame s;
     d_label_id := Some (label_id s);
     d_points := Some (points s);
     d_attributes :=
       Some ((λ a, AttrDict (Some (spec_id a)) (Some (value a))) <$> attributes s) |}.

(** Modelled from the spec: the canonical label classes [BoundingBox],
    [Polygon], [LabelAttribute] and [Label] are imported from the package
    [dataup_models], which is not part of the sources; they are taken as
    the spec's data model gives them (and as [dataup/models/inference.py]
    declares the classes of the same names): plain records, the bounding
    box of a polygon being its axis-aligned extent. *)
Record BoundingBox : Type := {
  bb_x : Z;
  bb_y : Z;
  bb_width : Z;
  bb_height : Z;
}.

Record Polygon : Type := {
  poly_points : list (Z * Z);
}.

Definition Zmin_list (x : Z) (l : list Z) : Z := foldl Z.min x l.
Definition Zmax_list (x : Z) (l : list Z) : Z := foldl Z.max x l.

(** [Polygon.to_bbox]; [min] of an empty sequence raises [ValueError]. *)
Definition to_bbox (p : Polygon) : result BoundingBox :=
  match poly_points p with
  | [] => Raise ValueError
  | (x0, y0) :: rest =>
      let x_min := Zmin_list x0 (fst <$> rest) in
      let x_max := Zmax_list x0 (fst <$> rest) in
      let y_min := Zmin_list y0 (snd <$> rest) in
      let y_max := Zmax_list y0 (snd <$> rest) in
      Ok {| bb_x := x_min; bb_y := y_min;
            bb_width := x_max - x_min; bb_height := y_max - y_min |}
  end.

Record LabelAttribute : Type := {
  la_key : string;
  la_value : string;
}.

Record Label : Type := {
  label : string;
  score : Q;
  bbox : BoundingBox;
  polygon : option Polygon;
  label_attributes : list LabelAttribute;
}.

(** ** [dataup/cvat/utils.py]: [shape_to_label] *)

Module Utils.

(** The shape's fields, read from the dict ([.get] with its defaults; the
    type goes through [ShapeType(...)]) or from the [Shape] object. *)
Record fields : Type := {
  f_type : ShapeType;
  f_points : list Q;
  f_attributes : list attr_item;
  f_label_id : option Z;
}.

Definition read_fields (shape : shape_arg) : result fields :=
  match shape with
  | OfDict d =>
      shape_type ← ShapeType_of (default "rectangle" (d_type d));
      Ok {| f_type := shape_type;
            f_points := default [] (d_points d);
            f_attributes := default [] (d_attributes d);
            f_label_id := d_label_id d |}
  | OfShape s =>
      Ok {| f_type := shape_type s;
            f_points := points s;
            f_attributes := AttrObj <$> attributes s;
            f_label_id := Some (label_id s) |}
  end.

(** [f"label_{label_id}"] *)
Definition fallback_name (label_id : option Z) : string :=
  "label_" +:+ match label_id with Some n => py_str n | None => "None" end.

(** [{attr.id: attr for attr in cvat_label.attributes}] *)
Definition attr_map_of (attrs : list CVATLabelAttribute) : gmap Z CVATLabelAttribute :=
  foldl (λ m a, <[cla_id a := a]> m) ∅ attrs.

(** The loop over [cvat_labels], left at the first label with the id. *)
Definition resolve_label (label_id : option Z) (cvat_labels : list CVATLabel)
  : string * gmap Z CVATLabelAttribute :=
  match label_id with
  | None => (fallback_name label_id, ∅)
  | Some i =>
      match find (λ l, bool_decide (cl_id l = i)) cvat_labels with
      | Some l => (cl_name l, attr_map_of (cl_attributes l))
      | None => (fallback_name label_id, ∅)
      end
  end.

Definition attr_key (label_attr_map : gmap Z CVATLabelAttribute) (spec : option Z) : string :=
  match spec with
  | Some i =>
      match label_attr_map !! i with
      | Some a => cla_name a
      | None => py_str i
      end
  | None => "None"
  end.

(** One turn of the attribute loop: [None] where the loop [continue]s. *)
Definition convert_attribute (label_attr_map : gmap Z CVATLabelAttribute)
    (attr : attr_item) : option LabelAttribute :=
  match attr with
  | AttrDict spec val =>
      let attr_value := default "" val in
      if decide (attr_value = "") then None
      else Some {| la_key := attr_key label_attr_map spec; la_value := attr_value |}
  | AttrObj a =>
      if decide (value a = "") then None
      else Some {| la_key := attr_key label_attr_map (Some (spec_id a));
                   la_value := value a |}
  | AttrOther => None
  end.

(** The box of two corners (rectangle, and ellipse in bounding-box form). *)
Definition corner_box (x1 y1 x2 y2 : Q) : result BoundingBox :=
  let x_min := py_min x1 x2 in
  let y_min := py_min y1 y2 in
  let x_max := py_max x1 x2 in
  let y_max := py_max y1 y2 in
  width ← py_int_of (float_sub x_max x_min);
  height ← py_int_of (float_sub y_max y_min);
  Ok {| bb_x := py_int x_min;
        bb_y := py_int y_min;
        bb_width := width;
        bb_height := height |}.

(** The box of an ellipse in centre-radius form. *)
Definition centre_box (cx cy rx ry : Q) : result BoundingBox :=
  x ← py_int_of (float_sub cx rx);
  y ← py_int_of (float_sub cy ry);
  width ← py_int_of (float_mul 2 rx);
  height ← py_int_of (float_mul 2 ry);
  Ok {| bb_x := x; bb_y := y; bb_width := width; bb_height := height |}.

(** The box of a point cloud, under [if x_coords and y_coords]. *)
Definition extent_box (x_coords y_coords : list Q) : result (option BoundingBox) :=
  match x_coords, y_coords with
  | x0 :: xs, y0 :: ys =>
      let x_min := py_min_list x0 xs in
      let x_max := py_max_list x0 xs in
      let y_min := py_min_list y0 ys in
      let y_max := py_max_list y0 ys in
      width ← (if Qltb x_min x_max then py_int_of (float_sub x_max x_min) else Ok 1);
      height ← (if Qltb y_min y_max then py_int_of (float_sub y_max y_min) else Ok 1);
      Ok (Some {| bb_x := py_int x_min;
                  bb_y := py_int y_min;
                  bb_width := width;
                  bb_height := height |})
  | _, _ => Ok None
  end.

(** [[(int(points[i]), int(points[i + 1])) for i in range(0, len(points), 2)]] *)
Definition polygon_points (points : list Q) : result (list (Z * Z)) :=
  comprehension
    (λ i, x ← py_index points i; y ← py_index points (i + 1); Ok (py_int x, py_int y))
    (range_step2 (length points)).

Definition polygon_geometry (points : list Q)
  : result (option BoundingBox * option Polygon) :=
  pts ← polygon_points points;
  let polygon := {| poly_points := pts |} in
  bbox ← to_bbox polygon;
  Ok (Some bbox, Some polygon).

(** The [if shape_type == ...] chain: the box and the polygon it assigns,
    [None] where it leaves them unassigned. *)
Definition geometry (shape_type : ShapeType) (points : list Q)
  : result (option BoundingBox * option Polygon) :=
  match shape_type with
  | RECTANGLE =>
      match points with
      | x1 :: y1 :: x2 :: y2 :: _ =>
          bbox ← corner_box x1 y1 x2 y2; Ok (Some bbox, None)
      | _ => Ok (None, None)
      end
  | POLYGON =>
      if bool_decide (6 ≤ length points)%nat then polygon_geometry points
      else Ok (None, None)
  | POLYLINE =>
      if bool_decide (4 ≤ length points)%nat then polygon_geometry points
      else Ok (None, None)
  | POINTS =>
      if bool_decide (2 ≤ length points)%nat then
        x_coords ← comprehension (λ i, py_index points i)
                     (range_step2 (length points));
        y_coords ← comprehension (λ i, py_index points (i + 1))
                     (range_step2 (length points));
        bbox ← extent_box x_coords y_coords;
        Ok (bbox, None)
      else Ok (None, None)
  | ELLIPSE =>
      match points with
      | [cx; cy; rx; ry] =>
          bbox ← centre_box cx cy rx ry; Ok (Some bbox, None)
      | x1 :: y1 :: x2 :: y2 :: _ =>
          bbox ← corner_box x1 y1 x2 y2; Ok (Some bbox, None)
      | _ => Ok (None, None)
      end
  | CUBOID | SKELETON | MASK =>
      if bool_decide (4 ≤ length points)%nat then
        x_coords ← comprehension (λ i, py_index points i)
                     (filter (λ i, i < length points)%nat
                        (range_step2 (length points)));
        y_coords ← comprehension (λ i, py_index points (i + 1))
                     (filter (λ i, i + 1 < length points)%nat
                        (range_step2 (length points)));
        bbox ← extent_box x_coords y_coords;
        Ok (bbox, None)
      else Ok (None, None)
  end.

(** [BoundingBox(x=0, y=0, width=1, height=1)] *)
Definition unit_box : BoundingBox :=
  {| bb_x := 0; bb_y := 0; bb_width := 1; bb_height := 1 |}.

Definition shape_to_label (shape : shape_arg) (cvat_labels : list CVATLabel)
    (score : Q) : result Label :=
  f ← read_fields shape;
  let '(label_name, label_attr_map) := resolve_label (f_label_id f) cvat_labels in
  let label_attributes := omap (convert_attribute label_attr_map) (f_attributes f) in
  g ← geometry (f_type f) (f_points f);
  let bbox := default unit_box g.1 in
  Ok {| label := label_name;
        score := score;
        bbox := bbox;
        polygon := g.2;
        label_attributes := label_attributes |}.

End Utils.

(** ** Generators

    A generator is observed through what it yields and the way it ends: its
    body ran to the end, an exception left it, or (for a [while True] loop
    cut by the fuel of the model) it is still running. *)

Inductive ending : Type :=
  | Finished
  | Failed (e : exn)
  | Unfinished.

Record generator (A : Type) : Type := {
  yields : list A;
  gen_end : ending;
}.
Arguments yields {A} g.
Arguments gen_end {A} g.

Definition gen_stop {A} (e : ending) : generator A :=
  {| yields := []; gen_end := e |}.

Definition gen_yield {A} (a : A) (g : generator A) : generator A :=
  {| yields := a :: yields g; gen_end := gen_end g |}.

(** [yield] each value in turn; the first exception ends the generator. *)
Fixpoint gen_of_results {A} (l : list (result A)) : generator A :=
  match l with
  | [] => gen_stop Finished
  | Ok a :: l' => gen_yield a (gen_of_results l')
  | Raise e :: _ => gen_stop (Failed e)
  end.

(** [g1] and, when it ran to its end, [g2] after it. *)
Definition gen_then {A} (g1 g2 : generator A) : generator A :=
  match gen_end g1 with
  | Finished => {| yields := yields g1 ++ yields g2; gen_end := gen_end g2 |}
  | _ => g1
  end.

(** ** [dataup/models/common.py] and [dataup/_pagination.py] *)

Record CursorPage (T : Type) : Type := {
  items : list T;
  cursor : option string;
  next_page : option string;
}.
Arguments items {T} c.
Arguments cursor {T} c.
Arguments next_page {T} c.

Definition has_next {T} (page : CursorPage T) : bool :=
  bool_decide (cursor page ≠ None) || bool_decide (next_page page ≠ None).

(** [page.cursor or page.next_page]: a string is false when it is empty. *)
Definition cursor_or_next_page {T} (page : CursorPage T) : option string :=
  match cursor page with
  | Some c => if decide (c = "") then next_page page else Some c
  | None => next_page page
  end.

(** [paginate]: the [while True] loop, one turn per unit of fuel. *)
Fixpoint paginate_from {T} (fuel : nat)
    (fetch_page : option string → result (CursorPage T))
    (cursor : option string) : generator T :=
  match fuel with
  | O => gen_stop Unfinished
  | S fuel' =>
      match fetch_page cursor with
      | Raise e => gen_stop (Failed e)
      | Ok page =>
          gen_then {| yields := items page; gen_end := Finished |}
            (if has_next page
             then paginate_from fuel' fetch_page (cursor_or_next_page page)
             else gen_stop Finished)
      end
  end.

Definition paginate {T} (fuel : nat)
    (fetch_page : option string → result (CursorPage T)) : generator T :=
  paginate_from fuel fetch_page None.

(** ** [dataup/cvat/models] *)

Record JobSummary : Type := {
  js_id : Z;
  js_status : string;
  js_stage : string;
}.

Record Job : Type := {
  job_id_of : Z;
  job_task_id : Z;
  start_frame : Z;
  stop_frame : Z;
}.

Record DataMetaInfo : Type := {
  deleted_frames : list Z;
}.

Record FrameImage : Type := {
  fi_frame_id : Z;
  fi_data : string;
  fi_content_type : string;
}.

Record Annotations : Type := {
  shapes : list Shape;
}.

Record FrameLabels : Type := {
  fl_frame_id : Z;
  fl_job_id : Z;
  fl_labels : list Label;
}.

Record PaginatedResponse (T : Type) : Type := {
  pr_count : Z;
  pr_next : option string;
  pr_previous : option string;
  pr_results : list T;
}.
Arguments pr_count {T} p.
Arguments pr_next {T} p.
Arguments pr_previous {T} p.
Arguments pr_results {T} p.

(** The annotation source behind [CVATClient._request]: what each endpoint
    answers (already validated into its model), or the exception the
    request raises.  The answers do not change during a run. *)
Record CVATServer : Type := {
  task_labels : Z → result (list CVATLabel);
  job_labels : Z → result (list CVATLabel);
  jobs_list : Z → Z → Z → result (PaginatedResponse JobSummary);
  jobs_get : Z → result Job;
  jobs_get_data_meta : Z → result DataMetaInfo;
  jobs_annotations : Z → result Annotations;
  jobs_data : Z → Z → result (string * string);
}.

(** ** [dataup/cvat/client.py]: [JobsResource] *)

Module Jobs.

Section WithServer.
Context (cvat : CVATServer).

(** [get_frame]: the image of one frame, tagged with the frame asked for. *)
Definition get_frame (job_id frame_id : Z) : result FrameImage :=
  '(content, content_type) ← jobs_data cvat job_id frame_id;
  Ok {| fi_frame_id := frame_id; fi_data := content;
        fi_content_type := content_type |}.

(** The frame ids [iter_frames] asks for, in order. *)
Definition live_frames (job : Job) (meta : DataMetaInfo) : list Z :=
  filter (λ frame_id, frame_id ∉ deleted_frames meta)
    (py_range (start_frame job) (stop_frame job + 1)).

Definition iter_frames (job_id : Z) : generator FrameImage :=
  match jobs_get cvat job_id with
  | Raise e => gen_stop (Failed e)
  | Ok job =>
      match jobs_get_data_meta cvat job_id with
      | Raise e => gen_stop (Failed e)
      | Ok meta => gen_of_results (get_frame job_id <$> live_frames job meta)
      end
  end.

(** The loop grouping the shapes by frame. *)
Definition group_by_frame (shapes : list Shape) : gmap Z (list ShapeDict) :=
  foldl (λ frames_shapes shape,
           <[frame shape := default [] (frames_shapes !! frame shape)
                            ++ [model_dump shape]]> frames_shapes)
        ∅ shapes.

(** [sorted(frames_shapes.items())]: the keys of a dict are distinct, so
    the pairs are ordered by their frame id. *)
Definition key_le (a b : Z * list ShapeDict) : Prop := a.1 ≤ b.1.

#[global] Instance key_le_dec : RelDecision key_le.
Proof. intros a b. unfold key_le. apply _. Defined.

Definition sorted_items (frames_shapes : gmap Z (list ShapeDict))
  : list (Z * list ShapeDict) :=
  merge_sort key_le (map_to_list frames_shapes).

(** The inner loop with its [try ... except Exception: continue]. *)
Definition convert_shapes (cvat_labels : list CVATLabel)
    (shapes : list ShapeDict) : list Label :=
  omap (λ shape_dict,
          match Utils.shape_to_label (OfDict shape_dict) cvat_labels 1%Q with
          | Ok label => Some label
          | Raise _ => None
          end) shapes.

Definition get_annotations (job_id : Z) (cvat_labels : option (list CVATLabel))
  : result (list FrameLabels) :=
  annotations ← jobs_annotations cvat job_id;
  cvat_labels ← match cvat_labels with
                | Some l => Ok l
                | None => job_labels cvat job_id
                end;
  Ok ((λ '(frame_id, shapes),
         {| fl_frame_id := frame_id; fl_job_id := job_id;
            fl_labels := convert_shapes cvat_labels shapes |})
      <$> sorted_items (group_by_frame (shapes annotations))).

(** One page of [iter_jobs_with_annotations]: a pair per job summary. *)
Definition page_jobs (cvat_labels : list CVATLabel) (results : list JobSummary)
  : generator (JobSummary * list FrameLabels) :=
  gen_of_results
    ((λ job_summary,
        annotations ← get_annotations (js_id job_summary) (Some cvat_labels);
        Ok (job_summary, annotations)) <$> results).

Fixpoint jobs_pages (fuel : nat) (task_id page_size : Z)
    (cvat_labels : list CVATLabel) (page : Z)
  : generator (JobSummary * list FrameLabels) :=
  match fuel with
  | O => gen_stop Unfinished
  | S fuel' =>
      match jobs_list cvat task_id page page_size with
      | Raise e => gen_stop (Failed e)
      | Ok jobs_response =>
          gen_then (page_jobs cvat_labels (pr_results jobs_response))
            (match pr_next jobs_response with
             | None => gen_stop Finished
             | Some _ => jobs_pages fuel' task_id page_size cvat_labels (page + 1)
             end)
      end
  end.

Definition iter_jobs_with_annotations (fuel : nat) (task_id : Z)
  : generator (JobSummary * list FrameLabels) :=
  match task_labels cvat task_id with
  | Raise e => gen_stop (Failed e)
  | Ok cvat_labels => jobs_pages fuel task_id 100 cvat_labels 1
  end.

End WithServer.

End Jobs.

(** ** [dataup/models/evaluations.py] *)

Record EvaluationCreate : Type := {
  ec_agent_id : option string;
  ec_dataset_id : Z;
  ec_agent_name : option string;
  ec_agent_version : option string;
  ec_total_frames : option Z;
}.

(** [len(s)]: the characters of a [str], which are the bytes of its
    UTF-8 form that are not continuation bytes ([0x80] to [0xBF]). *)
Definition is_continuation (c : Ascii.ascii) : bool :=
  let n := Ascii.nat_of_ascii c in (128 <=? n)%nat && (n <? 192)%nat.

Fixpoint py_len (s : string) : nat :=
  match s with
  | EmptyString => 0
  | String c s' => (if is_continuation c then 0 else 1) + py_len s'
  end.

(** [max_length] counts characters; an absent field passes. *)
Definition within (max_length : nat) (s : option string) : bool :=
  match s with
  | Some s => bool_decide (py_len s ≤ max_length)%nat
  | None => true
  end.

(** The constructor with the field constraints ([ge=0], [max_length]);
    the prediction source is always [CLIENT_SDK] here. *)
Definition new_EvaluationCreate (agent_id : option string) (dataset_id : Z)
    (agent_name agent_version : option string) (total_frames : Z)
  : result EvaluationCreate :=
  if bool_decide (0 ≤ dataset_id) && within 256 agent_name
     && within 40 agent_version && bool_decide (0 ≤ total_frames)
  then Ok {| ec_agent_id := agent_id; ec_dataset_id := dataset_id;
             ec_agent_name := agent_name; ec_agent_version := agent_version;
             ec_total_frames := Some total_frames |}
  else Raise ValidationError.

Record FrameData : Type := {
  fd_job_id : Z;
  fd_frame_id : Z;
  fd_ground_truth : list Label;
  fd_predictions : option (list Label);
  fd_image_width : option Z;
  fd_image_height : option Z;
}.

Definition new_FrameData (job_id frame_id : Z) (ground_truth predictions : list Label)
    (image_width image_height : Z) : result FrameData :=
  if bool_decide (0 ≤ job_id) && bool_decide (0 ≤ frame_id)
     && bool_decide (0 ≤ image_width) && bool_decide (0 ≤ image_height)
  then Ok {| fd_job_id := job_id; fd_frame_id := frame_id;
             fd_ground_truth := ground_truth;
             fd_predictions := Some predictions;
             fd_image_width := Some image_width;
             fd_image_height := Some image_height |}
  else Raise ValidationError.

Record EvaluationRead : Type := {
  er_id : string;
  er_status : string;
}.

(** ** The world of a run

    What a run does to the outside is kept in a log: the calls on the
    evaluation service, in order, and the progress reports.  The two
    connections are open or closed. *)

Inductive call : Type :=
  | CallCreate (evaluation : EvaluationCreate)
  | CallIngest (evaluation_id : string) (frames : list FrameData)
  | CallFinalize (evaluation_id : string)
  | CallGet (evaluation_id : string)
  | CallProgress (current total : Z).

Record world : Type := {
  log : list call;
  dataup_open : bool;
  cvat_open : bool;
}.

Definition record_call (c : call) (w : world) : world :=
  {| log := log w ++ [c]; dataup_open := dataup_open w; cvat_open := cvat_open w |}.

(** [DataUpClient.close] and [CVATClient.close] close the HTTP client. *)
Definition DataUpClient_close (w : world) : world :=
  {| log := log w; dataup_open := false; cvat_open := cvat_open w |}.

Definition CVATClient_close (w : world) : world :=
  {| log := log w; dataup_open := dataup_open w; cvat_open := false |}.

(** The evaluation service behind [DataUpClient._request]: its answer to a
    call may depend on the calls made before. *)
Record DataUpService : Type := {
  evaluations_create : list call → EvaluationCreate → result string;
  evaluations_ingest_batch : list call → string → list FrameData → result unit;
  evaluations_finalize : list call → string → result unit;
  evaluations_get : list call → string → result EvaluationRead;
}.

Record PILImage : Type := {
  img_data : string;
  img_width : Z;
  img_height : Z;
}.

(** What a run is given besides the two clients: the provider's [predict],
    [Image.open], and the optional progress callback. *)
Record Inference : Type := {
  image_open : string → result PILImage;
  predict : PILImage → Q → Q → result (list Label);
  progress_callback : option (Z → Z → result unit);
}.

(** A computation of the runner: it returns, raises, or is still in a
    pagination loop when the fuel is spent. *)
Inductive outcome (A : Type) : Type :=
  | Returned (a : A)
  | Raised (e : exn)
  | OutOfFuel.
Arguments Returned {A} a.
Arguments Raised {A} e.
Arguments OutOfFuel {A}.

Definition run (A : Type) : Type := world → outcome A * world.

#[global] Instance run_ret : MRet run := λ A a w, (Returned a, w).
#[global] Instance run_bind : MBind run := λ A B k m w,
  match m w with
  | (Returned a, w') => k a w'
  | (Raised e, w') => (Raised e, w')
  | (OutOfFuel, w') => (OutOfFuel, w')
  end.

Definition lift {A} (r : result A) : run A := λ w,
  match r with
  | Ok a => (Returned a, w)
  | Raise e => (Raised e, w)
  end.

Definition raise {A} (e : exn) : run A := λ w, (Raised e, w).
Definition out_of_fuel {A} : run A := λ w, (OutOfFuel, w).

(** A call on the evaluation service: logged, then answered. *)
Definition remote {A} (c : call) (answer : list call → result A) : run A := λ w,
  let w' := record_call c w in
  match answer (log w) with
  | Ok a => (Returned a, w')
  | Raise e => (Raised e, w')
  end.

(** A [for] loop with the variables it updates. *)
Fixpoint for_each {A S} (body : S → A → run S) (s : S) (l : list A) : run S :=
  match l with
  | [] => mret s
  | a :: l' => s' ← body s a; for_each body s' l'
  end.

(** A [for] loop over a generator. *)
Definition for_gen {A S} (body : S → A → run S) (s : S) (g : generator A) : run S :=
  s' ← for_each body s (yields g);
  match gen_end g return run S with
  | Finished => mret s'
  | Failed e => raise e
  | Unfinished => out_of_fuel
  end.

(** ** [dataup/evaluation/runner.py]: [EvaluationRunner] *)

Module Runner.

Section WithClients.
Context (dataup : DataUpService) (cvat : CVATServer) (provider : Inference).
Context (fuel : nat).

(** The job filter of both passes: the job is skipped when it holds. *)
Definition filtered_out (jobs_to_process_ids : option (gset Z)) (job_id : Z) : bool :=
  match jobs_to_process_ids with
  | Some ids => bool_decide (job_id ∉ ids)
  | None => false
  end.

(** First pass: the total number of frames. *)
Definition first_pass (task_id : Z) (jobs_to_process_ids : option (gset Z)) : run Z :=
  for_gen
    (λ total_frames '(job_summary, _),
       if filtered_out jobs_to_process_ids (js_id job_summary)
       then mret total_frames
       else
         job ← lift (jobs_get cvat (js_id job_summary));
         meta ← lift (jobs_get_data_meta cvat (js_id job_summary));
         let frame_count := stop_frame job - start_frame job + 1
                            - Z.of_nat (length (deleted_frames meta)) in
         mret (total_frames + frame_count))
    0 (Jobs.iter_jobs_with_annotations cvat fuel task_id).

(** The variables of the second pass. *)
Record progress : Type := {
  processed_frames : Z;
  current_batch : list FrameData;
}.

(** [frame_labels_lookup], filled from the job's [FrameLabels]. *)
Definition labels_lookup (frame_labels_list : list FrameLabels) : gmap Z (list Label) :=
  foldl (λ lookup frame_labels,
           <[fl_frame_id frame_labels := fl_labels frame_labels]> lookup)
        ∅ frame_labels_list.

(** The body of the loop over the frames of a job. *)
Definition process_frame (evaluation_id : string) (total_frames batch_size : Z)
    (conf iou : Q) (job_id : Z) (frame_labels_lookup : gmap Z (list Label))
    (st : progress) (frame_image : FrameImage) : run progress :=
  let frame_id := fi_frame_id frame_image in
  pil_image ← lift (image_open provider (fi_data frame_image));
  predictions ← lift (predict provider pil_image conf iou);
  let ground_truth := default [] (frame_labels_lookup !! frame_id) in
  frame_data ← lift (new_FrameData job_id frame_id ground_truth predictions
                       (img_width pil_image) (img_height pil_image));
  let current_batch := current_batch st ++ [frame_data] in
  let processed_frames := processed_frames st + 1 in
  _ ← match progress_callback provider with
      | Some callback =>
          remote (CallProgress processed_frames total_frames)
                 (λ _, callback processed_frames total_frames)
      | None => mret ()
      end;
  if bool_decide (batch_size ≤ Z.of_nat (length current_batch)) then
    _ ← remote (CallIngest evaluation_id current_batch)
          (λ l, evaluations_ingest_batch dataup l evaluation_id current_batch);
    mret {| processed_frames := processed_frames; current_batch := [] |}
  else
    mret {| processed_frames := processed_frames; current_batch := current_batch |}.

(** Second pass: the loop over the jobs and their frames. *)
Definition second_pass (task_id : Z) (jobs_to_process_ids : option (gset Z))
    (evaluation_id : string) (total_frames batch_size : Z) (conf iou : Q)
  : run progress :=
  for_gen
    (λ st '(job_summary, frame_labels_list),
       let job_id := js_id job_summary in
       if filtered_out jobs_to_process_ids job_id then mret st
       else
         let frame_labels_lookup := labels_lookup frame_labels_list in
         for_gen
           (process_frame evaluation_id total_frames batch_size conf iou
              job_id frame_labels_lookup)
           st (Jobs.iter_frames cvat job_id))
    {| processed_frames := 0; current_batch := [] |}
    (Jobs.iter_jobs_with_annotations cvat fuel task_id).

Definition run_and_submit (task_id : Z) (agent_id agent_name agent_version : option string)
    (job_ids : option (list Z)) (conf iou : Q) (batch_size : Z)
  : run EvaluationRead :=
  let jobs_to_process_ids : option (gset Z) := list_to_set <$> job_ids in
  total_frames ← first_pass task_id jobs_to_process_ids;
  evaluation ← lift (new_EvaluationCreate agent_id task_id agent_name
                       agent_version total_frames);
  evaluation_id ← remote (CallCreate evaluation)
                    (λ l, evaluations_create dataup l evaluation);
  (* try: *)
  st ← second_pass task_id jobs_to_process_ids evaluation_id total_frames
         batch_size conf iou;
  _ ← match current_batch st with
      | [] => mret ()
      | _ :: _ =>
          remote (CallIngest evaluation_id (current_batch st))
            (λ l, evaluations_ingest_batch dataup l evaluation_id (current_batch st))
      end;
  _ ← remote (CallFinalize evaluation_id)
        (λ l, evaluations_finalize dataup l evaluation_id);
  remote (CallGet evaluation_id) (λ l, evaluations_get dataup l evaluation_id).
  (* except Exception: raise *)

End WithClients.

End Runner.

(** ** [dataup/cli/evaluation.py]: the caller of the runner

    [evaluation_run] closes the two clients after the results are shown;
    when the run raises it exits before. *)
Definition cli_evaluation_run (dataup : DataUpService) (cvat : CVATServer)
    (provider : Inference) (fuel : nat) (task : Z) (agent_id agent_name : option string)
    (agent_version : option string) (conf iou : Q) (batch_size : Z)
  : run EvaluationRead := λ w,
  match Runner.run_and_submit dataup cvat provider fuel task agent_id agent_name
          agent_version None conf iou batch_size w with
  | (Returned res, w') => (Returned res, CVATClient_close (DataUpClient_close w'))
  | other => other
  end.

(** ** Reading a log *)

(** The payloads of the ingestion calls, in order. *)
Fixpoint batches (l : list call) : list (list FrameData) :=
  match l with
  | [] => []
  | CallIngest _ frames :: l' => frames :: batches l'
  | _ :: l' => batches l'
  end.

Definition is_finalize (c : call) : bool :=
  match c with CallFinalize _ => true | _ => false end.

(** The number of finalize calls. *)
Definition finalize_calls (l : list call) : nat := length (filter is_finalize l).

(** The [total_frames] of the evaluations created. *)
Fixpoint created_totals (l : list call) : list (option Z) :=
  match l with
  | [] => []
  | CallCreate evaluation :: l' => ec_total_frames evaluation :: created_totals l'
  | _ :: l' => created_totals l'
  end.

(** The jobs of a traversal that the filter keeps. *)
Definition scoped (jobs_to_process_ids : option (gset Z))
    (jobs : list (JobSummary * list FrameLabels)) : list Z :=
  filter (λ job_id, Runner.filtered_out jobs_to_process_ids job_id = false)
    (js_id ∘ fst <$> jobs).

(** The jobs the traversal of a task reaches and the filter keeps. *)
Definition jobs_in_scope (cvat : CVATServer) (fuel : nat) (task_id : Z)
    (job_ids : option (list Z)) : list Z :=
  scoped (list_to_set <$> job_ids)
    (yields (Jobs.iter_jobs_with_annotations cvat fuel task_id)).

(** The frames [iter_frames] yields for a job, as [(job_id, frame_id)]. *)
Definition job_frames (cvat : CVATServer) (job_id : Z) : list (Z * Z) :=
  (λ frame_image, (job_id, fi_frame_id frame_image))
    <$> yields (Jobs.iter_frames cvat job_id).

(** The frames of the jobs in scope, in traversal order. *)
Definition frames_in_scope (cvat : CVATServer) (fuel : nat) (task_id : Z)
    (job_ids : option (list Z)) : list (Z * Z) :=
  jobs_in_scope cvat fuel task_id job_ids ≫= job_frames cvat.

(** The [(job_id, frame_id)] of frame records. *)
Definition record_ids (frames : list FrameData) : list (Z * Z) :=
  (λ frame_data, (fd_job_id frame_data, fd_frame_id frame_data)) <$> frames.

(** A batch of exactly [batch_size] records. *)
Definition full (batch_size : Z) (batch : list FrameData) : Prop :=
  Z.of_nat (length batch) = batch_size.

(** From the variables [st] and the world [w], processing [frames] leads
    to [st'] and [w']: the frames are counted, their records are in the
    batches ingested since or in the current batch, in order, no other
    call on the service is made, and a current batch below [batch_size]
    stays so while only full batches leave. *)
Definition advances (batch_size : Z) (st : Runner.progress) (w : world)
    (frames : list (Z * Z)) (st' : Runner.progress) (w' : world) : Prop :=
  Runner.processed_frames st'
  = Runner.processed_frames st + Z.of_nat (length frames)
  ∧ ∃ calls,
      log w' = log w ++ calls
      ∧ finalize_calls calls = 0%nat
      ∧ created_totals calls = []
      ∧ record_ids (concat (batches calls) ++ Runner.current_batch st')
        = record_ids (Runner.current_batch st) ++ frames
      ∧ (Z.of_nat (length (Runner.current_batch st)) < batch_size →
         Forall (full batch_size) (batches calls)
         ∧ Z.of_nat (length (Runner.current_batch st')) < batch_size).

(** A job as the claims on frame counts take it: the range is not
    inverted, and the deleted frames are distinct frames of the range. *)
Definition well_formed_job (job : Job) (meta : DataMetaInfo) : Prop :=
  start_frame job ≤ stop_frame job + 1
  ∧ NoDup (deleted_frames meta)
  ∧ ∀ frame_id, frame_id ∈ deleted_frames meta →
      start_frame job ≤ frame_id ≤ stop_frame job.

(** What one more run of shapes does to a frame's entry in the dict. *)
Definition extend (entry : option (list ShapeDict)) (new : list ShapeDict)
  : option (list ShapeDict) :=
  match new with
  | [] => entry
  | _ :: _ => Some (default [] entry ++ new)
  end.

(** A computation that leaves both connections as they are, however it
    ends. *)
Definition keeps_connections {A} (m : run A) : Prop :=
  ∀ w, dataup_open (m w).2 = dataup_open w ∧ cvat_open (m w).2 = cvat_open w.

(** A coordinate with an integer value. *)
Definition integral (q : Q) : Prop := ∃ n : Z, (q == inject_Z n)%Q.

(** ** The coordinates a conversion cannot take

    [ragged t points]: a branch that reads the coordinates in pairs meets
    an odd number of them; the branches of polygon, polyline and points
    do so from [least_count] coordinates on. *)
Definition least_count (t : ShapeType) : nat :=
  match t with
  | POLYGON => 6
  | POINTS => 2
  | _ => 4
  end.

Definition ragged (t : ShapeType) (points : list Q) : Prop :=
  t ∈ [POLYGON; POLYLINE; POINTS]
  ∧ (least_count t ≤ length points)%nat ∧ Nat.Odd (length points).

(** Two coordinates whose difference is no finite double, and a product
    that is none. *)
Definition too_far (x y : Q) : Prop := (overflow_threshold <= Qabs (y - x))%Q.

(** Two coordinates of the same axis (at positions of the same parity)
    are too far apart. *)
Definition spread_overflows (points : list Q) : Prop :=
  ∃ i j x y, points !! i = Some x ∧ points !! j = Some y
             ∧ (i mod 2 = j mod 2)%nat ∧ too_far x y.


(** ** Draining a paginated endpoint

    [page_chain fetch_page token pages]: [pages] are the pages the server
    returns when the first is fetched with [token] and each next one with
    the continuation of the page before, which is its cursor when it has
    a non-empty one and its next-page URL otherwise; the last, and only
    the last, has neither a cursor nor a next-page URL. *)
Inductive page_chain {T} (fetch_page : option string → result (CursorPage T))
  : option string → list (CursorPage T) → Prop :=
  | chain_last token page :
      fetch_page token = Ok page →
      cursor page = None → next_page page = None →
      page_chain fetch_page token [page]
  | chain_cursor token page c pages :
      fetch_page token = Ok page →
      cursor page = Some c → c ≠ "" →
      page_chain fetch_page (Some c) pages →
      page_chain fetch_page token (page :: pages)
  | chain_next_page token page pages :
      fetch_page token = Ok page →
      cursor page = None ∨ cursor page = Some "" →
      ¬ (cursor page = None ∧ next_page page = None) →
      page_chain fetch_page (next_page page) pages →
      page_chain fetch_page token (page :: pages).

(** ** A task to run on

    The end-to-end scenario of the specification: a task with two jobs,
    frames 0 to 2 and 3 to 4, frame 1 deleted, listed on two pages. *)
Module Scenario.

Definition car_labels : list CVATLabel :=
  [ {| cl_id := 7; cl_name := "car"; cl_attributes := [] |} ].

Definition dict_shape (type : string) (pts : list Q) : shape_arg :=
  OfDict {| d_type := Some type; d_frame := 0; d_label_id := Some 7;
            d_points := Some pts; d_attributes := None |}.

Definition rectangle : Shape :=
  {| shape_type := RECTANGLE; frame := 0; label_id := 7;
     points := [10; 10; 50; 40]%Q; attributes := [] |}.

(** A polygon with an odd number of coordinates. *)
Definition ragged_polygon : Shape :=
  {| shape_type := POLYGON; frame := 0; label_id := 7;
     points := [0; 0; 4; 0; 4; 3; 9]%Q; attributes := [] |}.

Definition ellipse : Shape :=
  {| shape_type := ELLIPSE; frame := 2; label_id := 7;
     points := [100; 100; 20; 10]%Q; attributes := [] |}.

Definition summary (id : Z) : JobSummary :=
  {| js_id := id; js_status := "annotation"; js_stage := "annotation" |}.

Definition cvat : CVATServer :=
  {| task_labels := λ _, Ok car_labels;
     job_labels := λ _, Ok car_labels;
     jobs_list := λ _ page _,
       if bool_decide (page = 1) then
         Ok {| pr_count := 2; pr_next := Some "/jobs?page=2"; pr_previous := None;
               pr_results := [summary 11] |}
       else
         Ok {| pr_count := 2; pr_next := None; pr_previous := Some "/jobs?page=1";
               pr_results := [summary 12] |};
     jobs_get := λ job_id,
       if bool_decide (job_id = 11) then
         Ok {| job_id_of := 11; job_task_id := 1; start_frame := 0; stop_frame := 2 |}
       else
         Ok {| job_id_of := job_id; job_task_id := 1; start_frame := 3; stop_frame := 4 |};
     jobs_get_data_meta := λ job_id,
       Ok {| deleted_frames := if bool_decide (job_id = 11) then [1] else [] |};
     jobs_annotations := λ job_id,
       Ok {| shapes := if bool_decide (job_id = 11)
                       then [rectangle; ragged_polygon; ellipse] else [] |};
     jobs_data := λ _ _, Ok ("<jpeg>", "image/jpeg") |}.

Definition dataup : DataUpService :=
  {| evaluations_create := λ _ _, Ok "ev-1";
     evaluations_ingest_batch := λ _ _ _, Ok ();
     evaluations_finalize := λ _ _, Ok ();
     evaluations_get := λ _ id, Ok {| er_id := id; er_status := "DONE" |} |}.

Definition provider : Inference :=
  {| image_open := λ data, Ok {| img_data := data; img_width := 640; img_height := 480 |};
     predict := λ _ _ _, Ok [];
     progress_callback := None |}.

(** A provider whose model fails on every image. *)
Definition broken_provider : Inference :=
  {| image_open := image_open provider;
     predict := λ _ _ _, Raise InferenceError;
     progress_callback := None |}.

Definition fresh : world := {| log := []; dataup_open := true; cvat_open := true |}.

Definition run_it (p : Inference) (batch_size : Z) : outcome EvaluationRead * world :=
  Runner.run_and_submit dataup cvat p 5 1 None (Some "yolo") (Some "1.0.0")
    None 0%Q (1 # 2)%Q batch_size fresh.

(** A task whose second job has an inverted range. *)
Definition inverted_cvat : CVATServer :=
  {| task_labels := task_labels cvat;
     job_labels := job_labels cvat;
     jobs_list := jobs_list cvat;
     jobs_get := λ job_id,
       if bool_decide (job_id = 11) then
         Ok {| job_id_of := 11; job_task_id := 1; start_frame := 0; stop_frame := 2 |}
       else
         Ok {| job_id_of := job_id; job_task_id := 1; start_frame := 5; stop_frame := 3 |};
     jobs_get_data_meta := λ _, Ok {| deleted_frames := [] |};
     jobs_annotations := jobs_annotations cvat;
     jobs_data := jobs_data cvat |}.

Definition run_inverted : outcome EvaluationRead * world :=
  Runner.run_and_submit dataup inverted_cvat provider 5 1 None (Some "yolo")
    (Some "1.0.0") None 0%Q (1 # 2)%Q 2 fresh.

(** A cursor-paginated endpoint with three pages. *)
Definition fetch_page (cursor : option string) : result (CursorPage Z) :=
  match cursor with
  | None => Ok {| items := [1; 2]; cursor := Some "c1"; next_page := None |}
  | Some c =>
      if decide (c = "c1")
      then Ok {| items := [3]; cursor := None; next_page := Some "c2" |}
      else Ok {| items := [4; 5]; cursor := None; next_page := None |}
  end.

(** A server whose pages carry every kind of continuation: a cursor
    beside a next-page URL, a URL alone, an empty cursor beside a URL;
    any other token is unknown to it. *)
Definition fetch_tokens (cursor : option string) : result (CursorPage Z) :=
  match cursor with
  | None => Ok {| items := [1; 2]; cursor := Some "c1"; next_page := Some "u1" |}
  | Some c =>
      if decide (c = "c1")
      then Ok {| items := [3]; cursor := None; next_page := Some "u2" |}
      else if decide (c = "u2")
      then Ok {| items := [4; 5]; cursor := Some ""; next_page := Some "u3" |}
      else if decide (c = "u3")
      then Ok {| items := [6]; cursor := None; next_page := None |}
      else Raise (APIError 404)
  end.

End Scenario.

(** ** Specifications used by the further properties *)

(** [d] is the first label definition of [cvat_labels] with the id [i]. *)
Definition first_label_with (i : Z) (cvat_labels : list CVATLabel) (d : CVATLabel)
  : Prop :=
  ∃ before after, cvat_labels = before ++ d :: after
    ∧ cl_id d = i ∧ ∀ d', d' ∈ before → cl_id d' ≠ i.

(** [a] is the last attribute definition of [attrs] with the id [i]. *)
Definition last_attribute_with (i : Z) (attrs : list CVATLabelAttribute)
    (a : CVATLabelAttribute) : Prop :=
  ∃ before after, attrs = before ++ a :: after
    ∧ cla_id a = i ∧ ∀ a', a' ∈ after → cla_id a' ≠ i.

(** A box holds a point. *)
Definition box_holds (b : BoundingBox) (p : Z * Z) : Prop :=
  bb_x b ≤ p.1 ≤ bb_x b + bb_width b ∧ bb_y b ≤ p.2 ≤ bb_y b + bb_height b.

(** A task with attribute definitions, for the properties on attributes. *)
Module Fleet.

Definition truck_label : CVATLabel :=
  {| cl_id := 3; cl_name := "truck";
     cl_attributes := [ {| cla_id := 21; cla_name := "colour" |};
                        {| cla_id := 22; cla_name := "axles" |} ] |}.

Definition labels : list CVATLabel := Scenario.car_labels ++ [truck_label].

Definition truck : Shape :=
  {| shape_type := POLYGON; frame := 4; label_id := 3;
     points := [12; 3; 40; 5; 38; 30; 10; 28]%Q;
     attributes := [ {| spec_id := 21; value := "red" |};
                     {| spec_id := 22; value := "" |};
                     {| spec_id := 99; value := "yes" |} ] |}.

End Fleet.

(** [page_run fetch_page token pages token']: fetching from [token] and
    following the continuations returns [pages], each of which announces a
    next page, and leaves the cursor at [token']. *)
Inductive page_run {T} (fetch_page : option string → result (CursorPage T))
  : option string → list (CursorPage T) → option string → Prop :=
  | run_nil token : page_run fetch_page token [] token
  | run_cons token page pages token' :
      fetch_page token = Ok page →
      has_next page = true →
      page_run fetch_page (cursor_or_next_page page) pages token' →
      page_run fetch_page token (page :: pages) token'.

(** ** [dataup/cvat/client.py]: more of [JobsResource] *)

Module JobsResource.

Section WithServer.
Context (cvat : CVATServer).

(** [get_frame_annotations]: the entry of the frame in the job's
    annotations, or an entry without labels. *)
Definition get_frame_annotations (job_id frame_id : Z)
    (cvat_labels : option (list CVATLabel)) : result FrameLabels :=
  frame_labels_list ← Jobs.get_annotations cvat job_id cvat_labels;
  match find (λ frame_labels, bool_decide (fl_frame_id frame_labels = frame_id))
          frame_labels_list with
  | Some frame_labels => Ok frame_labels
  | None => Ok {| fl_frame_id := frame_id; fl_job_id := job_id; fl_labels := [] |}
  end.

End WithServer.

End JobsResource.

(** [job_pages cvat task_id page_size page pages]: listing the jobs of the
    task from page number [page] on returns [pages], the last of which is
    the first without a [next] link. *)
Inductive job_pages (cvat : CVATServer) (task_id page_size : Z)
  : Z → list (PaginatedResponse JobSummary) → Prop :=
  | job_pages_last page response :
      jobs_list cvat task_id page page_size = Ok response →
      pr_next response = None →
      job_pages cvat task_id page_size page [response]
  | job_pages_next page response pages :
      jobs_list cvat task_id page page_size = Ok response →
      pr_next response ≠ None →
      job_pages cvat task_id page_size (page + 1) pages →
      job_pages cvat task_id page_size page (response :: pages).

(** ** [dataup/evaluation/runner.py]: the records and calls of a run *)

(** The frame record the loop body builds for a frame (image opened,
    inference run, ground truth looked up), before it is appended. *)
Definition frame_record (provider : Inference) (conf iou : Q) (job_id : Z)
    (frame_labels_lookup : gmap Z (list Label)) (frame_image : FrameImage)
  : result FrameData :=
  pil_image ← image_open provider (fi_data frame_image);
  predictions ← predict provider pil_image conf iou;
  new_FrameData job_id (fi_frame_id frame_image)
    (default [] (frame_labels_lookup !! fi_frame_id frame_image)) predictions
    (img_width pil_image) (img_height pil_image).

(** The calls the second pass makes for a sequence of records when nothing
    fails, and the variables it ends with: a progress report per record
    (when a callback is given), and an ingestion call each time the batch
    reaches [batch_size]. *)
Fixpoint replay (reporting : bool) (evaluation_id : string) (total_frames batch_size : Z)
    (st : Runner.progress) (records : list FrameData)
  : list call * Runner.progress :=
  match records with
  | [] => ([], st)
  | frame_data :: records' =>
      let batch := Runner.current_batch st ++ [frame_data] in
      let processed := Runner.processed_frames st + 1 in
      let report := if reporting then [CallProgress processed total_frames] else [] in
      if bool_decide (batch_size ≤ Z.of_nat (length batch)) then
        let '(calls, st') :=
          replay reporting evaluation_id total_frames batch_size
            {| Runner.processed_frames := processed; Runner.current_batch := [] |}
            records' in
        (report ++ CallIngest evaluation_id batch :: calls, st')
      else
        let '(calls, st') :=
          replay reporting evaluation_id total_frames batch_size
            {| Runner.processed_frames := processed; Runner.current_batch := batch |}
            records' in
        (report ++ calls, st')
  end.

(** The frames of a job of the traversal, each with the job id and the
    ground-truth lookup the loop body uses for it. *)
Definition job_work (cvat : CVATServer) (job : JobSummary * list FrameLabels)
  : list (Z * gmap Z (list Label) * FrameImage) :=
  (λ frame_image, (js_id job.1, Runner.labels_lookup job.2, frame_image))
    <$> yields (Jobs.iter_frames cvat (js_id job.1)).

(** The work of the second pass over the jobs the filter keeps. *)
Definition scoped_work (cvat : CVATServer) (jobs_to_process_ids : option (gset Z))
    (jobs : list (JobSummary * list FrameLabels))
  : list (Z * gmap Z (list Label) * FrameImage) :=
  filter (λ job, Runner.filtered_out jobs_to_process_ids (js_id job.1) = false) jobs
    ≫= job_work cvat.

(** The record of a piece of work. *)
Definition work_record (provider : Inference) (conf iou : Q)
    (work : Z * gmap Z (list Label) * FrameImage) (frame_data : FrameData) : Prop :=
  frame_record provider conf iou work.1.1 work.1.2 work.2 = Ok frame_data.

(** The progress reports of a log. *)
Fixpoint progress_reports (l : list call) : list (Z * Z) :=
  match l with
  | [] => []
  | CallProgress current total :: l' => (current, total) :: progress_reports l'
  | _ :: l' => progress_reports l'
  end.

(** A call that neither creates nor finalizes an evaluation. *)
Definition is_feed (c : call) : bool :=
  match c with
  | CallCreate _ | CallFinalize _ => false
  | _ => true
  end.

(** A computation that neither creates nor finalizes an evaluation,
    however it ends. *)
Definition feeds_only {A} (m : run A) : Prop :=
  ∀ w, ∃ calls,
    log (m w).2 = log w ++ calls
    ∧ finalize_calls calls = 0%nat ∧ created_totals calls = [].

(** The call that submits what is left in the batch after the loops. *)
Definition remainder_call (evaluation_id : string) (st : Runner.progress) : list call :=
  match Runner.current_batch st with
  | [] => []
  | _ :: _ => [CallIngest evaluation_id (Runner.current_batch st)]
  end.

(** A call of the second pass of a run on the evaluation [evaluation_id]
    with the total [total_frames]: an ingestion of a batch with a record
    in it, or a progress report against the total. *)
Definition second_pass_call (evaluation_id : string) (total_frames : Z) (c : call)
  : Prop :=
  match c with
  | CallIngest id frames => id = evaluation_id ∧ frames ≠ []
  | CallProgress _ total => total = total_frames
  | _ => False
  end.

(** The run of the scenario with a callback that accepts every report. *)
Module Reporting.

Definition provider : Inference :=
  {| image_open := image_open Scenario.provider;
     predict := predict Scenario.provider;
     progress_callback := Some (λ _ _, Ok ()) |}.

Definition run_it (job_ids : option (list Z)) (batch_size : Z)
  : outcome EvaluationRead * world :=
  Runner.run_and_submit Scenario.dataup Scenario.cvat provider 5 1 None (Some "yolo")
    (Some "1.0.0") job_ids 0%Q (1 # 2)%Q batch_size Scenario.fresh.

End Reporting.

(** ** [dataup/cvat/client.py]: [TasksResource] *)

Module Tasks.

(** A job summary as the job listing returns it ([models/jobs.py]): the
    summary with the frame range of the job. *)
Record JobRange : Type := {
  jr_summary : JobSummary;
  jr_start_frame : Z;
  jr_stop_frame : Z;
}.

Record Task : Type := {
  t_id : Z;
  t_name : string;
  t_jobs : list JobRange;
}.

(** [DataMetaInfo] as read for a task: with the frame range. *)
Record TaskMeta : Type := {
  tm_start_frame : Z;
  tm_stop_frame : Z;
  tm_deleted_frames : list Z;
}.

(** The endpoints behind [TasksResource]: [GET /tasks/{id}],
    [GET /labels?task_id=], [GET /tasks/{id}/data/meta],
    [GET /tasks/{id}/data], [GET /tasks/{id}/annotations], and the job
    listing [GET /jobs?task_id=&page=&page_size=]. *)
Record TaskEndpoints : Type := {
  tasks_read : Z → result Task;
  tasks_labels : Z → result (list CVATLabel);
  tasks_data_meta : Z → result TaskMeta;
  tasks_data : Z → Z → result (string * string);
  tasks_annotations : Z → result Annotations;
  jobs_listing : Z → Z → Z → result (PaginatedResponse JobRange);
}.

Section WithEndpoints.
Context (srv : TaskEndpoints).

(** [get]: the task, with the first page of a thousand of its jobs. *)
Definition get (task_id : Z) : result Task :=
  task ← tasks_read srv task_id;
  jobs_response ← jobs_listing srv task_id 1 1000;
  Ok {| t_id := t_id task; t_name := t_name task;
        t_jobs := pr_results jobs_response |}.

Definition get_frame (task_id frame_id : Z) : result FrameImage :=
  '(content, content_type) ← tasks_data srv task_id frame_id;
  Ok {| fi_frame_id := frame_id; fi_data := content;
        fi_content_type := content_type |}.

(** The frame ids [iter_frames] asks for, in order. *)
Definition frames_asked (meta : TaskMeta) (start_frame stop_frame : option Z) : list Z :=
  let start := default (tm_start_frame meta) start_frame in
  let stop := default (tm_stop_frame meta) stop_frame in
  filter (λ frame_id, frame_id ∉ tm_deleted_frames meta) (py_range start (stop + 1)).

Definition iter_frames (task_id : Z) (start_frame stop_frame : option Z)
  : generator FrameImage :=
  match tasks_data_meta srv task_id with
  | Raise e => gen_stop (Failed e)
  | Ok meta =>
      gen_of_results (get_frame task_id <$> frames_asked meta start_frame stop_frame)
  end.

(** The loop filling [frame_to_job]: every frame of the range of a job is
    set to the job, in the order of the listing. *)
Definition frame_to_job (results : list JobRange) : gmap Z Z :=
  foldl (λ frame_to_job job_summary,
           foldl (λ frame_to_job frame_id,
                    <[frame_id := js_id (jr_summary job_summary)]> frame_to_job)
                 frame_to_job
                 (py_range (jr_start_frame job_summary) (jr_stop_frame job_summary + 1)))
        ∅ results.

(** [frames_shapes] is iterated in insertion order: the dict is kept as
    the list of its items.  One step of the grouping loop. *)
Fixpoint add_shape (frames_shapes : list (Z * list ShapeDict)) (frame_id : Z)
    (shape_dict : ShapeDict) : list (Z * list ShapeDict) :=
  match frames_shapes with
  | [] => [(frame_id, [shape_dict])]
  | (k, shapes) :: rest =>
      if decide (k = frame_id) then (k, shapes ++ [shape_dict]) :: rest
      else (k, shapes) :: add_shape rest frame_id shape_dict
  end.

Definition group_in_order (shapes : list Shape) : list (Z * list ShapeDict) :=
  foldl (λ frames_shapes shape, add_shape frames_shapes (frame shape) (model_dump shape))
        [] shapes.

(** The job of a frame: the one of the mapping, else the first job of the
    task, else none (the frame is skipped). *)
Definition assign_job (frame_to_job : gmap Z Z) (task : Task) (frame_id : Z)
  : option Z :=
  match frame_to_job !! frame_id with
  | Some job_id => Some job_id
  | None =>
      match t_jobs task with
      | first :: _ => Some (js_id (jr_summary first))
      | [] => None
      end
  end.

Definition get_annotations (task_id : Z) : result (list FrameLabels) :=
  annotations ← tasks_annotations srv task_id;
  task ← get task_id;
  cvat_labels ← tasks_labels srv task_id;
  jobs_response ← jobs_listing srv task_id 1 1000;
  let frame_to_job := frame_to_job (pr_results jobs_response) in
  let frames_shapes := group_in_order (shapes annotations) in
  Ok (omap (λ '(frame_id, shapes),
              match assign_job frame_to_job task frame_id with
              | Some job_id =>
                  Some {| fl_frame_id := frame_id; fl_job_id := job_id;
                          fl_labels := Jobs.convert_shapes cvat_labels shapes |}
              | None => None
              end) frames_shapes).

Definition get_frame_annotations (task_id frame_id : Z) : result FrameLabels :=
  frame_labels_list ← get_annotations task_id;
  match find (λ frame_labels, bool_decide (fl_frame_id frame_labels = frame_id))
          frame_labels_list with
  | Some frame_labels => Ok frame_labels
  | None =>
      task ← get task_id;
      let job_id := match t_jobs task with
                    | first :: _ => js_id (jr_summary first)
                    | [] => 0
                    end in
      Ok {| fl_frame_id := frame_id; fl_job_id := job_id; fl_labels := [] |}
  end.

End WithEndpoints.

(** The range of a job holds a frame. *)
Definition covers (frame_id : Z) (job : JobRange) : Prop :=
  jr_start_frame job ≤ frame_id ≤ jr_stop_frame job.

#[global] Instance covers_dec frame_id job : Decision (covers frame_id job).
Proof. unfold covers. apply _. Defined.

(** The distinct values of a list, in the order in which they first
    appear. *)
Definition first_seen (l : list Z) : list Z :=
  foldl (λ seen x, if decide (x ∈ seen) then seen else seen ++ [x]) [] l.

(** A task of two jobs whose ranges overlap on frame 3, with shapes on the
    frames 5, 3, 5 and 9 in this order. *)
Definition job_range (id start stop : Z) : JobRange :=
  {| jr_summary := Scenario.summary id; jr_start_frame := start;
     jr_stop_frame := stop |}.

Definition on_frame (f : Z) : Shape :=
  {| shape_type := RECTANGLE; frame := f; label_id := 7;
     points := [10; 10; 50; 40]%Q; attributes := [] |}.

Definition overlapping : TaskEndpoints :=
  {| tasks_read := λ task_id, Ok {| t_id := task_id; t_name := "street"; t_jobs := [] |};
     tasks_labels := λ _, Ok Scenario.car_labels;
     tasks_data_meta := λ _,
       Ok {| tm_start_frame := 0; tm_stop_frame := 6; tm_deleted_frames := [4] |};
     tasks_data := λ _ frame_id,
       if bool_decide (frame_id = 5) then Raise (APIError 404)
       else Ok ("<jpeg>", "image/jpeg");
     tasks_annotations := λ _,
       Ok {| shapes := [on_frame 5; on_frame 3; on_frame 5; on_frame 9] |};
     jobs_listing := λ _ _ _,
       Ok {| pr_count := 2; pr_next := None; pr_previous := None;
             pr_results := [job_range 21 0 3; job_range 22 3 6] |} |}.

(** The same task when the listing returns no job. *)
Definition unlisted : TaskEndpoints :=
  {| tasks_read := tasks_read overlapping;
     tasks_labels := tasks_labels overlapping;
     tasks_data_meta := tasks_data_meta overlapping;
     tasks_data := tasks_data overlapping;
     tasks_annotations := tasks_annotations overlapping;
     jobs_listing := λ _ _ _,
       Ok {| pr_count := 0; pr_next := None; pr_previous := None;
             pr_results := [] |} |}.

End Tasks.

(** ** [dataup/evaluation/runner.py]: a second pass that stops *)

(** From the variables [st] and the world [w], a second pass over [frames]
    that stops anywhere leads to the world [w']: it has made no call but
    progress reports and ingestions, the records of the ingestion calls
    are those of the current batch and of the first frames, in order, and
    from a current batch below [batch_size] only full batches have left. *)
Definition stops (batch_size : Z) (st : Runner.progress) (w : world)
    (frames : list (Z * Z)) (w' : world) : Prop :=
  ∃ calls,
    log w' = log w ++ calls
    ∧ finalize_calls calls = 0%nat
    ∧ created_totals calls = []
    ∧ record_ids (concat (batches calls))
      `prefix_of` (record_ids (Runner.current_batch st) ++ frames)
    ∧ (Z.of_nat (length (Runner.current_batch st)) < batch_size →
       Forall (full batch_size) (batches calls)).

(** A service that accepts the first batch of an evaluation and fails on
    every later one. *)
Module Flaky.

Definition dataup : DataUpService :=
  {| evaluations_create := evaluations_create Scenario.dataup;
     evaluations_ingest_batch := λ l _ _,
       match batches l with
       | [] => Ok ()
       | _ :: _ => Raise (APIError 500)
       end;
     evaluations_finalize := evaluations_finalize Scenario.dataup;
     evaluations_get := evaluations_get Scenario.dataup |}.

Definition run_it (batch_size : Z) : outcome EvaluationRead * world :=
  Runner.run_and_submit dataup Scenario.cvat Scenario.provider 5 1 None (Some "yolo")
    (Some "1.0.0") None 0%Q (1 # 2)%Q batch_size Scenario.fresh.

End Flaky.

(** ** [dataup/evaluation/runner.py]: the answers to the ingestion calls *)

(** Every ingestion call of [calls], made after the calls [base], was
    accepted by the service. *)
Fixpoint accepted (dataup : DataUpService) (base calls : list call) : Prop :=
  match calls with
  | [] => True
  | c :: calls' =>
      match c with
      | CallIngest evaluation_id frames =>
          evaluations_ingest_batch dataup base evaluation_id frames = Ok ()
      | _ => True
      end
      ∧ accepted dataup (base ++ [c]) calls'
  end.

(** The last call of [calls] is an ingestion that the service refused
    with [e]; those before it were accepted. *)
Definition refused_last (dataup : DataUpService) (base calls : list call) (e : exn)
  : Prop :=
  ∃ before evaluation_id frames,
    calls = before ++ [CallIngest evaluation_id frames]
    ∧ accepted dataup base before
    ∧ evaluations_ingest_batch dataup (base ++ before) evaluation_id frames = Raise e.

(** A computation that a refused ingestion ends, with the exception of
    the refusal. *)
Definition checked (dataup : DataUpService) {A} (m : run A) : Prop :=
  ∀ w, ∃ calls,
    log (m w).2 = log w ++ calls
    ∧ (accepted dataup (log w) calls
       ∨ ∃ e, refused_last dataup (log w) calls e ∧ (m w).1 = Raised e).

(** The run from the world [w] reaches its second pass, the loops over
    the jobs and their frames, and the loops end with the outcome [o] in
    the world [w']. *)
Definition loops_end (dataup : DataUpService) (cvat : CVATServer) (provider : Inference)
    (fuel : nat) (task_id : Z) (agent_id agent_name agent_version : option string)
    (job_ids : option (list Z)) (conf iou : Q) (batch_size : Z) (w : world)
    (o : outcome Runner.progress) (w' : world) : Prop :=
  ∃ total_frames evaluation evaluation_id,
    Runner.first_pass cvat fuel task_id (list_to_set <$> job_ids) w
    = (Returned total_frames, w)
    ∧ new_EvaluationCreate agent_id task_id agent_name agent_version total_frames
      = Ok evaluation
    ∧ evaluations_create dataup (log w) evaluation = Ok evaluation_id
    ∧ Runner.second_pass dataup cvat provider fuel task_id (list_to_set <$> job_ids)
        evaluation_id total_frames batch_size conf iou
        (record_call (CallCreate evaluation) w) = (o, w').

(** The way a run ends when its loops end with [o] without returning. *)
Definition stopped {A B} (o : outcome A) : outcome B :=
  match o with
  | Raised e => Raised e
  | _ => OutOfFuel
  end.

(** * Properties *)

(** ** Numbers *)

Section Numbers.

Lemma Qltb_lt (x y : Q) : Qltb x y = true ↔ (x < y)%Q.
Proof.
  unfold Qltb. rewrite negb_true_iff, <- not_true_iff_false, Qle_bool_iff.
  split; [apply Qnot_le_lt | apply Qlt_not_le].
Qed.

Lemma Qltb_ge (x y : Q) : Qltb x y = false ↔ (y <= x)%Q.
Proof.
  unfold Qltb. rewrite negb_false_iff, Qle_bool_iff. reflexivity.
Qed.

(** [int] is the floor of a non-negative number and the ceiling of a
    negative one. *)
Lemma py_int_floor (x : Q) : (0 <= x)%Q → py_int x = Qfloor x.
Proof.
  destruct x as [n d]. unfold Qle, py_int. simpl. intros Hn.
  apply Z.quot_div_nonneg; lia.
Qed.

Lemma py_int_ceiling (x : Q) : (x <= 0)%Q → py_int x = Qceiling x.
Proof.
  destruct x as [n d]. unfold Qle, py_int, Qceiling. simpl. intros Hn.
  replace n with (- - n) at 1 by lia.
  rewrite Z.quot_opp_l by lia. f_equal.
  apply Z.quot_div_nonneg; lia.
Qed.

Lemma py_int_proper (x y : Q) : (x == y)%Q → py_int x = py_int y.
Proof.
  intros Heq. destruct (Qlt_le_dec x 0) as [Hneg | Hpos].
  - rewrite !py_int_ceiling.
    + apply Qceiling_comp, Heq.
    + rewrite <- Heq. apply Qlt_le_weak, Hneg.
    + apply Qlt_le_weak, Hneg.
  - rewrite !py_int_floor.
    + apply Qfloor_comp, Heq.
    + rewrite <- Heq. exact Hpos.
    + exact Hpos.
Qed.



Lemma py_min_Qmin (a b : Q) : (py_min a b == Qmin a b)%Q.
Proof.
  unfold py_min. destruct (Qltb b a) eqn:Hlt.
  - apply Qltb_lt in Hlt. symmetry. apply Q.min_r, Qlt_le_weak, Hlt.
  - apply Qltb_ge in Hlt. symmetry. apply Q.min_l, Hlt.
Qed.

Lemma py_extent_Qabs (a b : Q) : (py_max a b - py_min a b == Qabs (b - a))%Q.
Proof.
  unfold py_max, py_min.
  destruct (Qltb a b) eqn:Hab; destruct (Qltb b a) eqn:Hba.
  - apply Qltb_lt in Hab, Hba. exfalso.
    apply (Qlt_irrefl a). eapply Qlt_trans; eassumption.
  - apply Qltb_lt in Hab. rewrite Qabs_pos; [reflexivity |].
    unfold Qminus. rewrite <- Qle_minus_iff. apply Qlt_le_weak, Hab.
  - apply Qltb_lt in Hba. rewrite Qabs_Qminus, Qabs_pos; [reflexivity |].
    unfold Qminus. rewrite <- Qle_minus_iff. apply Qlt_le_weak, Hba.
  - apply Qltb_ge in Hab, Hba.
    assert (a == b)%Q as Heq by (apply Qle_antisym; assumption).
    rewrite Heq, Qabs_pos; [reflexivity |].
    unfold Qminus. rewrite <- Qle_minus_iff. apply Qle_refl.
Qed.

Lemma py_int_nonneg (x : Q) : (0 <= x)%Q → 0 ≤ py_int x.
Proof.
  destruct x as [n d]. unfold Qle, py_int. simpl. intros Hn.
  apply Z.quot_pos; lia.
Qed.

Lemma py_int_ge_1 (x : Q) : (1 <= x)%Q → 1 ≤ py_int x.
Proof.
  intros Hx. rewrite py_int_floor by lra.
  exact (Qfloor_resp_le 1 x Hx).
Qed.


Lemma py_min_cases (a b : Q) : py_min a b = a ∨ py_min a b = b.
Proof. unfold py_min. destruct (Qltb b a); auto. Qed.

Lemma py_max_cases (a b : Q) : py_max a b = a ∨ py_max a b = b.
Proof. unfold py_max. destruct (Qltb a b); auto. Qed.

Lemma py_min_le (a b : Q) : (py_min a b <= a)%Q ∧ (py_min a b <= b)%Q.
Proof.
  unfold py_min. destruct (Qltb b a) eqn:Hlt.
  - apply Qltb_lt in Hlt. lra.
  - apply Qltb_ge in Hlt. lra.
Qed.

Lemma py_max_ge (a b : Q) : (a <= py_max a b)%Q ∧ (b <= py_max a b)%Q.
Proof.
  unfold py_max. destruct (Qltb a b) eqn:Hlt.
  - apply Qltb_lt in Hlt. lra.
  - apply Qltb_ge in Hlt. lra.
Qed.

(** [min] and [max] of a list return one of its elements, at most and at
    least every element. *)
Lemma py_min_list_pick (P : Q → Prop) (x : Q) (l : list Q) :
  P x → Forall P l → P (py_min_list x l).
Proof.
  intros Hx Hl. revert x Hx. unfold py_min_list.
  induction Hl as [| y l Hy _ IH]; intros x Hx; simpl; [done |].
  apply IH. by destruct (py_min_cases x y) as [-> | ->].
Qed.

Lemma py_max_list_pick (P : Q → Prop) (x : Q) (l : list Q) :
  P x → Forall P l → P (py_max_list x l).
Proof.
  intros Hx Hl. revert x Hx. unfold py_max_list.
  induction Hl as [| y l Hy _ IH]; intros x Hx; simpl; [done |].
  apply IH. by destruct (py_max_cases x y) as [-> | ->].
Qed.

Lemma py_min_list_le (x : Q) (l : list Q) :
  (py_min_list x l <= x)%Q ∧ Forall (λ y, py_min_list x l <= y)%Q l.
Proof.
  unfold py_min_list. revert x. induction l as [| y l IH]; intros x; simpl.
  - split; [lra | constructor].
  - destruct (IH (py_min x y)) as [Hle Hall]. destruct (py_min_le x y).
    split; [lra |]. constructor; [lra | done].
Qed.

Lemma py_max_list_ge (x : Q) (l : list Q) :
  (x <= py_max_list x l)%Q ∧ Forall (λ y, y <= py_max_list x l)%Q l.
Proof.
  unfold py_max_list. revert x. induction l as [| y l IH]; intros x; simpl.
  - split; [lra | constructor].
  - destruct (IH (py_max x y)) as [Hle Hall]. destruct (py_max_ge x y).
    split; [lra |]. constructor; [lra | done].
Qed.

End Numbers.

(** ** Doubles *)

Section Doubles.
Local Open Scope Q_scope.

Lemma pow2_pos (k : Z) : 0 < 2 ^ k.
Proof. by apply Qpower_0_lt. Qed.

Lemma pow2_plus (a b : Z) : 2 ^ (a + b) == 2 ^ a * 2 ^ b.
Proof. by apply Qpower_plus. Qed.

Lemma pow2_succ (a : Z) : 2 ^ (a + 1) == 2 * 2 ^ a.
Proof. rewrite pow2_plus. change (2 ^ 1) with 2. ring. Qed.

Lemma pow2_le (a b : Z) : (a ≤ b)%Z → 2 ^ a <= 2 ^ b.
Proof. intros. by apply Qpower_le_compat_l. Qed.

Lemma pow2_lt (a b : Z) : (a < b)%Z → 2 ^ a < 2 ^ b.
Proof. intros. by apply Qpower_lt_compat_l. Qed.

Lemma pow2_inject (a : Z) : (0 ≤ a)%Z → inject_Z (2 ^ a) == 2 ^ a.
Proof. intros. by rewrite Zpower_Qpower. Qed.

(** [binade q] is the exponent of the power of two at or below [q]. *)
Lemma binade_spec (q : Q) :
  0 < q → 2 ^ binade q <= q ∧ q < 2 ^ (binade q + 1).
Proof.
  intros Hq. destruct q as [n d]. unfold binade. cbn [Qnum Qden].
  assert (0 < n)%Z as Hn by (unfold Qlt in Hq; simpl in Hq; lia).
  set (a := Z.log2 n). set (b := Z.log2 (Z.pos d)).
  destruct (Z.log2_spec n Hn) as [Hn1 Hn2].
  destruct (Z.log2_spec (Z.pos d) eq_refl) as [Hd1 Hd2].
  fold a in Hn1, Hn2. fold b in Hd1, Hd2.
  assert (0 ≤ a)%Z as Ha by apply Z.log2_nonneg.
  assert (0 ≤ b)%Z as Hb by apply Z.log2_nonneg.
  rewrite Zle_Qle, pow2_inject in Hn1, Hd1 by done.
  rewrite Zlt_Qlt, pow2_inject in Hn2, Hd2 by lia.
  replace (Z.succ a) with (a + 1)%Z in Hn2 by lia.
  replace (Z.succ b) with (b + 1)%Z in Hd2 by lia.
  rewrite pow2_succ in Hn2, Hd2.
  assert (n # d == inject_Z n / inject_Z (Z.pos d)) as Hdiv by apply Qmake_Qdiv.
  assert (0 < inject_Z (Z.pos d)) as Hdpos by (unfold Qlt; simpl; lia).
  assert ((n # d) * inject_Z (Z.pos d) == inject_Z n) as Hmul.
  { rewrite Hdiv. field. intros H. rewrite H in Hdpos. by apply Qlt_irrefl in Hdpos. }
  pose proof (pow2_pos a) as Hpa. pose proof (pow2_pos b) as Hpb.
  pose proof (pow2_pos (a - b)) as Hpe.
  assert (2 ^ (a - b) * 2 ^ b == 2 ^ a) as He.
  { rewrite <- pow2_plus. by replace (a - b + b)%Z with a by lia. }
  assert (2 ^ (a - b - 1 + 1) == 2 ^ (a - b)) as He1
    by (by replace (a - b - 1 + 1)%Z with (a - b)%Z by lia).
  pose proof (pow2_succ (a - b)) as He2.
  pose proof (pow2_succ (a - b - 1)) as He3. rewrite He1 in He3.
  pose proof (pow2_pos (a - b - 1)) as Hpe1.
  destruct (Qle_bool (2 ^ (a - b)) (n # d)) eqn:Hle.
  - apply Qle_bool_iff in Hle. split; [done |].
    rewrite He2. apply (Qmult_lt_r _ _ (inject_Z (Z.pos d))); [done |].
    rewrite Hmul. nra.
  - assert (n # d < 2 ^ (a - b)) as Hlt.
    { apply Qnot_le_lt. intros H%Qle_bool_iff. congruence. }
    rewrite He1. split; [| done].
    apply (Qmult_le_r _ _ (inject_Z (Z.pos d))); [done |].
    rewrite Hmul. nra.
Qed.

Lemma inject_Z_succ (z : Z) : inject_Z (z + 1) == inject_Z z + 1.
Proof. by rewrite inject_Z_plus. Qed.

Lemma inject_Z_pred (z : Z) : inject_Z (z - 1) == inject_Z z - 1.
Proof. unfold Z.sub. by rewrite inject_Z_plus. Qed.

#[local] Instance round_half_even_proper : Proper (Qeq ==> eq) round_half_even.
Proof.
  intros x y Hxy. unfold round_half_even.
  rewrite (Qfloor_comp _ _ Hxy).
  assert (x - inject_Z (Qfloor y) == y - inject_Z (Qfloor y)) as H by (by rewrite Hxy).
  by rewrite (Qcompare_comp _ _ H _ _ (reflexivity (1 # 2))).
Qed.

Lemma round_half_even_floor (x : Q) :
  round_half_even x = Qfloor x ∨ round_half_even x = (Qfloor x + 1)%Z.
Proof.
  unfold round_half_even.
  destruct (x - inject_Z (Qfloor x) ?= 1 # 2); [destruct (Z.even _) | |]; auto.
Qed.

Lemma Qfloor_lower (x : Q) (z : Z) : inject_Z z <= x → (z ≤ Qfloor x)%Z.
Proof. intros H%Qfloor_resp_le. by rewrite Qfloor_Z in H. Qed.

Lemma Qfloor_upper (x : Q) (z : Z) : x < inject_Z (z + 1) → (Qfloor x ≤ z)%Z.
Proof.
  intros H. pose proof (Qfloor_le x) as Hf.
  assert (inject_Z (Qfloor x) < inject_Z (z + 1)) as Hlt by (eapply Qle_lt_trans; eauto).
  rewrite <- Zlt_Qlt in Hlt. lia.
Qed.

Lemma round_half_even_lower (x : Q) (z : Z) :
  inject_Z z <= x → (z ≤ round_half_even x)%Z.
Proof.
  intros H%Qfloor_lower. destruct (round_half_even_floor x); lia.
Qed.

(** Below [z + 1/2] the nearest integer is at most [z]. *)
Lemma round_half_even_below (x : Q) (z : Z) :
  x < inject_Z z + (1 # 2) → (round_half_even x ≤ z)%Z.
Proof.
  intros H.
  assert (Qfloor x ≤ z)%Z as Hf.
  { apply Qfloor_upper. rewrite inject_Z_succ. lra. }
  destruct (decide (Qfloor x = z)) as [Heq | Hne].
  - unfold round_half_even. rewrite Heq.
    destruct (Qcompare_spec (x - inject_Z z) (1 # 2)); [lra | done | lra].
  - destruct (round_half_even_floor x); lia.
Qed.

Lemma round_half_even_upper (x : Q) (z : Z) :
  x <= inject_Z z → (round_half_even x ≤ z)%Z.
Proof. intros H. apply round_half_even_below. lra. Qed.

(** From [z - 1/2] on, for an even [z], the nearest integer is at least
    [z]. *)
Lemma round_half_even_above (x : Q) (z : Z) :
  Z.even z = true → inject_Z z - (1 # 2) <= x → (z ≤ round_half_even x)%Z.
Proof.
  intros Heven H.
  assert (z - 1 ≤ Qfloor x)%Z as Hf.
  { apply Qfloor_lower. rewrite inject_Z_pred. lra. }
  destruct (decide (Qfloor x = z - 1)%Z) as [Heq | Hne].
  - unfold round_half_even. rewrite Heq.
    pose proof (inject_Z_pred z) as Hz.
    assert (Z.even (z - 1) = false) as ->.
    { rewrite Z.even_sub, Heven. reflexivity. }
    destruct (Qcompare_spec (x - inject_Z (z - 1)) (1 # 2)); try lia.
    rewrite Hz in *. lra.
  - destruct (round_half_even_floor x); lia.
Qed.

Lemma round_half_even_inject_Z (z : Z) : round_half_even (inject_Z z) = z.
Proof.
  apply Z.le_antisymm.
  - apply round_half_even_upper. lra.
  - apply round_half_even_lower. lra.
Qed.



Lemma pow2_lt_inv (a b : Z) : 2 ^ a < 2 ^ b → (a < b)%Z.
Proof.
  intros H. destruct (decide (a < b)%Z) as [| Hge]; [done |].
  assert (2 ^ b <= 2 ^ a) by (apply pow2_le; lia). lra.
Qed.

Lemma binade_unique (q : Q) (e : Z) : 2 ^ e <= q → q < 2 ^ (e + 1) → binade q = e.
Proof.
  intros Hlo Hhi.
  assert (0 < q) as Hq by (pose proof (pow2_pos e); lra).
  destruct (binade_spec q Hq) as [Hlo' Hhi'].
  assert (e < binade q + 1)%Z by (apply pow2_lt_inv; lra).
  assert (binade q < e + 1)%Z by (apply pow2_lt_inv; lra).
  lia.
Qed.

Lemma ulp_pos (a : Q) : 0 < ulp a.
Proof. apply pow2_pos. Qed.

(** The multiples of [ulp a] around [a] bound the double nearest to it. *)
Lemma nearest_double_lower (a : Q) (k : Z) :
  inject_Z k * ulp a <= a → inject_Z k * ulp a <= nearest_double a.
Proof.
  intros H. pose proof (ulp_pos a) as Hu. unfold nearest_double.
  apply Qmult_le_r; [done |]. rewrite <- Zle_Qle.
  apply round_half_even_lower. by apply Qle_shift_div_l.
Qed.

Lemma nearest_double_upper (a : Q) (k : Z) :
  a <= inject_Z k * ulp a → nearest_double a <= inject_Z k * ulp a.
Proof.
  intros H. pose proof (ulp_pos a) as Hu. unfold nearest_double.
  apply Qmult_le_r; [done |]. rewrite <- Zle_Qle.
  apply round_half_even_upper. by apply Qle_shift_div_r.
Qed.

Lemma nearest_double_below (a : Q) (k : Z) :
  a < (inject_Z k + (1 # 2)) * ulp a → nearest_double a <= inject_Z k * ulp a.
Proof.
  intros H. pose proof (ulp_pos a) as Hu. unfold nearest_double.
  apply Qmult_le_r; [done |]. rewrite <- Zle_Qle.
  apply round_half_even_below. by apply Qlt_shift_div_r.
Qed.

Lemma nearest_double_above (a : Q) (k : Z) :
  Z.even k = true →
  (inject_Z k - (1 # 2)) * ulp a <= a → inject_Z k * ulp a <= nearest_double a.
Proof.
  intros Hk H. pose proof (ulp_pos a) as Hu. unfold nearest_double.
  apply Qmult_le_r; [done |]. rewrite <- Zle_Qle.
  apply round_half_even_above; [done |]. by apply Qle_shift_div_l.
Qed.

Lemma nearest_double_zero (a : Q) : a == 0 → nearest_double a == 0.
Proof.
  intros Ha. unfold nearest_double.
  assert (a / ulp a == inject_Z 0) as ->.
  { unfold Qdiv. rewrite (Qmult_comp _ _ Ha _ _ (reflexivity (/ ulp a))). ring. }
  rewrite round_half_even_inject_Z. ring.
Qed.


(** The exponent [e] of the spacing [2^(e - 52)] around a positive [a]. *)
Lemma ulp_binade (a : Q) (b : Z) :
  2 ^ b <= a → a < 2 ^ (b + 1) → (-1022 ≤ b)%Z →
  ulp a = 2 ^ (b - 52) ∧ 2 ^ b == inject_Z (2 ^ 52) * ulp a.
Proof.
  intros Hlo Hhi Hb. unfold ulp. rewrite (binade_unique a b Hlo Hhi).
  rewrite Z.max_l by done. split; [done |].
  rewrite pow2_inject by done. rewrite <- pow2_plus. by replace (52 + (b - 52))%Z with b by lia.
Qed.


Lemma nearest_double_nonneg (a : Q) : 0 <= a → 0 <= nearest_double a.
Proof.
  intros Ha. pose proof (nearest_double_lower a 0) as H.
  assert (inject_Z 0 * ulp a == 0) as H0 by ring. rewrite H0 in H. by apply H.
Qed.

(** From [1 - 2^-54] on, halfway between one and the double below it,
    the nearest double is at least one. *)
Lemma nearest_double_ge_1 (a : Q) : 1 - 2 ^ (-54) <= a → 1 <= nearest_double a.
Proof.
  intros Ha.
  assert (2 ^ (-54) == 1 # 2 ^ 54) as H54 by reflexivity.
  destruct (Qlt_le_dec a 1) as [Hlt | Hge].
  - destruct (ulp_binade a (-1)) as [Hulp _].
    { change (2 ^ (-1)) with (1 # 2). lra. }
    { change (2 ^ (-1 + 1)) with 1. done. }
    { done. }
    pose proof (nearest_double_above a (2 ^ 53) eq_refl) as Hnear.
    rewrite Hulp in Hnear. change (2 ^ (-1 - 52)) with (2 ^ (-53)) in Hnear.
    assert ((inject_Z (2 ^ 53) - (1 # 2)) * 2 ^ (-53) == 1 - 2 ^ (-54)) as Heq1
      by reflexivity.
    assert (inject_Z (2 ^ 53) * 2 ^ (-53) == 1) as Heq2 by reflexivity.
    rewrite Heq1, Heq2 in Hnear. by apply Hnear.
  - destruct (binade_spec a) as [Hlo Hhi]; [lra |].
    assert (0 ≤ binade a)%Z as Hb.
    { assert (2 ^ 0 < 2 ^ (binade a + 1)) as H%pow2_lt_inv by (change (2 ^ 0) with 1; lra).
      lia. }
    destruct (ulp_binade a (binade a)) as [_ Hgrid]; [done | done | lia |].
    pose proof (nearest_double_lower a (2 ^ 52)) as Hnear.
    rewrite <- Hgrid in Hnear. specialize (Hnear Hlo).
    assert (2 ^ 0 <= 2 ^ binade a) as H1 by (by apply pow2_le).
    change (2 ^ 0) with 1 in H1. lra.
Qed.


Lemma nearest_double_overflow (a : Q) :
  0 <= a → (2 ^ 1024 <= nearest_double a ↔ overflow_threshold <= a).
Proof.
  intros Ha0.
  assert (2 ^ 1023 < overflow_threshold) as Hthreshold by reflexivity.
  assert (overflow_threshold < 2 ^ 1024) as Hthreshold' by reflexivity.
  split.
  - intros Hover. apply Qnot_lt_le. intros Ha. apply (Qle_not_lt _ _ Hover).
    destruct (Qlt_le_dec 0 a) as [Hpos | Hzero].
    2: { rewrite nearest_double_zero by lra. apply pow2_pos. }
    destruct (binade_spec a Hpos) as [Hlo Hhi].
    assert (binade a < 1024)%Z as Hb by (apply pow2_lt_inv; lra).
    set (e := Z.max (binade a) (-1022)).
    assert (ulp a = 2 ^ (e - 52)) as Hulp by reflexivity.
    assert (a < 2 ^ (e + 1)) as Hhi'.
    { eapply Qlt_le_trans; [exact Hhi |]. apply pow2_le. lia. }
    destruct (decide (e = 1023)%Z) as [He | He].
    + pose proof (nearest_double_below a (2 ^ 53 - 1)) as Hnear.
      rewrite Hulp, He in Hnear. change (2 ^ (1023 - 52)) with (2 ^ 971) in Hnear.
      assert ((inject_Z (2 ^ 53 - 1) + (1 # 2)) * 2 ^ 971 == overflow_threshold) as Heq1
        by reflexivity.
      assert (inject_Z (2 ^ 53 - 1) * 2 ^ 971 < 2 ^ 1024) as Heq2 by reflexivity.
      rewrite Heq1 in Hnear. specialize (Hnear Ha). lra.
    + pose proof (nearest_double_upper a (2 ^ 53)) as Hnear.
      assert (inject_Z (2 ^ 53) * ulp a == 2 ^ (e + 1)) as Hgrid.
      { rewrite Hulp, pow2_inject by done. rewrite <- pow2_plus.
        by replace (53 + (e - 52))%Z with (e + 1)%Z by lia. }
      rewrite Hgrid in Hnear.
      assert (2 ^ (e + 1) <= 2 ^ 1023) as Hbelow by (apply pow2_le; lia).
      specialize (Hnear ltac:(lra)). lra.
  - intros Ha.
    destruct (binade_spec a) as [Hlo Hhi]; [pose proof (pow2_pos 1023); lra |].
    assert (1023 ≤ binade a)%Z as Hb.
    { assert (2 ^ 1023 < 2 ^ (binade a + 1)) as H%pow2_lt_inv by lra. lia. }
    destruct (ulp_binade a (binade a)) as [Hulp Hgrid]; [done | done | lia |].
    destruct (decide (binade a = 1023)%Z) as [He | He].
    + pose proof (nearest_double_above a (2 ^ 53) eq_refl) as Hnear.
      rewrite Hulp, He in Hnear. change (2 ^ (1023 - 52)) with (2 ^ 971) in Hnear.
      assert ((inject_Z (2 ^ 53) - (1 # 2)) * 2 ^ 971 == overflow_threshold) as Heq1
        by reflexivity.
      assert (inject_Z (2 ^ 53) * 2 ^ 971 == 2 ^ 1024) as Heq2 by reflexivity.
      rewrite Heq1, Heq2 in Hnear. by apply Hnear.
    + pose proof (nearest_double_lower a (2 ^ 52)) as Hnear.
      rewrite <- Hgrid in Hnear. specialize (Hnear Hlo).
      assert (2 ^ 1024 <= 2 ^ binade a) by (apply pow2_le; lia). lra.
Qed.


(** What [float_round] returns, sign and magnitude. *)
Lemma float_round_cases (q : Q) :
  (float_round q = None ∧ 2 ^ 1024 <= nearest_double (Qabs (Qred q)))
  ∨ (∃ r, float_round q = Some r
          ∧ nearest_double (Qabs (Qred q)) < 2 ^ 1024
          ∧ Qabs r == nearest_double (Qabs (Qred q))
          ∧ Qabs (r - q) == Qabs (nearest_double (Qabs (Qred q)) - Qabs (Qred q))
          ∧ (0 <= q → 0 <= r) ∧ (q <= 0 → r <= 0)).
Proof.
  unfold float_round. pose proof (Qred_correct q) as Hred.
  set (a := Qabs (Qred q)).
  pose proof (nearest_double_nonneg a (Qabs_nonneg _)) as Hnear.
  destruct (Qle_bool (2 ^ 1024) (nearest_double a)) eqn:Hover.
  { left. split; [done |]. by apply Qle_bool_iff. }
  right. eexists. split; [done |].
  assert (nearest_double a < 2 ^ 1024) as Hlt.
  { apply Qnot_le_lt. intros H%Qle_bool_iff. congruence. }
  split; [done |].
  match goal with |- context [Qred ?x] => pose proof (Qred_correct x) as Hr; set (r := Qred x) in * end.
  destruct (Qle_bool 0 (Qred q)) eqn:Hsign.
  - apply Qle_bool_iff in Hsign.
    assert (a == q) as Ha by (unfold a; rewrite Qabs_pos by done; done).
    rewrite Hr. split_and!.
    + by apply Qabs_pos.
    + set (n := nearest_double a). apply Qabs_wd. by rewrite Ha.
    + done.
    + intros Hq. rewrite Hred in Hsign.
      assert (a == 0) as Ha0 by lra. rewrite (nearest_double_zero a Ha0). lra.
  - assert (Qred q < 0) as Hneg.
    { apply Qnot_le_lt. intros H%Qle_bool_iff. congruence. }
    assert (a == - q) as Ha by (unfold a; rewrite Qabs_neg by lra; by rewrite Hred).
    rewrite Hr. split_and!.
    + rewrite Qabs_opp. by apply Qabs_pos.
    + set (n := nearest_double a). rewrite <- (Qabs_opp (n - a)).
      apply Qabs_wd. rewrite Ha. ring.
    + intros Hq. rewrite Hred in Hneg. lra.
    + lra.
Qed.


Lemma float_round_proper (q q' : Q) : q == q' → float_round q = float_round q'.
Proof. intros H. unfold float_round. by rewrite (Qred_complete _ _ H). Qed.

Lemma Qabs_Qred (q : Q) : Qabs (Qred q) == Qabs q.
Proof. apply Qabs_wd, Qred_correct. Qed.

(** A result overflows exactly from [overflow_threshold] on. *)
Lemma float_round_overflow (q : Q) :
  float_round q = None ↔ overflow_threshold <= Qabs q.
Proof.
  rewrite <- Qabs_Qred, <- nearest_double_overflow by apply Qabs_nonneg.
  destruct (float_round_cases q) as [[-> H] | (r & -> & H & _)].
  - done.
  - split; [done |]. intros H'. lra.
Qed.

Lemma float_round_finite (q : Q) :
  Qabs q < overflow_threshold → ∃ r, float_round q = Some r.
Proof.
  intros Hq. destruct (float_round q) as [r |] eqn:Hr; [by exists r |].
  apply float_round_overflow in Hr. lra.
Qed.

(** Rounding keeps the sign. *)
Lemma float_round_nonneg (q r : Q) : 0 <= q → float_round q = Some r → 0 <= r.
Proof.
  intros Hq Hr.
  destruct (float_round_cases q) as [[? _] | (r' & ? & _ & _ & _ & H & _)];
    simplify_eq. by apply H.
Qed.

Lemma float_round_ge_1 (q r : Q) :
  1 - 2 ^ (-54) <= q → float_round q = Some r → 1 <= r.
Proof.
  intros Hq Hr.
  assert (0 < 1 - 2 ^ (-54)) as H54 by reflexivity.
  destruct (float_round_cases q) as [[? _] | (r' & ? & _ & Habs & _ & H & _)];
    simplify_eq.
  rewrite <- (Qabs_pos r) by (apply H; lra). rewrite Habs.
  apply nearest_double_ge_1. rewrite Qabs_Qred, Qabs_pos; lra.
Qed.






End Doubles.

(** ** [shape_to_label] *)

(** Membership of a constructor in a list of other constructors. *)
Ltac absurd_member H :=
  repeat (apply elem_of_cons in H as [H | H]; [discriminate H |]);
  by apply elem_of_nil in H.

Section ShapeToLabel.
Import Utils.

Lemma bind_ok {A B} (r : result A) (k : A → result B) (b : B) :
  r ≫= k = Ok b ↔ ∃ a, r = Ok a ∧ k a = Ok b.
Proof.
  destruct r as [a | e]; simpl.
  - split; [eauto | intros (a' & [= <-] & H); exact H].
  - split; [discriminate | intros (a' & [=] & _)].
Qed.

Lemma comprehension_ok {A B} (f : A → result B) (l : list A) :
  Forall (λ a, ∃ b, f a = Ok b) l →
  ∃ bs, comprehension f l = Ok bs ∧ length bs = length l.
Proof.
  induction 1 as [| a l [b Hb] _ (bs & Hbs & Hlen)]; simpl.
  - exists []. done.
  - exists (b :: bs). rewrite Hb. simpl. rewrite Hbs. simpl. by rewrite Hlen.
Qed.

Lemma comprehension_Forall2 {A B} (f : A → result B) (l : list A) (bs : list B) :
  comprehension f l = Ok bs ↔ Forall2 (λ a b, f a = Ok b) l bs.
Proof.
  revert bs. induction l as [| a l IH]; intros bs; simpl.
  - split; [intros [= <-]; constructor | by intros ->%Forall2_nil_inv_l].
  - split.
    + intros (b & Hb & (bs' & Hbs & [= <-])%bind_ok)%bind_ok.
      constructor; [done | by apply IH].
    + intros (b & bs' & Hb & Hbs & ->)%Forall2_cons_inv_l.
      rewrite Hb. simpl. apply IH in Hbs. by rewrite Hbs.
Qed.

Lemma comprehension_raise {A B} (f : A → result B) (l1 l2 : list A) (a : A) (e : exn) :
  Forall (λ x, ∃ b, f x = Ok b) l1 → f a = Raise e →
  comprehension f (l1 ++ a :: l2) = Raise e.
Proof.
  intros Hok Ha. induction Hok as [| x l1 [b Hb] _ IH]; simpl.
  - by rewrite Ha.
  - by rewrite Hb; simpl; rewrite IH.
Qed.

Lemma py_index_Ok {A} (l : list A) (i : nat) (a : A) :
  py_index l i = Ok a ↔ l !! i = Some a.
Proof.
  unfold py_index. destruct (l !! i); split; (by intros [= ->]) || done.
Qed.

Lemma py_index_ok {A} (l : list A) (i : nat) :
  (i < length l)%nat → ∃ a, py_index l i = Ok a.
Proof.
  intros Hi. unfold py_index.
  destruct (lookup_lt_is_Some_2 l i Hi) as [a ->]. eauto.
Qed.

Lemma py_index_raise {A} (l : list A) (i : nat) :
  (length l ≤ i)%nat → py_index l i = Raise IndexError.
Proof. intros Hi. unfold py_index. by rewrite lookup_ge_None_2. Qed.

Lemma comprehension_index {A} (P : A → Prop) (pts : list A) (h : nat → nat)
    (idx : list nat) (xs : list A) :
  Forall P pts →
  comprehension (λ i, py_index pts (h i)) idx = Ok xs → Forall P xs.
Proof.
  intros HP. revert xs. induction idx as [| i idx IH]; simpl; intros xs Hxs.
  - injection Hxs as <-. constructor.
  - apply bind_ok in Hxs as (x & Hx & Hxs).
    apply bind_ok in Hxs as (xs' & Hxs' & [= <-]).
    constructor; [| by apply IH].
    unfold py_index in Hx. destruct (pts !! h i) eqn:Hl; [| discriminate].
    injection Hx as <-. eapply Forall_lookup_1; eassumption.
Qed.

(** What a comprehension over indices collects. *)
Lemma comprehension_lookup {A} (pts : list A) (h : nat → nat) (idx : list nat)
    (xs : list A) :
  comprehension (λ i, py_index pts (h i)) idx = Ok xs →
  ∀ x, x ∈ xs ↔ ∃ i, i ∈ idx ∧ pts !! h i = Some x.
Proof.
  intros Hxs%comprehension_Forall2 x. split.
  - intros (k & Hk)%list_elem_of_lookup.
    destruct (Forall2_lookup_r _ _ _ _ _ Hxs Hk) as (i & Hi & Hx%py_index_Ok).
    exists i. split; [by eapply list_elem_of_lookup_2 | done].
  - intros (i & (k & Hk)%list_elem_of_lookup & Hx).
    destruct (Forall2_lookup_l _ _ _ _ _ Hxs Hk) as (x' & Hx' & Hi%py_index_Ok).
    rewrite Hx in Hi. injection Hi as <-. by eapply list_elem_of_lookup_2.
Qed.

Lemma range_step2_spec (n i : nat) :
  i ∈ range_step2 n ↔ ∃ k, i = (2 * k)%nat ∧ (i < n)%nat.
Proof.
  unfold range_step2. rewrite list_elem_of_fmap.
  pose proof (Nat.div_mod_eq (n + 1) 2) as Hdiv.
  pose proof (Nat.mod_upper_bound (n + 1) 2) as Hmod.
  split.
  - intros (k & -> & Hk). apply elem_of_seq in Hk. exists k. split; [done | lia].
  - intros (k & -> & Hk). exists k. split; [done |]. apply elem_of_seq. lia.
Qed.

Lemma range_step2_length (n : nat) : length (range_step2 n) = ((n + 1) / 2)%nat.
Proof. unfold range_step2. by rewrite length_fmap, length_seq. Qed.

Lemma range_step2_odd (m : nat) :
  range_step2 (2 * m + 1) = ((λ k, 2 * k)%nat <$> seq 0 m) ++ [(2 * m)%nat].
Proof.
  unfold range_step2.
  replace ((2 * m + 1 + 1) / 2)%nat with (S m).
  - by rewrite seq_S, fmap_app.
  - apply (Nat.div_unique _ _ _ 0); lia.
Qed.



Lemma coords_ok (pts : list Q) (h : nat → nat) (idx : list nat) :
  (∀ i, i ∈ idx → h i < length pts)%nat →
  ∃ xs, comprehension (λ i, py_index pts (h i)) idx = Ok xs.
Proof.
  intros Hidx.
  destruct (comprehension_ok (λ i, py_index pts (h i)) idx) as (xs & Hxs & _).
  - apply Forall_forall. intros i Hi. apply py_index_ok, Hidx, Hi.
  - eauto.
Qed.

(** With an odd number of coordinates the last x has no y. *)
Lemma pairs_raise (pts : list Q) (m : nat) :
  length pts = (2 * m + 1)%nat →
  polygon_points pts = Raise IndexError
  ∧ comprehension (λ i, py_index pts (i + 1)) (range_step2 (length pts))
    = Raise IndexError.
Proof.
  intros Hlen. unfold polygon_points. rewrite Hlen, range_step2_odd. split.
  - apply comprehension_raise.
    + apply Forall_forall. intros i (k & -> & Hk%elem_of_seq)%list_elem_of_fmap.
      destruct (py_index_ok pts (2 * k)) as [x ->]; [lia |].
      destruct (py_index_ok pts (2 * k + 1)) as [y ->]; [lia |]. simpl. eauto.
    + destruct (py_index_ok pts (2 * m)) as [x ->]; [lia |]. simpl.
      by rewrite py_index_raise by lia.
  - apply comprehension_raise.
    + apply Forall_forall. intros i (k & -> & Hk%elem_of_seq)%list_elem_of_fmap.
      apply py_index_ok. lia.
    + apply py_index_raise. lia.
Qed.

Lemma geometry_odd_raise (t : ShapeType) (pts : list Q) (m : nat) :
  length pts = (2 * m + 1)%nat →
  ((t = POLYGON ∧ 6 ≤ length pts) ∨ (t = POLYLINE ∧ 4 ≤ length pts)
   ∨ (t = POINTS ∧ 2 ≤ length pts))%nat →
  geometry t pts = Raise IndexError.
Proof.
  intros Hlen Hcase. destruct (pairs_raise pts m Hlen) as [Hpoly Hys].
  destruct Hcase as [[-> Hn] | [[-> Hn] | [-> Hn]]]; simpl;
    rewrite bool_decide_eq_true_2 by done.
  - unfold polygon_geometry. by rewrite Hpoly.
  - unfold polygon_geometry. by rewrite Hpoly.
  - destruct (coords_ok pts id (range_step2 (length pts))) as [xs Hxs].
    { intros i (k & -> & Hk)%range_step2_spec. simpl. lia. }
    simpl in Hxs. by rewrite Hxs, Hys.
Qed.

Lemma ragged_cases (t : ShapeType) (pts : list Q) :
  ragged t pts ↔
  Nat.Odd (length pts)
  ∧ ((t = POLYGON ∧ 6 ≤ length pts) ∨ (t = POLYLINE ∧ 4 ≤ length pts)
     ∨ (t = POINTS ∧ 2 ≤ length pts))%nat.
Proof.
  unfold ragged. split.
  - intros (Ht & Hlen & Hodd). split; [done |].
    destruct t; simpl in Hlen; try (exfalso; absurd_member Ht); auto.
  - intros (Hodd & [[-> Hn] | [[-> Hn] | [-> Hn]]]);
      (split_and!; [| done | done]); repeat constructor.
Qed.





(** Only the type string can fail the reading of the fields. *)
Lemma read_fields_raise shape e :
  read_fields shape = Raise e → e = ValueError.
Proof.
  destruct shape as [d | s]; simpl; [| done].
  unfold ShapeType_of. repeat case_decide; simpl; by intros [= <-].
Qed.

End ShapeToLabel.

Section Boxes.
Import Utils.

Lemma overflow_threshold_pos : (0 < overflow_threshold)%Q.
Proof. reflexivity. Qed.

Lemma float_round_Qabs_overflow (d : Q) :
  float_round (Qabs d) = None ↔ (overflow_threshold <= Qabs d)%Q.
Proof.
  rewrite float_round_overflow.
  assert (Qabs (Qabs d) == Qabs d)%Q as -> by apply Qabs_pos, Qabs_nonneg.
  done.
Qed.

Lemma float_sub_overflow (x y : Q) : float_sub x y = None ↔ too_far y x.
Proof. apply float_round_overflow. Qed.


Lemma corner_extent (a b : Q) :
  float_sub (py_max a b) (py_min a b) = float_round (Qabs (b - a)).
Proof. apply float_round_proper, py_extent_Qabs. Qed.

Lemma corner_box_spec (x1 y1 x2 y2 : Q) :
  corner_box x1 y1 x2 y2
  = (width ← py_int_of (float_round (Qabs (x2 - x1)));
     height ← py_int_of (float_round (Qabs (y2 - y1)));
     Ok {| bb_x := py_int (Qmin x1 x2);
           bb_y := py_int (Qmin y1 y2);
           bb_width := width;
           bb_height := height |}).
Proof.
  unfold corner_box. rewrite !corner_extent.
  by rewrite (py_int_proper _ _ (py_min_Qmin x1 x2)),
    (py_int_proper _ _ (py_min_Qmin y1 y2)).
Qed.

(** The box of two corners: an extent that is no double raises, and
    otherwise the box holds the truncated corner and rounded extents. *)
Lemma corner_box_cases (x1 y1 x2 y2 : Q) :
  (corner_box x1 y1 x2 y2 = Raise OverflowError
   ∧ (too_far x1 x2 ∨ too_far y1 y2))
  ∨ (∃ w h, float_round (Qabs (x2 - x1)) = Some w
            ∧ float_round (Qabs (y2 - y1)) = Some h
            ∧ ¬ too_far x1 x2 ∧ ¬ too_far y1 y2
            ∧ corner_box x1 y1 x2 y2
              = Ok {| bb_x := py_int (Qmin x1 x2);
                      bb_y := py_int (Qmin y1 y2);
                      bb_width := py_int w;
                      bb_height := py_int h |}).
Proof.
  rewrite corner_box_spec. unfold too_far.
  destruct (float_round (Qabs (x2 - x1))) as [w |] eqn:Hw.
  2: { left. split; [done |]. left. by apply float_round_Qabs_overflow. }
  destruct (float_round (Qabs (y2 - y1))) as [h |] eqn:Hh.
  2: { left. split; [done |]. right. by apply float_round_Qabs_overflow. }
  right. exists w, h. split_and!; try done.
  - intros H%float_round_Qabs_overflow. congruence.
  - intros H%float_round_Qabs_overflow. congruence.
Qed.







(** One axis of a point cloud: the extent between the least and the
    greatest coordinate, floored at one when it is zero. *)
Lemma axis_extent (x0 : Q) (xs : list Q) :
  let lo := py_min_list x0 xs in
  let hi := py_max_list x0 xs in
  let extent := if Qltb lo hi then py_int_of (float_sub hi lo) else Ok 1 in
  (extent = Raise OverflowError
   ∧ ∃ x y, x ∈ x0 :: xs ∧ y ∈ x0 :: xs ∧ too_far x y)
  ∨ (∃ w, extent = Ok w
          ∧ ¬ (∃ x y, x ∈ x0 :: xs ∧ y ∈ x0 :: xs ∧ too_far x y)
          ∧ 0 ≤ w
          ∧ (Forall integral (x0 :: xs) → 1 ≤ w)).
Proof.
  intros lo hi extent.
  assert (lo ∈ x0 :: xs) as Hlo_in.
  { apply (py_min_list_pick (λ x, x ∈ x0 :: xs)); [by left |].
    apply Forall_forall. intros y Hy. by right. }
  assert (hi ∈ x0 :: xs) as Hhi_in.
  { apply (py_max_list_pick (λ x, x ∈ x0 :: xs)); [by left |].
    apply Forall_forall. intros y Hy. by right. }
  assert (∀ y, y ∈ x0 :: xs → (lo <= y <= hi)%Q) as Hbounds.
  { destruct (py_min_list_le x0 xs) as [Hlo0 Hlo].
    destruct (py_max_list_ge x0 xs) as [Hhi0 Hhi].
    rewrite Forall_forall in Hlo, Hhi.
    intros y [-> | Hy]%elem_of_cons; [done |].
    split; [by apply Hlo | by apply Hhi]. }
  assert (∀ x y, x ∈ x0 :: xs → y ∈ x0 :: xs → (Qabs (y - x) <= hi - lo)%Q) as Hspan.
  { intros x y Hx%Hbounds Hy%Hbounds. apply Qabs_Qle_condition. lra. }
  pose proof overflow_threshold_pos as Hpos.
  subst extent. destruct (Qltb lo hi) eqn:Hlt.
  - apply Qltb_lt in Hlt.
    assert (Qabs (hi - lo) == hi - lo)%Q as Habs by (apply Qabs_pos; lra).
    destruct (float_sub hi lo) as [w |] eqn:Hw.
    + right. exists (py_int w). split_and!; [done | | |].
      * intros (x & y & Hx & Hy & Hfar). specialize (Hspan x y Hx Hy).
        assert (float_sub hi lo = None); [| congruence].
        apply float_sub_overflow. unfold too_far in *. lra.
      * apply py_int_nonneg. eapply float_round_nonneg; [| exact Hw]. lra.
      * intros Hint. rewrite Forall_forall in Hint.
        destruct (Hint _ Hlo_in) as [m Hm]. destruct (Hint _ Hhi_in) as [n Hn].
        apply py_int_ge_1. eapply float_round_ge_1; [| exact Hw].
        assert (0 < 2 ^ (-54))%Q by reflexivity.
        rewrite Hm, Hn, <- Zlt_Qlt in Hlt.
        assert (inject_Z (m + 1) <= inject_Z n)%Q as Hle by (rewrite <- Zle_Qle; lia).
        rewrite inject_Z_plus in Hle. change (inject_Z 1) with 1%Q in Hle. lra.
    + left. split; [done |]. exists lo, hi. split_and!; try done.
      by apply float_sub_overflow.
  - apply Qltb_ge in Hlt. right. exists 1. split_and!; [done | | lia | done].
    intros (x & y & Hx & Hy & Hfar). specialize (Hspan x y Hx Hy).
    unfold too_far in Hfar. lra.
Qed.

(** The box of a point cloud with a coordinate on each axis. *)
Lemma extent_box_cases (xs ys : list Q) :
  xs ≠ [] → ys ≠ [] →
  (extent_box xs ys = Raise OverflowError
   ∧ ((∃ x y, x ∈ xs ∧ y ∈ xs ∧ too_far x y)
      ∨ (∃ x y, x ∈ ys ∧ y ∈ ys ∧ too_far x y)))
  ∨ (∃ b, extent_box xs ys = Ok (Some b)
          ∧ ¬ (∃ x y, x ∈ xs ∧ y ∈ xs ∧ too_far x y)
          ∧ ¬ (∃ x y, x ∈ ys ∧ y ∈ ys ∧ too_far x y)
          ∧ 0 ≤ bb_width b ∧ 0 ≤ bb_height b
          ∧ (Forall integral xs → 1 ≤ bb_width b)
          ∧ (Forall integral ys → 1 ≤ bb_height b)).
Proof.
  destruct xs as [| x0 xs]; [done |]. destruct ys as [| y0 ys]; [done |].
  intros _ _. unfold extent_box.
  destruct (axis_extent x0 xs) as [[-> Hfar] | (w & -> & Hx & Hw0 & Hw1)].
  { left. split; [done | by left]. }
  destruct (axis_extent y0 ys) as [[-> Hfar] | (h & -> & Hy & Hh0 & Hh1)].
  { left. split; [done | by right]. }
  right. eexists. split; [done |]. done.
Qed.

(** The coordinates at the even and at the odd positions. *)
Lemma even_position (i : nat) : (i mod 2 = 0)%nat ↔ ∃ k, i = (2 * k)%nat.
Proof.
  split.
  - intros Hi. exists (i / 2)%nat. pose proof (Nat.div_mod_eq i 2). lia.
  - intros [k ->]. rewrite Nat.mul_comm. apply Nat.Div0.mod_mul.
Qed.

Lemma odd_position (i : nat) : (i mod 2 = 1)%nat ↔ ∃ k, i = (2 * k + 1)%nat.
Proof.
  split.
  - intros Hi. exists (i / 2)%nat. pose proof (Nat.div_mod_eq i 2). lia.
  - intros [k ->]. rewrite Nat.add_comm, Nat.mul_comm. by rewrite Nat.Div0.mod_add.
Qed.

Lemma spread_overflows_axes (pts xs ys : list Q) :
  (∀ x, x ∈ xs ↔ ∃ k, pts !! (2 * k)%nat = Some x) →
  (∀ y, y ∈ ys ↔ ∃ k, pts !! (2 * k + 1)%nat = Some y) →
  spread_overflows pts
  ↔ (∃ x y, x ∈ xs ∧ y ∈ xs ∧ too_far x y) ∨ (∃ x y, x ∈ ys ∧ y ∈ ys ∧ too_far x y).
Proof.
  intros Hxs Hys. unfold spread_overflows. split.
  - intros (i & j & x & y & Hi & Hj & Hpar & Hfar).
    pose proof (Nat.mod_upper_bound i 2 ltac:(lia)) as Hmod.
    destruct (decide (i mod 2 = 0)%nat) as [Hi0 | Hi1].
    + left. exists x, y. split_and!; [| | done].
      * apply Hxs. apply even_position in Hi0 as [k ->]. eauto.
      * apply Hxs. rewrite Hi0 in Hpar. symmetry in Hpar.
        apply even_position in Hpar as [k ->]. eauto.
    + right. exists x, y. split_and!; [| | done].
      * apply Hys. assert (i mod 2 = 1)%nat as [k ->]%odd_position by lia. eauto.
      * apply Hys. assert (j mod 2 = 1)%nat as [k ->]%odd_position by lia. eauto.
  - intros [(x & y & [k Hx]%Hxs & [k' Hy]%Hxs & Hfar)
           | (x & y & [k Hx]%Hys & [k' Hy]%Hys & Hfar)].
    + exists (2 * k)%nat, (2 * k')%nat, x, y. split_and!; try done.
      transitivity 0%nat; [| symmetry]; apply even_position; eauto.
    + exists (2 * k + 1)%nat, (2 * k' + 1)%nat, x, y. split_and!; try done.
      transitivity 1%nat; [| symmetry]; apply odd_position; eauto.
Qed.

(** The branches that take the coordinates as a point cloud: [idx1] and
    [idx2] are the positions of the x's that are read and of those whose
    y is read. *)
Lemma cloud_cases (pts : list Q) (idx1 idx2 : list nat) :
  (∀ i, i ∈ idx1 ↔ ∃ k, i = (2 * k)%nat ∧ (i < length pts)%nat) →
  (∀ i, i ∈ idx2 ↔ ∃ k, i = (2 * k)%nat ∧ (i + 1 < length pts)%nat) →
  (2 ≤ length pts)%nat →
  let cloud :=
    x_coords ← comprehension (λ i, py_index pts i) idx1;
    y_coords ← comprehension (λ i, py_index pts (i + 1)) idx2;
    bbox ← extent_box x_coords y_coords;
    Ok (bbox, @None Polygon) in
  (cloud = Raise OverflowError ∧ spread_overflows pts)
  ∨ (∃ b, cloud = Ok (Some b, None)
          ∧ ¬ spread_overflows pts
          ∧ 0 ≤ bb_width b ∧ 0 ≤ bb_height b
          ∧ (Forall integral pts → 1 ≤ bb_width b ∧ 1 ≤ bb_height b)).
Proof.
  intros Hidx1 Hidx2 Hlen cloud. subst cloud.
  destruct (coords_ok pts id idx1) as [xs Hxs].
  { intros i (k & _ & Hi)%Hidx1. exact Hi. }
  destruct (coords_ok pts (λ i, i + 1)%nat idx2) as [ys Hys].
  { intros i (k & _ & Hi)%Hidx2. exact Hi. }
  pose proof (comprehension_lookup _ _ _ _ Hxs) as Hx_in.
  pose proof (comprehension_lookup _ _ _ _ Hys) as Hy_in.
  simpl in Hxs. rewrite Hxs. simpl. rewrite Hys. simpl.
  assert (∀ x, x ∈ xs ↔ ∃ k, pts !! (2 * k)%nat = Some x) as Hevens.
  { intros x. rewrite Hx_in. split.
    - intros (i & (k & -> & _)%Hidx1 & Hx). eauto.
    - intros (k & Hx). exists (2 * k)%nat. split; [| done].
      apply Hidx1. exists k. split; [done |]. by eapply lookup_lt_Some. }
  assert (∀ y, y ∈ ys ↔ ∃ k, pts !! (2 * k + 1)%nat = Some y) as Hodds.
  { intros y. rewrite Hy_in. split.
    - intros (i & (k & -> & _)%Hidx2 & Hy). eauto.
    - intros (k & Hy). exists (2 * k)%nat. split; [| done].
      apply Hidx2. exists k. split; [done |]. by eapply lookup_lt_Some. }
  assert (xs ≠ []) as Hxs_ne.
  { destruct (lookup_lt_is_Some_2 pts 0) as [x Hx]; [lia |].
    assert (x ∈ xs) as Hin by (apply Hevens; by exists 0%nat).
    intros ->. by apply elem_of_nil in Hin. }
  assert (ys ≠ []) as Hys_ne.
  { destruct (lookup_lt_is_Some_2 pts 1) as [y Hy]; [lia |].
    assert (y ∈ ys) as Hin by (apply Hodds; by exists 0%nat).
    intros ->. by apply elem_of_nil in Hin. }
  pose proof (spread_overflows_axes pts xs ys Hevens Hodds) as Hspread.
  destruct (extent_box_cases xs ys Hxs_ne Hys_ne)
    as [[-> Hfar] | (b & -> & Hx & Hy & Hw0 & Hh0 & Hw1 & Hh1)]; simpl.
  - left. split; [done | by apply Hspread].
  - right. exists b. split_and!; try done.
    + rewrite Hspread. by intros [? | ?].
    + intros Hint. split.
      * apply Hw1. apply (comprehension_index integral pts id idx1); done.
      * apply Hh1.
        apply (comprehension_index integral pts (λ i, i + 1)%nat idx2); done.
Qed.

End Boxes.
Section Geometry.
Import Utils.

(** The four branches that read the coordinates as a point cloud. *)
Lemma cloud_branch (t : ShapeType) (pts : list Q) :
  t ∈ [POINTS; CUBOID; SKELETON; MASK] →
  (least_count t ≤ length pts)%nat →
  (geometry t pts = Raise IndexError ∧ ragged t pts)
  ∨ (geometry t pts = Raise OverflowError ∧ ¬ ragged t pts ∧ spread_overflows pts)
  ∨ (∃ b, geometry t pts = Ok (Some b, None)
          ∧ ¬ ragged t pts ∧ ¬ spread_overflows pts
          ∧ 0 ≤ bb_width b ∧ 0 ≤ bb_height b
          ∧ (Forall integral pts → 1 ≤ bb_width b ∧ 1 ≤ bb_height b)).
Proof.
  intros Ht Hlen.
  assert (t ≠ POINTS → ¬ ragged t pts) as Hother.
  { intros Hne (_ & [[? _] | [[? _] | [? _]]])%ragged_cases; subst;
      try done; absurd_member Ht. }
  assert (∀ i, i ∈ filter (λ i, i < length pts)%nat (range_step2 (length pts))
               ↔ ∃ k, i = (2 * k)%nat ∧ (i < length pts)%nat) as Hidx1.
  { intros i. rewrite list_elem_of_filter, range_step2_spec.
    split; [by intros [_ ?] |]. intros (k & -> & Hk). split; [done |].
    exists k. done. }
  assert (∀ i, i ∈ filter (λ i, i + 1 < length pts)%nat (range_step2 (length pts))
               ↔ ∃ k, i = (2 * k)%nat ∧ (i + 1 < length pts)%nat) as Hidx2.
  { intros i. rewrite list_elem_of_filter, range_step2_spec.
    split; [intros [Hi (k & -> & _)]; by exists k |].
    intros (k & -> & Hk). split; [done |]. exists k. split; [done | lia]. }
  destruct t; simpl in Hlen; try (exfalso; absurd_member Ht).
  - destruct (Nat.Even_or_Odd (length pts)) as [[m Hm] | [m Hm]].
    + assert (¬ ragged POINTS pts) as Hnot.
      { intros (_ & _ & [m' Hm']). lia. }
      pose proof (cloud_cases pts (range_step2 (length pts))
                    (range_step2 (length pts))) as Hcloud.
      simpl in Hcloud. simpl. rewrite bool_decide_eq_true_2 by done.
      destruct Hcloud as [[-> ?] | (b & -> & ?)]; try done.
      * apply range_step2_spec.
      * intros i. rewrite range_step2_spec. split.
        -- intros (k & -> & Hk). exists k. split; [done | lia].
        -- intros (k & -> & Hk). exists k. split; [done | lia].
      * right; left. done.
      * right; right. exists b. done.
    + left. split.
      * apply (geometry_odd_raise _ _ m Hm). right; right. done.
      * apply ragged_cases. split; [by exists m |]. right; right. done.
  - pose proof (cloud_cases pts _ _ Hidx1 Hidx2 ltac:(lia)) as Hcloud.
    simpl in Hcloud. simpl. rewrite bool_decide_eq_true_2 by done.
    destruct Hcloud as [[-> ?] | (b & -> & Hbox)].
    + right; left. split_and!; [done | by apply Hother | done].
    + right; right. exists b. split; [done |]. split; [by apply Hother | exact Hbox].
  - pose proof (cloud_cases pts _ _ Hidx1 Hidx2 ltac:(lia)) as Hcloud.
    simpl in Hcloud. simpl. rewrite bool_decide_eq_true_2 by done.
    destruct Hcloud as [[-> ?] | (b & -> & Hbox)].
    + right; left. split_and!; [done | by apply Hother | done].
    + right; right. exists b. split; [done |]. split; [by apply Hother | exact Hbox].
  - pose proof (cloud_cases pts _ _ Hidx1 Hidx2 ltac:(lia)) as Hcloud.
    simpl in Hcloud. simpl. rewrite bool_decide_eq_true_2 by done.
    destruct Hcloud as [[-> ?] | (b & -> & Hbox)].
    + right; left. split_and!; [done | by apply Hother | done].
    + right; right. exists b. split; [done |]. split; [by apply Hother | exact Hbox].
Qed.

(** Below its least count a branch assigns nothing. *)
Lemma geometry_short (t : ShapeType) (pts : list Q) :
  (length pts < least_count t)%nat → geometry t pts = Ok (None, None).
Proof.
  intros Hlen. destruct t; simpl in *;
    try (rewrite bool_decide_eq_false_2 by lia; done);
    by destruct pts as [| ? [| ? [| ? [| ? ?]]]]; simpl in *; try lia.
Qed.



End Geometry.



(** The width is [int()] of the rounded extent, not of the exact one: the
    rectangle [2^-60, 0, 3, 0.25] has width 3, its extent 3 - 2^-60
    rounding to 3.0, and the rectangle [1, 0, 2^60, 5] has width 2^60,
    one more than its extent. *)
Lemma rectangle_rounded_extent :
  (∃ l, Utils.shape_to_label
          (Scenario.dict_shape "rectangle" [1 # 2 ^ 60; 0; 3; 1 # 4]%Q)
          Scenario.car_labels 1%Q = Ok l
        ∧ bbox l = {| bb_x := 0; bb_y := 0; bb_width := 3; bb_height := 0 |})
  ∧ (∃ l, Utils.shape_to_label
            (Scenario.dict_shape "rectangle" [1; 0; inject_Z (2 ^ 60); 5]%Q)
            Scenario.car_labels 1%Q = Ok l
          ∧ bbox l = {| bb_x := 1; bb_y := 0; bb_width := 2 ^ 60; bb_height := 5 |}).
Proof.
  split; (eexists; split; [vm_compute; reflexivity | reflexivity]).
Qed.




(** The corner of an ellipse is [int()] of the rounded difference: the
    ellipse [3, 3, 2^-60, 1] has x = 3, the difference 3 - 2^-60 rounding
    to 3.0; and an ellipse whose doubled radius is no finite double
    raises [OverflowError]. *)
Lemma ellipse_rounded_corner :
  (∃ l, Utils.shape_to_label
          (Scenario.dict_shape "ellipse" [3; 3; 1 # 2 ^ 60; 1]%Q)
          Scenario.car_labels 1%Q = Ok l
        ∧ bbox l = {| bb_x := 3; bb_y := 2; bb_width := 0; bb_height := 2 |})
  ∧ Utils.shape_to_label
      (Scenario.dict_shape "ellipse" [0; 0; inject_Z (2 ^ 1023); 1]%Q)
      Scenario.car_labels 1%Q = Raise OverflowError.
Proof.
  split; [eexists; split; [vm_compute; reflexivity | reflexivity] |].
  vm_compute; reflexivity.
Qed.

Section TypeStrings.
Import Utils.


End TypeStrings.




(** Odd counts below the least count of the branch return the fallback
    box. *)
Lemma short_odd_counts_return :
  Forall (λ shape, ∃ l, Utils.shape_to_label shape Scenario.car_labels 1%Q = Ok l
                        ∧ bbox l = Utils.unit_box)
    [Scenario.dict_shape "polygon" [1; 2; 3; 4; 5]%Q;
     Scenario.dict_shape "polyline" [1; 2; 3]%Q;
     Scenario.dict_shape "points" [1]%Q].
Proof.
  repeat constructor; (eexists; split; [vm_compute; reflexivity | reflexivity]).
Qed.




(** An extent below one does not always give the width 0: the rectangle
    [2^-60, 0, 1, 5] has the extent 1 - 2^-60, which the subtraction
    rounds to 1.0, and its width is 1. *)
Lemma rectangle_width_rounds_up :
  ∃ l, Utils.shape_to_label
         (Scenario.dict_shape "rectangle" [1 # 2 ^ 60; 0; 1; 5]%Q)
         Scenario.car_labels 1%Q = Ok l
       ∧ bbox l = {| bb_x := 0; bb_y := 0; bb_width := 1; bb_height := 5 |}
       ∧ (Qabs (1 - (1 # 2 ^ 60)) < 1)%Q.
Proof.
  eexists. split; [vm_compute; reflexivity |]. split; reflexivity.
Qed.

(** ** [iter_frames] *)

Section IterFrames.
Context (cvat : CVATServer).

Lemma StronglySorted_sublist {A} (R : relation A) (l k : list A) :
  l `sublist_of` k → StronglySorted R k → StronglySorted R l.
Proof.
  induction 1 as [| x l k Hsub IH | x l k Hsub IH];
    intros Hk; [done | |].
  - apply StronglySorted_cons in Hk as [Hx Hk].
    apply StronglySorted_cons. split; [| by apply IH].
    apply Forall_forall. intros y Hy.
    eapply Forall_forall; [exact Hx |]. eapply elem_of_sublist; eassumption.
  - apply StronglySorted_cons in Hk as [_ Hk]. by apply IH.
Qed.

Lemma prefix_is_sublist {A} (l k : list A) : l `prefix_of` k → l `sublist_of` k.
Proof. intros [k' ->]. by apply sublist_inserts_r. Qed.

Lemma py_range_sorted (start stop : Z) : StronglySorted Z.lt (py_range start stop).
Proof.
  unfold py_range. generalize (stop - start). intros len.
  destruct (decide (len ≤ 0)) as [Hle | Hpos]; [rewrite seqZ_nil by done; constructor |].
  rewrite <- (Z2Nat.id len) by lia. generalize (Z.to_nat len). clear. intros n.
  revert start. induction n as [| n IH]; intros start.
  - rewrite seqZ_nil by done. constructor.
  - rewrite seqZ_cons by lia. apply StronglySorted_cons. split.
    + apply Forall_seqZ. lia.
    + replace (Z.pred (Z.of_nat (S n))) with (Z.of_nat n) by lia. apply IH.
Qed.

Lemma elem_of_py_range (start stop k : Z) :
  k ∈ py_range start stop ↔ start ≤ k < stop.
Proof. unfold py_range. rewrite elem_of_seqZ. lia. Qed.

Lemma live_frames_spec (job : Job) (meta : DataMetaInfo) (frame_id : Z) :
  frame_id ∈ Jobs.live_frames job meta
  ↔ (frame_id ∉ deleted_frames meta)
    ∧ start_frame job ≤ frame_id ≤ stop_frame job.
Proof.
  unfold Jobs.live_frames. rewrite list_elem_of_filter, elem_of_py_range.
  intuition lia.
Qed.

Lemma live_frames_sorted (job : Job) (meta : DataMetaInfo) :
  StronglySorted Z.lt (Jobs.live_frames job meta).
Proof.
  eapply StronglySorted_sublist; [apply sublist_filter | apply py_range_sorted].
Qed.

Lemma get_frame_id (job_id frame_id : Z) (frame_image : FrameImage) :
  Jobs.get_frame cvat job_id frame_id = Ok frame_image →
  fi_frame_id frame_image = frame_id.
Proof.
  unfold Jobs.get_frame. intros ([content ctype] & _ & [= <-])%bind_ok. done.
Qed.

(** The frames fetched are the frames asked for, up to the first failure. *)
Lemma fetched_frames_prefix (job_id : Z) (frame_ids : list Z) :
  (fi_frame_id <$> yields (gen_of_results (Jobs.get_frame cvat job_id <$> frame_ids)))
  `prefix_of` frame_ids.
Proof.
  induction frame_ids as [| frame_id frame_ids IH]; simpl; [done |].
  destruct (Jobs.get_frame cvat job_id frame_id) as [frame_image | e] eqn:Hget; simpl.
  - rewrite (get_frame_id _ _ _ Hget). by apply prefix_cons.
  - apply prefix_nil.
Qed.

(** A generator that ran to its end has yielded every value. *)
Lemma gen_of_results_finished {A} (l : list (result A)) :
  gen_end (gen_of_results l) = Finished →
  Ok <$> yields (gen_of_results l) = l.
Proof.
  induction l as [| [a | e] l IH]; simpl; intros Hend; [done | | done].
  f_equal. by apply IH.
Qed.

Lemma fetched_frames_all (job_id : Z) (frame_ids : list Z) :
  gen_end (gen_of_results (Jobs.get_frame cvat job_id <$> frame_ids)) = Finished →
  fi_frame_id <$> yields (gen_of_results (Jobs.get_frame cvat job_id <$> frame_ids))
  = frame_ids.
Proof.
  induction frame_ids as [| frame_id frame_ids IH]; simpl; [done |].
  destruct (Jobs.get_frame cvat job_id frame_id) as [frame_image | e] eqn:Hget;
    simpl; [| done].
  intros Hend. f_equal; [by eapply get_frame_id | by apply IH].
Qed.

End IterFrames.

(** C4: the frames [iter_frames] yields for a job are never deleted
    frames, lie in the inclusive range from [start_frame] to [stop_frame],
    and come in strictly ascending order of frame id. *)
Theorem iter_frames_ascending (cvat : CVATServer) (job_id : Z) (job : Job)
    (meta : DataMetaInfo) :
  jobs_get cvat job_id = Ok job →
  jobs_get_data_meta cvat job_id = Ok meta →
  (∀ frame_image, frame_image ∈ yields (Jobs.iter_frames cvat job_id) →
     (fi_frame_id frame_image ∉ deleted_frames meta)
     ∧ start_frame job ≤ fi_frame_id frame_image ≤ stop_frame job)
  ∧ StronglySorted Z.lt (fi_frame_id <$> yields (Jobs.iter_frames cvat job_id)).
Proof.
  intros Hjob Hmeta. unfold Jobs.iter_frames. rewrite Hjob, Hmeta.
  pose proof (fetched_frames_prefix cvat job_id (Jobs.live_frames job meta)) as Hpre.
  apply prefix_is_sublist in Hpre. split.
  - intros frame_image Hin. apply live_frames_spec.
    eapply elem_of_sublist; [| exact Hpre]. by apply list_elem_of_fmap_2.
  - eapply StronglySorted_sublist; [exact Hpre | apply live_frames_sorted].
Qed.

Lemma iter_frames_ascending_witness :
  fi_frame_id <$> yields (Jobs.iter_frames Scenario.cvat 11) = [0; 2]
  ∧ StronglySorted Z.lt (fi_frame_id <$> yields (Jobs.iter_frames Scenario.cvat 11)).
Proof.
  split; [reflexivity |].
  exact (proj2 (iter_frames_ascending Scenario.cvat 11 _ _ eq_refl eq_refl)).
Defined.

(** ** [paginate] *)

Section Paginate.
Context {T : Type} (fetch_page : option string → result (CursorPage T)).

Lemma has_next_false (page : CursorPage T) :
  has_next page = false ↔ cursor page = None ∧ next_page page = None.
Proof.
  unfold has_next. destruct (cursor page), (next_page page); simpl;
    split; (done || by intros []).
Qed.

Lemma paginate_from_chain (token : option string) (pages : list (CursorPage T)) :
  page_chain fetch_page token pages →
  ∀ fuel, (length pages ≤ fuel)%nat →
    paginate_from fuel fetch_page token
    = {| yields := concat (items <$> pages); gen_end := Finished |}.
Proof.
  induction 1 as [token page Hfetch Hc Hn
                 | token page c pages Hfetch Hc Hne _ IH
                 | token page pages Hfetch Hc Hmore _ IH];
    intros [| fuel] Hfuel; simpl in Hfuel; try lia; simpl; rewrite Hfetch.
  - assert (has_next page = false) as -> by by apply has_next_false.
    unfold gen_then. simpl. done.
  - assert (has_next page = true) as ->
      by (unfold has_next; by rewrite Hc).
    assert (cursor_or_next_page page = Some c) as ->
      by (unfold cursor_or_next_page; rewrite Hc; by rewrite decide_False).
    rewrite IH by lia. unfold gen_then. simpl. done.
  - assert (has_next page = true) as ->.
    { apply not_false_iff_true. by intros ?%has_next_false. }
    assert (cursor_or_next_page page = next_page page) as ->
      by (unfold cursor_or_next_page; by destruct Hc as [-> | ->]).
    rewrite IH by lia. unfold gen_then. simpl. done.
Qed.

End Paginate.

(** C9: when the pages the server returns, the first fetched with a null
    cursor and each next one with the continuation of the page before
    (its cursor when it has a non-empty one, its next-page URL otherwise),
    end with a page that has neither a cursor nor a next-page URL,
    [paginate] yields the items of these pages, page after page in the
    order the server gave them, each once, and stops at that page. *)
Theorem paginate_drains {T : Type} (fetch_page : option string → result (CursorPage T))
    (pages : list (CursorPage T)) (fuel : nat) :
  page_chain fetch_page None pages →
  (length pages ≤ fuel)%nat →
  paginate fuel fetch_page
  = {| yields := concat (items <$> pages); gen_end := Finished |}.
Proof. intros Hchain Hfuel. by apply paginate_from_chain. Qed.

Lemma paginate_drains_witness :
  paginate 4 Scenario.fetch_tokens
  = {| yields := [1; 2; 3; 4; 5; 6]; gen_end := Finished |}.
Proof.
  refine (paginate_drains Scenario.fetch_tokens
    [ {| items := [1; 2]; cursor := Some "c1"; next_page := Some "u1" |};
      {| items := [3]; cursor := None; next_page := Some "u2" |};
      {| items := [4; 5]; cursor := Some ""; next_page := Some "u3" |};
      {| items := [6]; cursor := None; next_page := None |} ] 4 _ (le_n 4)).
  eapply chain_cursor; [reflexivity | reflexivity | done |].
  eapply chain_next_page; [reflexivity | by left | by intros [_ ?] |].
  eapply chain_next_page; [reflexivity | by right | by intros [? _] |].
  apply chain_last; reflexivity.
Defined.

(** ** [get_annotations] *)

Section GetAnnotations.
Context (cvat : CVATServer).

Lemma extend_one (entry : option (list ShapeDict)) (d : ShapeDict) (new : list ShapeDict) :
  extend (Some (default [] entry ++ [d])) new = extend entry (d :: new).
Proof.
  destruct new as [| d' new]; simpl; [done |].
  by rewrite <- (assoc_L (++)).
Qed.

Lemma group_fold_lookup (shapes : list Shape) (m : gmap Z (list ShapeDict)) (f : Z) :
  foldl (λ frames_shapes shape,
           <[frame shape := default [] (frames_shapes !! frame shape)
                            ++ [model_dump shape]]> frames_shapes) m shapes !! f
  = extend (m !! f) (model_dump <$> filter (λ s, frame s = f) shapes).
Proof.
  revert m. induction shapes as [| s shapes IH]; intros m; simpl; [done |].
  rewrite IH. destruct (decide (frame s = f)) as [<- | Hne].
  - rewrite lookup_insert_eq, filter_cons_True by done. apply extend_one.
  - by rewrite lookup_insert_ne, filter_cons_False by done.
Qed.

(** The dict holds, for each frame with a shape, the frame's shapes in
    their order of arrival. *)
Lemma group_by_frame_lookup (shapes : list Shape) (f : Z) (ds : list ShapeDict) :
  Jobs.group_by_frame shapes !! f = Some ds
  ↔ ds ≠ [] ∧ ds = model_dump <$> filter (λ s, frame s = f) shapes.
Proof.
  unfold Jobs.group_by_frame. rewrite group_fold_lookup, lookup_empty.
  destruct (model_dump <$> filter (λ s, frame s = f) shapes) as [| d new]; simpl.
  - split; [done | by intros [? ->]].
  - split; [by intros [= <-] | by intros [_ ->]].
Qed.

#[local] Instance key_le_trans : Transitive Jobs.key_le.
Proof. intros a b c. unfold Jobs.key_le. lia. Qed.

#[local] Instance key_le_total : Total Jobs.key_le.
Proof. intros a b. unfold Jobs.key_le. lia. Qed.

Lemma sorted_items_elem (m : gmap Z (list ShapeDict)) (f : Z) (ds : list ShapeDict) :
  (f, ds) ∈ Jobs.sorted_items m ↔ m !! f = Some ds.
Proof.
  unfold Jobs.sorted_items. rewrite merge_sort_Permutation.
  apply elem_of_map_to_list.
Qed.

Lemma sorted_keys_strict (l : list (Z * list ShapeDict)) :
  StronglySorted Jobs.key_le l → NoDup l.*1 → StronglySorted Z.lt l.*1.
Proof.
  induction 1 as [| a l _ IH Hall]; simpl; intros Hnd; [constructor |].
  apply NoDup_cons in Hnd as [Hnotin Hnd].
  constructor; [by apply IH |].
  apply Forall_fmap, Forall_forall. intros b Hb. simpl.
  assert (a.1 ≤ b.1) by (eapply Forall_forall in Hall; [exact Hall | done]).
  assert (a.1 ≠ b.1).
  { intros Heq. apply Hnotin. rewrite Heq. by apply list_elem_of_fmap_2. }
  lia.
Qed.

Lemma sorted_items_keys (m : gmap Z (list ShapeDict)) :
  StronglySorted Z.lt (Jobs.sorted_items m).*1.
Proof.
  apply sorted_keys_strict.
  - apply (StronglySorted_merge_sort _).
  - unfold Jobs.sorted_items. rewrite merge_sort_Permutation.
    apply NoDup_fst_map_to_list.
Qed.

End GetAnnotations.

(** C7: once the annotations of a job are fetched, [get_annotations]
    returns; it has one entry per frame that carries a shape, in ascending
    frame order, and the labels of a frame are the labels of exactly those
    of its shapes whose conversion returns, in their order: a shape whose
    conversion raises is left out alone, and the label of every other shape
    of the frame, and of every other frame, is in the list. *)
Theorem get_annotations_skips_failed (cvat : CVATServer) (job_id : Z)
    (given : option (list CVATLabel)) (cvat_labels : list CVATLabel)
    (annotations : Annotations) :
  jobs_annotations cvat job_id = Ok annotations →
  (given = Some cvat_labels
   ∨ (given = None ∧ job_labels cvat job_id = Ok cvat_labels)) →
  ∃ frame_labels_list,
    Jobs.get_annotations cvat job_id given = Ok frame_labels_list
    ∧ StronglySorted Z.lt (fl_frame_id <$> frame_labels_list)
    ∧ (∀ frame_labels, frame_labels ∈ frame_labels_list →
         fl_job_id frame_labels = job_id
         ∧ fl_labels frame_labels
           = Jobs.convert_shapes cvat_labels
               (model_dump <$> filter (λ s, frame s = fl_frame_id frame_labels)
                                 (shapes annotations)))
    ∧ (∀ shape label, shape ∈ shapes annotations →
         Utils.shape_to_label (OfDict (model_dump shape)) cvat_labels 1%Q = Ok label →
         ∃ frame_labels, frame_labels ∈ frame_labels_list
           ∧ fl_frame_id frame_labels = frame shape
           ∧ label ∈ fl_labels frame_labels)
    ∧ (∀ shape, shape ∈ shapes annotations →
         ∃ frame_labels, frame_labels ∈ frame_labels_list
           ∧ fl_frame_id frame_labels = frame shape).
Proof.
  intros Hann Hlabels.
  set (to_entry := λ '(frame_id, ds),
         {| fl_frame_id := frame_id; fl_job_id := job_id;
            fl_labels := Jobs.convert_shapes cvat_labels ds |}).
  set (m := Jobs.group_by_frame (shapes annotations)).
  assert (Jobs.get_annotations cvat job_id given
          = Ok (to_entry <$> Jobs.sorted_items m)) as Hget.
  { unfold Jobs.get_annotations. rewrite Hann. simpl.
    destruct Hlabels as [-> | [-> ->]]; reflexivity. }
  assert (∀ s, s ∈ shapes annotations →
    to_entry (frame s, model_dump <$> filter (λ s', frame s' = frame s) (shapes annotations))
    ∈ to_entry <$> Jobs.sorted_items m) as Hentry.
  { intros s Hs. apply list_elem_of_fmap_2, sorted_items_elem, group_by_frame_lookup.
    split; [| done]. intros Hnil. apply fmap_nil_inv in Hnil.
    assert (s ∈ filter (λ s', frame s' = frame s) (shapes annotations)) as Hin
      by by apply list_elem_of_filter.
    rewrite Hnil in Hin. by apply elem_of_nil in Hin. }
  exists (to_entry <$> Jobs.sorted_items m). split_and!.
  - exact Hget.
  - rewrite <- list_fmap_compose.
    rewrite (list_fmap_ext (fl_frame_id ∘ to_entry) fst (Jobs.sorted_items m))
      by (by intros i [f ds] _).
    apply sorted_items_keys.
  - intros frame_labels ([f ds] & -> & Hin)%list_elem_of_fmap.
    apply sorted_items_elem, group_by_frame_lookup in Hin as [_ ->]. done.
  - intros s l Hs Hl. eexists. split; [apply (Hentry s Hs) |].
    split; [done |]. simpl. unfold Jobs.convert_shapes.
    apply list_elem_of_omap. exists (model_dump s). split; [| by rewrite Hl].
    apply list_elem_of_fmap_2. by apply list_elem_of_filter.
  - intros s Hs. eexists. split; [apply (Hentry s Hs) | done].
Qed.

Lemma get_annotations_skips_failed_witness :
  ∃ frame_labels_list,
    Jobs.get_annotations Scenario.cvat 11 None = Ok frame_labels_list
    ∧ (λ fl, (fl_frame_id fl, length (fl_labels fl))) <$> frame_labels_list
      = [(0, 1%nat); (2, 1%nat)].
Proof.
  destruct (get_annotations_skips_failed Scenario.cvat 11 None Scenario.car_labels
              _ eq_refl (or_intror (conj eq_refl eq_refl)))
    as (frame_labels_list & Hget & _).
  exists frame_labels_list. split; [exact Hget |].
  vm_compute in Hget. by injection Hget as <-.
Defined.

(** ** The runner *)

Section RunMonad.

Lemma bind_returned {A B} (m : run A) (k : A → run B) (w w' : world) (b : B) :
  (m ≫= k) w = (Returned b, w')
  ↔ ∃ a w1, m w = (Returned a, w1) ∧ k a w1 = (Returned b, w').
Proof.
  unfold mbind, run_bind. destruct (m w) as [[a | e |] w1]; split.
  - eauto.
  - by intros (a' & w2 & [= <- <-] & Hk).
  - discriminate.
  - by intros (a' & w2 & [=] & _).
  - discriminate.
  - by intros (a' & w2 & [=] & _).
Qed.

Lemma ret_returned {A} (a b : A) (w w' : world) :
  (mret a : run A) w = (Returned b, w') ↔ b = a ∧ w' = w.
Proof. unfold mret, run_ret. split; [by intros [= <- <-] | by intros [-> ->]]. Qed.

Lemma lift_returned {A} (r : result A) (a : A) (w w' : world) :
  lift r w = (Returned a, w') ↔ r = Ok a ∧ w' = w.
Proof.
  unfold lift. destruct r as [a' | e]; split;
    (by intros [= <- <-]) || (by intros [[= ->] ->]) || done || by intros [[=] _].
Qed.

Lemma remote_returned {A} (c : call) (answer : list call → result A) (a : A)
    (w w' : world) :
  remote c answer w = (Returned a, w')
  ↔ answer (log w) = Ok a ∧ w' = record_call c w.
Proof.
  unfold remote. destruct (answer (log w)) as [a' | e]; split;
    (by intros [= <- <-]) || (by intros [[= ->] ->]) || done || by intros [[=] _].
Qed.

Lemma for_gen_returned {A S} (body : S → A → run S) (s s' : S) (g : generator A)
    (w w' : world) :
  for_gen body s g w = (Returned s', w')
  ↔ gen_end g = Finished ∧ for_each body s (yields g) w = (Returned s', w').
Proof.
  unfold for_gen. rewrite bind_returned. split.
  - intros (s1 & w1 & Hloop & Hend). destruct (gen_end g); try discriminate.
    apply ret_returned in Hend as [-> ->]. done.
  - intros [-> Hloop]. exists s', w'. split; [done |]. by apply ret_returned.
Qed.

(** *** The connections *)

Lemma keeps_ret {A} (a : A) : keeps_connections (mret a : run A).
Proof. by intros w. Qed.

Lemma keeps_bind {A B} (m : run A) (k : A → run B) :
  keeps_connections m → (∀ a, keeps_connections (k a)) →
  keeps_connections (m ≫= k).
Proof.
  intros Hm Hk w. unfold mbind, run_bind.
  specialize (Hm w). destruct (m w) as [[a | e |] w1]; simpl in *; [| done | done].
  destruct (Hk a w1) as [-> ->]. done.
Qed.

Lemma keeps_lift {A} (r : result A) : keeps_connections (lift r).
Proof. intros w. unfold lift. by destruct r. Qed.

Lemma keeps_remote {A} (c : call) (answer : list call → result A) :
  keeps_connections (remote c answer).
Proof. intros w. unfold remote. by destruct (answer (log w)). Qed.

Lemma keeps_for_each {A S} (body : S → A → run S) (s : S) (l : list A) :
  (∀ s a, keeps_connections (body s a)) → keeps_connections (for_each body s l).
Proof.
  intros Hbody. revert s. induction l as [| a l IH]; intros s; simpl.
  - apply keeps_ret.
  - apply keeps_bind; [apply Hbody | intros s'; apply IH].
Qed.

Lemma keeps_for_gen {A S} (body : S → A → run S) (s : S) (g : generator A) :
  (∀ s a, keeps_connections (body s a)) → keeps_connections (for_gen body s g).
Proof.
  intros Hbody. unfold for_gen. apply keeps_bind; [by apply keeps_for_each |].
  intros s'. by destruct (gen_end g).
Qed.

End RunMonad.

Section Connections.
Context (dataup : DataUpService) (cvat : CVATServer) (provider : Inference).
Context (fuel : nat).

Lemma keeps_first_pass task_id ids :
  keeps_connections (Runner.first_pass cvat fuel task_id ids).
Proof.
  unfold Runner.first_pass. apply keeps_for_gen. intros total [job_summary fll].
  destruct (Runner.filtered_out ids (js_id job_summary)); [apply keeps_ret |].
  apply keeps_bind; [apply keeps_lift | intros job].
  apply keeps_bind; [apply keeps_lift | intros meta]. apply keeps_ret.
Qed.

Lemma keeps_process_frame evaluation_id total batch_size conf iou job_id lookup st fi :
  keeps_connections
    (Runner.process_frame dataup provider evaluation_id total batch_size conf iou
       job_id lookup st fi).
Proof.
  unfold Runner.process_frame.
  apply keeps_bind; [apply keeps_lift | intros pil_image].
  apply keeps_bind; [apply keeps_lift | intros predictions].
  apply keeps_bind; [apply keeps_lift | intros frame_data].
  apply keeps_bind.
  { destruct (progress_callback provider); [apply keeps_remote | apply keeps_ret]. }
  intros _. case_bool_decide; [| apply keeps_ret].
  apply keeps_bind; [apply keeps_remote | intros _; apply keeps_ret].
Qed.

Lemma keeps_second_pass task_id ids evaluation_id total batch_size conf iou :
  keeps_connections
    (Runner.second_pass dataup cvat provider fuel task_id ids evaluation_id total
       batch_size conf iou).
Proof.
  unfold Runner.second_pass. apply keeps_for_gen. intros st [job_summary fll].
  destruct (Runner.filtered_out ids (js_id job_summary)); [apply keeps_ret |].
  apply keeps_for_gen. intros st' fi. apply keeps_process_frame.
Qed.

Lemma keeps_run_and_submit task_id agent_id agent_name agent_version job_ids conf iou
    batch_size :
  keeps_connections
    (Runner.run_and_submit dataup cvat provider fuel task_id agent_id agent_name
       agent_version job_ids conf iou batch_size).
Proof.
  unfold Runner.run_and_submit.
  apply keeps_bind; [apply keeps_first_pass | intros total].
  apply keeps_bind; [apply keeps_lift | intros evaluation].
  apply keeps_bind; [apply keeps_remote | intros evaluation_id].
  apply keeps_bind; [apply keeps_second_pass | intros st].
  apply keeps_bind.
  { destruct (Runner.current_batch st); [apply keeps_ret | apply keeps_remote]. }
  intros _. apply keeps_bind; [apply keeps_remote | intros _; apply keeps_remote].
Qed.

End Connections.

(** C8, as the code has it: [run_and_submit] never closes the two
    connections it was given.  However the run ends (it returns, or an
    exception leaves it), the annotation-source connection and the
    evaluation-service connection are in the state they were in when the
    run started; releasing them ([DataUpClient.close], [CVATClient.close])
    is left to the caller. *)
Theorem run_and_submit_keeps_connections (dataup : DataUpService) (cvat : CVATServer)
    (provider : Inference) (fuel : nat) (task_id : Z)
    (agent_id agent_name agent_version : option string) (job_ids : option (list Z))
    (conf iou : Q) (batch_size : Z) (w : world) :
  let exit := Runner.run_and_submit dataup cvat provider fuel task_id agent_id
                agent_name agent_version job_ids conf iou batch_size w in
  dataup_open exit.2 = dataup_open w ∧ cvat_open exit.2 = cvat_open w.
Proof. apply keeps_run_and_submit. Qed.

(** C8 as stated fails: after a run that returns, and after a run that an
    inference error leaves, both connections are still open. *)
Lemma connections_left_open :
  (∃ res w, Scenario.run_it Scenario.provider 2 = (Returned res, w)
            ∧ dataup_open w = true ∧ cvat_open w = true)
  ∧ (∃ w, Scenario.run_it Scenario.broken_provider 2 = (Raised InferenceError, w)
          ∧ dataup_open w = true ∧ cvat_open w = true).
Proof.
  split.
  - eexists _, _. split; [vm_compute; reflexivity | done].
  - eexists. split; [vm_compute; reflexivity | done].
Qed.

(** *** Reading logs *)

Section Logs.

Lemma batches_app (l k : list call) : batches (l ++ k) = batches l ++ batches k.
Proof.
  induction l as [| c l IH]; simpl; [done |].
  destruct c; simpl; by rewrite IH.
Qed.

Lemma finalize_calls_app (l k : list call) :
  finalize_calls (l ++ k) = (finalize_calls l + finalize_calls k)%nat.
Proof. unfold finalize_calls. by rewrite filter_app, length_app. Qed.

Lemma created_totals_app (l k : list call) :
  created_totals (l ++ k) = created_totals l ++ created_totals k.
Proof.
  induction l as [| c l IH]; simpl; [done |].
  destruct c; simpl; by rewrite IH.
Qed.

Lemma record_ids_app (l k : list FrameData) :
  record_ids (l ++ k) = record_ids l ++ record_ids k.
Proof. unfold record_ids. apply fmap_app. Qed.

Lemma advances_refl (batch_size : Z) (st : Runner.progress) (w : world) :
  advances batch_size st w [] st w.
Proof.
  split; [simpl; lia |]. exists []. rewrite !app_nil_r. simpl.
  split_and!; done.
Qed.

Lemma advances_trans (batch_size : Z) st w frames1 st1 w1 frames2 st2 w2 :
  advances batch_size st w frames1 st1 w1 →
  advances batch_size st1 w1 frames2 st2 w2 →
  advances batch_size st w (frames1 ++ frames2) st2 w2.
Proof.
  intros [Hn1 (c1 & Hl1 & Hf1 & Ht1 & Hi1 & Hb1)]
         [Hn2 (c2 & Hl2 & Hf2 & Ht2 & Hi2 & Hb2)].
  split; [rewrite length_app; lia |].
  exists (c1 ++ c2). split_and!.
  - by rewrite Hl2, Hl1, (assoc_L (++)).
  - rewrite finalize_calls_app. lia.
  - by rewrite created_totals_app, Ht1, Ht2.
  - rewrite batches_app, concat_app, <- (assoc_L (++)), record_ids_app, Hi2.
    by rewrite (assoc_L (++)), <- record_ids_app, Hi1, (assoc_L (++)).
  - intros Hlt. destruct (Hb1 Hlt) as [Hfull1 Hlt1].
    destruct (Hb2 Hlt1) as [Hfull2 Hlt2].
    split; [| done]. rewrite batches_app. by apply Forall_app.
Qed.

End Logs.

(** *** The second pass *)

Section SecondPass.
Context (dataup : DataUpService) (cvat : CVATServer) (provider : Inference).
Context (evaluation_id : string) (total_frames batch_size : Z) (conf iou : Q).

Lemma new_FrameData_ids job_id frame_id ground_truth predictions width height frame_data :
  new_FrameData job_id frame_id ground_truth predictions width height = Ok frame_data →
  fd_job_id frame_data = job_id ∧ fd_frame_id frame_data = frame_id.
Proof.
  unfold new_FrameData. destruct (_ && _); [| done]. by intros [= <-].
Qed.

Lemma process_frame_advances job_id lookup st frame_image w st' w' :
  Runner.process_frame dataup provider evaluation_id total_frames batch_size conf iou
    job_id lookup st frame_image w = (Returned st', w') →
  advances batch_size st w [(job_id, fi_frame_id frame_image)] st' w'.
Proof.
  unfold Runner.process_frame.
  intros (pil_image & w1 & [_ ->]%lift_returned & H)%bind_returned.
  apply bind_returned in H as (predictions & w1 & [_ ->]%lift_returned & H).
  apply bind_returned in H as (frame_data & w1 & [Hfd ->]%lift_returned & H).
  apply new_FrameData_ids in Hfd as [Hjob Hframe].
  apply bind_returned in H as ([] & w1 & Hreport & H).
  assert (∃ report, log w1 = log w ++ report ∧ batches report = []
                    ∧ finalize_calls report = 0%nat ∧ created_totals report = [])
    as (report & Hw1 & Hrb & Hrf & Hrc).
  { destruct (progress_callback provider) as [callback |].
    - apply remote_returned in Hreport as [_ ->]. by eexists [_].
    - apply ret_returned in Hreport as [_ ->]. exists []. by rewrite app_nil_r. }
  case_bool_decide as Hsize.
  - apply bind_returned in H as ([] & w2 & [_ ->]%remote_returned & [-> ->]%ret_returned).
    split; [simpl; lia |].
    exists (report ++ [CallIngest evaluation_id (Runner.current_batch st ++ [frame_data])]).
    simpl. rewrite Hw1, (assoc_L (++)), batches_app, finalize_calls_app,
      created_totals_app, Hrb, Hrf, Hrc. simpl. rewrite !app_nil_r.
    split_and!; [done | done | done | |].
    + by rewrite record_ids_app; simpl; rewrite Hjob, Hframe.
    + intros Hlt. rewrite length_app in Hsize. simpl in Hsize.
      split; [| lia]. constructor; [| constructor].
      unfold full. rewrite length_app. simpl. lia.
  - apply ret_returned in H as [-> ->].
    split; [simpl; lia |].
    exists report. simpl. rewrite Hrb. simpl.
    split_and!; [done | done | done | |].
    + by rewrite record_ids_app; simpl; rewrite Hjob, Hframe.
    + intros _. split; [constructor | lia].
Qed.

Lemma frames_loop_advances job_id lookup frame_images st w st' w' :
  for_each (Runner.process_frame dataup provider evaluation_id total_frames batch_size
              conf iou job_id lookup) st frame_images w = (Returned st', w') →
  advances batch_size st w
    ((λ frame_image, (job_id, fi_frame_id frame_image)) <$> frame_images) st' w'.
Proof.
  revert st w. induction frame_images as [| frame_image frame_images IH];
    intros st w; simpl.
  - intros [-> ->]%ret_returned. apply advances_refl.
  - intros (st1 & w1 & Hstep & Hrest)%bind_returned.
    apply (advances_trans _ _ _ [_] st1 w1).
    + by eapply process_frame_advances.
    + by apply IH.
Qed.

(** The loop over the jobs: the frames of the jobs in scope are processed,
    and the frame generator of each of these jobs ran to its end. *)
Lemma jobs_loop_advances ids jobs st w st' w' :
  for_each
    (λ st '(job_summary, frame_labels_list),
       let job_id := js_id job_summary in
       if Runner.filtered_out ids job_id then mret st
       else
         let frame_labels_lookup := Runner.labels_lookup frame_labels_list in
         for_gen
           (Runner.process_frame dataup provider evaluation_id total_frames
              batch_size conf iou job_id frame_labels_lookup)
           st (Jobs.iter_frames cvat job_id))
    st jobs w = (Returned st', w') →
  advances batch_size st w (scoped ids jobs ≫= job_frames cvat) st' w'
  ∧ ∀ job_id, job_id ∈ scoped ids jobs →
      gen_end (Jobs.iter_frames cvat job_id) = Finished.
Proof.
  revert st w. induction jobs as [| [job_summary frame_labels_list] jobs IH];
    intros st w; simpl.
  - intros [-> ->]%ret_returned. split; [apply advances_refl |].
    intros job_id Hin. by apply elem_of_nil in Hin.
  - intros (st1 & w1 & Hjob & Hrest)%bind_returned.
    destruct (IH _ _ Hrest) as [Hadv Hfin]. unfold scoped in *. simpl.
    destruct (Runner.filtered_out ids (js_id job_summary)) eqn:Hfilter.
    + apply ret_returned in Hjob as [-> ->].
      rewrite filter_cons_False by (by rewrite Hfilter). done.
    + apply for_gen_returned in Hjob as [Hend Hloop].
      rewrite filter_cons_True by done. split.
      * rewrite bind_cons. eapply advances_trans; [| exact Hadv].
        by apply frames_loop_advances in Hloop.
      * intros job_id [-> | Hin]%elem_of_cons; [done | by apply Hfin].
Qed.

Lemma second_pass_advances fuel task_id job_ids w st w' :
  Runner.second_pass dataup cvat provider fuel task_id (list_to_set <$> job_ids)
    evaluation_id total_frames batch_size conf iou w = (Returned st, w') →
  advances batch_size
    {| Runner.processed_frames := 0; Runner.current_batch := [] |} w
    (frames_in_scope cvat fuel task_id job_ids) st w'
  ∧ ∀ job_id, job_id ∈ jobs_in_scope cvat fuel task_id job_ids →
      gen_end (Jobs.iter_frames cvat job_id) = Finished.
Proof.
  unfold Runner.second_pass. intros [_ Hloop]%for_gen_returned.
  by apply jobs_loop_advances in Hloop.
Qed.

End SecondPass.

(** *** The first pass *)

Section FirstPass.
Context (cvat : CVATServer).

(** The frames left in a well-formed job are as many as the first pass
    counts. *)
Lemma live_frames_length (job : Job) (meta : DataMetaInfo) :
  well_formed_job job meta →
  Z.of_nat (length (Jobs.live_frames job meta))
  = stop_frame job - start_frame job + 1 - Z.of_nat (length (deleted_frames meta)).
Proof.
  intros (Hrange & Hnodup & Hin). unfold Jobs.live_frames.
  set (all := py_range (start_frame job) (stop_frame job + 1)).
  assert (length all = Z.to_nat (stop_frame job + 1 - start_frame job)) as Hall
    by apply length_seqZ.
  assert (filter (λ frame_id, ¬ (frame_id ∉ deleted_frames meta)) all
          ≡ₚ deleted_frames meta) as Hdeleted.
  { apply NoDup_Permutation; [apply NoDup_filter; apply NoDup_seqZ | done |].
    intros frame_id. subst all. rewrite list_elem_of_filter, elem_of_py_range. split.
    - intros [Hnn _]. by destruct (decide (frame_id ∈ deleted_frames meta)).
    - intros Hd. split; [by intros Hn | specialize (Hin _ Hd); lia]. }
  pose proof (filter_app_complement (λ frame_id, frame_id ∉ deleted_frames meta) all)
    as Hsplit.
  apply Permutation_length in Hsplit, Hdeleted.
  rewrite length_app in Hsplit. lia.
Qed.

Lemma job_frames_length (job_id : Z) (job : Job) (meta : DataMetaInfo) :
  jobs_get cvat job_id = Ok job →
  jobs_get_data_meta cvat job_id = Ok meta →
  well_formed_job job meta →
  gen_end (Jobs.iter_frames cvat job_id) = Finished →
  Z.of_nat (length (job_frames cvat job_id))
  = stop_frame job - start_frame job + 1 - Z.of_nat (length (deleted_frames meta)).
Proof.
  intros Hjob Hmeta Hwf. unfold job_frames, Jobs.iter_frames.
  rewrite Hjob, Hmeta. intros Hend.
  rewrite length_fmap, <- (length_fmap fi_frame_id), fetched_frames_all by done.
  by apply live_frames_length.
Qed.

Lemma first_pass_loop ids jobs total w total' w' :
  for_each
    (λ total_frames '(job_summary, _),
       if Runner.filtered_out ids (js_id job_summary)
       then mret total_frames
       else
         job ← lift (jobs_get cvat (js_id job_summary));
         meta ← lift (jobs_get_data_meta cvat (js_id job_summary));
         let frame_count := stop_frame job - start_frame job + 1
                            - Z.of_nat (length (deleted_frames meta)) in
         mret (total_frames + frame_count))
    total jobs w = (Returned total', w') →
  (∀ job_id job meta, job_id ∈ scoped ids jobs →
     jobs_get cvat job_id = Ok job → jobs_get_data_meta cvat job_id = Ok meta →
     well_formed_job job meta) →
  (∀ job_id, job_id ∈ scoped ids jobs →
     gen_end (Jobs.iter_frames cvat job_id) = Finished) →
  w' = w
  ∧ total' = total + Z.of_nat (length (scoped ids jobs ≫= job_frames cvat)).
Proof.
  revert total w. induction jobs as [| [job_summary frame_labels_list] jobs IH];
    intros total w; simpl.
  - intros [-> ->]%ret_returned _ _. split; [done | simpl; lia].
  - intros (total1 & w1 & Hjob & Hrest)%bind_returned. unfold scoped in *. simpl.
    destruct (Runner.filtered_out ids (js_id job_summary)) eqn:Hfilter.
    + apply ret_returned in Hjob as [-> ->].
      rewrite filter_cons_False by (by rewrite Hfilter). by apply IH.
    + rewrite filter_cons_True by done. intros Hwf Hfin.
      apply bind_returned in Hjob as (job & w2 & [Hget ->]%lift_returned & Hjob).
      apply bind_returned in Hjob as (meta & w2 & [Hmeta ->]%lift_returned & Hjob).
      apply ret_returned in Hjob as [-> ->].
      destruct (IH _ _ Hrest) as [-> ->].
      * intros job_id job' meta' Hin. apply Hwf. by right.
      * intros job_id Hin. apply Hfin. by right.
      * split; [done |]. rewrite bind_cons, length_app.
        rewrite <- (job_frames_length (js_id job_summary) job meta);
          [rewrite Nat2Z.inj_add, Z.add_assoc; reflexivity | done | done | | ].
        -- eapply Hwf; [by left | done | done].
        -- apply Hfin. by left.
Qed.

Lemma first_pass_total fuel task_id job_ids w total w' :
  Runner.first_pass cvat fuel task_id (list_to_set <$> job_ids) w = (Returned total, w') →
  (∀ job_id job meta, job_id ∈ jobs_in_scope cvat fuel task_id job_ids →
     jobs_get cvat job_id = Ok job → jobs_get_data_meta cvat job_id = Ok meta →
     well_formed_job job meta) →
  (∀ job_id, job_id ∈ jobs_in_scope cvat fuel task_id job_ids →
     gen_end (Jobs.iter_frames cvat job_id) = Finished) →
  w' = w ∧ total = Z.of_nat (length (frames_in_scope cvat fuel task_id job_ids)).
Proof.
  unfold Runner.first_pass. intros [_ Hloop]%for_gen_returned Hwf Hfin.
  by destruct (first_pass_loop _ _ _ _ _ _ Hloop Hwf Hfin) as [-> ->].
Qed.

(** The first pass reads and counts; it calls nothing on the service. *)
Lemma first_pass_silent fuel task_id ids w total w' :
  Runner.first_pass cvat fuel task_id ids w = (Returned total, w') → w' = w.
Proof.
  unfold Runner.first_pass. intros [_ Hloop]%for_gen_returned.
  revert Hloop. generalize 0. revert w.
  induction (yields (Jobs.iter_jobs_with_annotations cvat fuel task_id))
    as [| [job_summary frame_labels_list] jobs IH]; intros w t; simpl.
  - by intros [_ ->]%ret_returned.
  - intros (total1 & w1 & Hjob & Hrest)%bind_returned.
    apply IH in Hrest as ->.
    destruct (Runner.filtered_out ids (js_id job_summary)).
    + by apply ret_returned in Hjob as [_ ->].
    + apply bind_returned in Hjob as (job & w2 & [_ ->]%lift_returned & Hjob).
      apply bind_returned in Hjob as (meta & w2 & [_ ->]%lift_returned & Hjob).
      by apply ret_returned in Hjob as [_ ->].
Qed.

End FirstPass.

(** *** The whole run *)

Section WholeRun.
Context (dataup : DataUpService) (cvat : CVATServer) (provider : Inference).
Context (fuel : nat) (task_id : Z) (agent_id agent_name agent_version : option string).
Context (job_ids : option (list Z)) (conf iou : Q) (batch_size : Z).

Lemma new_EvaluationCreate_total total evaluation :
  new_EvaluationCreate agent_id task_id agent_name agent_version total = Ok evaluation →
  ec_total_frames evaluation = Some total.
Proof. unfold new_EvaluationCreate. destruct (_ && _); [| done]. by intros [= <-]. Qed.

(** What the log of a run that returns holds: one creation carrying the
    total of the first pass, the batches of the second pass and the
    remainder, one finalize call and the final read. *)
Lemma run_and_submit_log w res w' :
  Runner.run_and_submit dataup cvat provider fuel task_id agent_id agent_name
    agent_version job_ids conf iou batch_size w = (Returned res, w') →
  ∃ calls total full_batches remainder,
    log w' = log w ++ calls
    ∧ Runner.first_pass cvat fuel task_id (list_to_set <$> job_ids) w
      = (Returned total, w)
    ∧ created_totals calls = [Some total]
    ∧ finalize_calls calls = 1%nat
    ∧ batches calls = full_batches ++ match remainder with
                                      | [] => []
                                      | _ :: _ => [remainder]
                                      end
    ∧ record_ids (concat full_batches ++ remainder)
      = frames_in_scope cvat fuel task_id job_ids
    ∧ (1 ≤ batch_size →
       Forall (full batch_size) full_batches
       ∧ Z.of_nat (length remainder) < batch_size)
    ∧ (∀ job_id, job_id ∈ jobs_in_scope cvat fuel task_id job_ids →
         gen_end (Jobs.iter_frames cvat job_id) = Finished).
Proof.
  unfold Runner.run_and_submit.
  intros (total & w1 & Hfirst & H)%bind_returned.
  pose proof (first_pass_silent _ _ _ _ _ _ _ Hfirst) as ->.
  apply bind_returned in H as (evaluation & w1 & [Hcreate ->]%lift_returned & H).
  apply new_EvaluationCreate_total in Hcreate.
  apply bind_returned in H as (evaluation_id & w1 & [_ ->]%remote_returned & H).
  apply bind_returned in H as (st & w2 & Hsecond & H).
  apply second_pass_advances in Hsecond
    as [[_ (calls & Hw2 & Hfin & Hcre & Hids & Hinv)] Hended].
  apply bind_returned in H as ([] & w3 & Hflush & H).
  apply bind_returned in H as ([] & w4 & [_ ->]%remote_returned & [_ ->]%remote_returned).
  assert (∃ flush, log w3 = log w2 ++ flush
                   ∧ batches flush = match Runner.current_batch st with
                                     | [] => []
                                     | _ :: _ => [Runner.current_batch st]
                                     end
                   ∧ finalize_calls flush = 0%nat ∧ created_totals flush = [])
    as (flush & Hw3 & Hfb & Hff & Hfc).
  { destruct (Runner.current_batch st) as [| frame_data batch].
    - apply ret_returned in Hflush as [_ ->]. exists []. by rewrite app_nil_r.
    - apply remote_returned in Hflush as [_ ->]. by eexists [_]. }
  exists ([CallCreate evaluation] ++ calls ++ flush
          ++ [CallFinalize evaluation_id; CallGet evaluation_id]),
    total, (batches calls), (Runner.current_batch st).
  split_and!; [| done | | | | done | | done].
  - simpl. rewrite Hw3, Hw2. simpl. by rewrite <- !(assoc_L (++)).
  - rewrite !created_totals_app, Hcre, Hfc. simpl. by rewrite Hcreate.
  - rewrite !finalize_calls_app, Hfin, Hff. done.
  - rewrite !batches_app, Hfb. simpl. by rewrite app_nil_r.
  - intros HN. apply Hinv. simpl. lia.
Qed.

End WholeRun.

(** *** Sizes of the batches *)

Section Sizes.

Lemma full_batches_length (batch_size : Z) (l : list (list FrameData)) :
  Forall (full batch_size) l →
  Z.of_nat (length (concat l)) = Z.of_nat (length l) * batch_size
  ∧ (λ batch, Z.of_nat (length batch)) <$> l = replicate (length l) batch_size.
Proof.
  induction 1 as [| b l Hb _ [IHlen IHsizes]]; [done |].
  unfold full in Hb. split.
  - rewrite concat_cons, length_app. cbn [length]. lia.
  - rewrite fmap_cons. cbn [length replicate]. by f_equal.
Qed.

(** [k] batches of [n] and a remainder [r] below [n], for [m = k*n + r]
    frames. *)
Lemma chunk_sizes (n m r : Z) (k : nat) (sizes : list Z) :
  1 ≤ n → 0 ≤ r < n → m = Z.of_nat k * n + r →
  sizes = replicate k n ++ (if decide (r = 0) then [] else [r]) →
  Z.of_nat (length sizes) = (m + n - 1) / n
  ∧ (∀ i size, (S i < length sizes)%nat → sizes !! i = Some size → size = n)
  ∧ (0 < m → last sizes = Some (if decide (m mod n = 0) then n else m mod n))
  ∧ (m = 0 → sizes = []).
Proof.
  intros Hn Hr -> ->. destruct (decide (r = 0)) as [-> | Hpos].
  - rewrite app_nil_r, length_replicate, Z.add_0_r. split_and!.
    + apply (Z.div_unique_pos _ _ _ (n - 1)); lia.
    + intros i size _ [-> _]%lookup_replicate. done.
    + intros Hk. rewrite Z.mod_mul by lia. rewrite decide_True by done.
      destruct k as [| k]; [lia |]. by rewrite replicate_S_end, last_snoc.
    + intros Hk. assert (k = 0%nat) as -> by nia. done.
  - rewrite length_app, length_replicate. simpl. split_and!.
    + apply (Z.div_unique_pos _ _ _ (r - 1)); lia.
    + intros i size Hi Hlook. rewrite lookup_app_l in Hlook
        by (rewrite length_replicate; lia).
      by apply lookup_replicate in Hlook as [-> _].
    + intros _. rewrite last_snoc.
      assert ((Z.of_nat k * n + r) mod n = r) as ->.
      { rewrite Z.add_comm, Z_mod_plus_full. apply Z.mod_small. lia. }
      by rewrite decide_False.
    + intros Hm. nia.
Qed.

End Sizes.

(** C3: in a run with batch size N >= 1 that returns, with M the number of
    frames the traversal of the jobs in scope yields, the frame records
    ingested are those of the M frames in traversal order, in exactly
    ceil(M / N) ingestion calls; every call but the last carries exactly N
    records, the last carries M mod N records, or N when N divides M and
    M > 0; when M = 0 no ingestion call is made; and the finalize call is
    made exactly once. *)
Theorem ingestion_calls (dataup : DataUpService) (cvat : CVATServer)
    (provider : Inference) (fuel : nat) (task_id : Z)
    (agent_id agent_name agent_version : option string) (job_ids : option (list Z))
    (conf iou : Q) (batch_size : Z) (w : world) (res : EvaluationRead) (w' : world) :
  1 ≤ batch_size →
  Runner.run_and_submit dataup cvat provider fuel task_id agent_id agent_name
    agent_version job_ids conf iou batch_size w = (Returned res, w') →
  ∃ calls,
    log w' = log w ++ calls
    ∧ let M := Z.of_nat (length (frames_in_scope cvat fuel task_id job_ids)) in
      let sizes := (λ batch, Z.of_nat (length batch)) <$> batches calls in
      record_ids (concat (batches calls)) = frames_in_scope cvat fuel task_id job_ids
      ∧ Z.of_nat (length sizes) = (M + batch_size - 1) / batch_size
      ∧ (∀ i size, (S i < length sizes)%nat → sizes !! i = Some size →
           size = batch_size)
      ∧ (0 < M → last sizes = Some (if decide (M mod batch_size = 0)
                                    then batch_size else M mod batch_size))
      ∧ (M = 0 → batches calls = [])
      ∧ finalize_calls calls = 1%nat.
Proof.
  intros HN Hrun.
  destruct (run_and_submit_log _ _ _ _ _ _ _ _ _ _ _ _ _ _ _ Hrun)
    as (calls & total & full_batches & remainder
        & Hlog & _ & _ & Hfin & Hbatches & Hids & Hinv & _).
  destruct (Hinv HN) as [Hfull Hrem].
  destruct (full_batches_length _ _ Hfull) as [Hlen Hsizes].
  assert (concat (batches calls) = concat full_batches ++ remainder) as Hconcat.
  { rewrite Hbatches, concat_app. destruct remainder; simpl; by rewrite ?app_nil_r. }
  exists calls. split; [done |]. cbn zeta.
  rewrite Hconcat. split; [done |].
  assert (Z.of_nat (length (frames_in_scope cvat fuel task_id job_ids))
          = Z.of_nat (length full_batches) * batch_size
            + Z.of_nat (length remainder)) as HM.
  { rewrite <- Hids. unfold record_ids. rewrite length_fmap, length_app. lia. }
  destruct (chunk_sizes batch_size
              (Z.of_nat (length (frames_in_scope cvat fuel task_id job_ids)))
              (Z.of_nat (length remainder)) (length full_batches)
              ((λ batch, Z.of_nat (length batch)) <$> batches calls))
    as (Hceil & Hinit & Hlast & Hnone); [done | lia | done | |].
  { rewrite Hbatches, fmap_app, Hsizes. f_equal.
    destruct remainder; [done |]. by rewrite decide_False. }
  split_and!; [done | done | done | | done].
  intros HM0. apply Hnone in HM0. by apply fmap_nil_inv in HM0.
Qed.

Lemma ingestion_calls_witness :
  ∃ calls, log (Scenario.run_it Scenario.provider 2).2 = calls
    ∧ record_ids (concat (batches calls)) = [(11, 0); (11, 2); (12, 3); (12, 4)]
    ∧ length <$> batches calls = [2%nat; 2%nat]
    ∧ finalize_calls calls = 1%nat.
Proof.
  destruct (ingestion_calls Scenario.dataup Scenario.cvat Scenario.provider 5 1 None
              (Some "yolo") (Some "1.0.0") None 0%Q (1 # 2)%Q 2 Scenario.fresh
              {| er_id := "ev-1"; er_status := "DONE" |}
              (Scenario.run_it Scenario.provider 2).2)
    as (calls & Hlog & Hids & _ & _ & _ & _ & Hfin).
  - lia.
  - vm_compute. reflexivity.
  - change (log (Scenario.run_it Scenario.provider 2).2 = calls) in Hlog.
    exists calls. split; [exact Hlog |].
    split; [rewrite Hids; vm_compute; reflexivity |].
    split; [| exact Hfin]. rewrite <- Hlog. vm_compute. reflexivity.
Defined.

(** C1, as the code has it: for every task whose jobs in scope have a
    range that is not inverted (start_frame <= stop_frame + 1) and a
    deleted-frame list that is duplicate-free and contained in the range,
    and for any job-id filter, in a run that returns the total frame count
    of the first pass (the sum over the jobs in scope of
    stop_frame - start_frame + 1 - |deleted_frames|, sent with the
    creation of the evaluation) equals the number of frames of the second
    pass, all of whose records are appended and submitted. *)
Theorem total_frames_submitted (dataup : DataUpService) (cvat : CVATServer)
    (provider : Inference) (fuel : nat) (task_id : Z)
    (agent_id agent_name agent_version : option string) (job_ids : option (list Z))
    (conf iou : Q) (batch_size : Z) (w : world) (res : EvaluationRead) (w' : world) :
  (∀ job_id job meta, job_id ∈ jobs_in_scope cvat fuel task_id job_ids →
     jobs_get cvat job_id = Ok job → jobs_get_data_meta cvat job_id = Ok meta →
     well_formed_job job meta) →
  Runner.run_and_submit dataup cvat provider fuel task_id agent_id agent_name
    agent_version job_ids conf iou batch_size w = (Returned res, w') →
  ∃ calls total_frames,
    log w' = log w ++ calls
    ∧ Runner.first_pass cvat fuel task_id (list_to_set <$> job_ids) w
      = (Returned total_frames, w)
    ∧ created_totals calls = [Some total_frames]
    ∧ record_ids (concat (batches calls)) = frames_in_scope cvat fuel task_id job_ids
    ∧ total_frames = Z.of_nat (length (frames_in_scope cvat fuel task_id job_ids))
    ∧ total_frames = Z.of_nat (length (concat (batches calls))).
Proof.
  intros Hwf Hrun.
  destruct (run_and_submit_log _ _ _ _ _ _ _ _ _ _ _ _ _ _ _ Hrun)
    as (calls & total & full_batches & remainder
        & Hlog & Hfirst & Hcreated & _ & Hbatches & Hids & _ & Hended).
  assert (concat (batches calls) = concat full_batches ++ remainder) as Hconcat.
  { rewrite Hbatches, concat_app. destruct remainder; simpl; by rewrite ?app_nil_r. }
  destruct (first_pass_total _ _ _ _ _ _ _ Hfirst Hwf Hended) as [_ Htotal].
  exists calls, total. rewrite Hconcat. split_and!; try done.
  rewrite Htotal, <- Hids. unfold record_ids. by rewrite length_fmap.
Qed.

Lemma total_frames_submitted_witness :
  ∃ calls, log (Scenario.run_it Scenario.provider 2).2 = calls
    ∧ created_totals calls = [Some 4]
    ∧ length (concat (batches calls)) = 4%nat.
Proof.
  destruct (total_frames_submitted Scenario.dataup Scenario.cvat Scenario.provider 5 1
              None (Some "yolo") (Some "1.0.0") None 0%Q (1 # 2)%Q 2 Scenario.fresh
              {| er_id := "ev-1"; er_status := "DONE" |}
              (Scenario.run_it Scenario.provider 2).2)
    as (calls & total & Hlog & _ & Hcreated & Hids & Htotal & Hsub).
  - intros job_id job meta _ Hjob Hmeta. simpl in Hjob, Hmeta.
    destruct (bool_decide (job_id = 11));
      injection Hmeta as <-; injection Hjob as <-; unfold well_formed_job; simpl.
    + split; [lia |]. split; [apply NoDup_singleton |].
      intros frame_id ->%list_elem_of_singleton. lia.
    + split; [lia |]. split; [apply NoDup_nil_2 |].
      intros frame_id Hin. by apply elem_of_nil in Hin.
  - vm_compute. reflexivity.
  - change (log (Scenario.run_it Scenario.provider 2).2 = calls) in Hlog.
    exists calls. split; [exact Hlog |].
    assert (total = 4) as -> by (rewrite Htotal; vm_compute; reflexivity).
    split; [exact Hcreated | lia].
Defined.

(** C1 as stated fails on an inverted range: with the jobs [0, 2] and
    [5, 3], no frame deleted, the first pass counts 3 + (-1) = 2 frames
    and the second pass submits 3. *)
Lemma inverted_range_total :
  (∀ job_id job meta,
     jobs_get Scenario.inverted_cvat job_id = Ok job →
     jobs_get_data_meta Scenario.inverted_cvat job_id = Ok meta →
     NoDup (deleted_frames meta)
     ∧ ∀ frame_id, frame_id ∈ deleted_frames meta →
         start_frame job ≤ frame_id ≤ stop_frame job)
  ∧ ∃ res w, Scenario.run_inverted = (Returned res, w)
      ∧ created_totals (log w) = [Some 2]
      ∧ length (concat (batches (log w))) = 3%nat.
Proof.
  split.
  - intros job_id job meta _ [= <-]. simpl. split; [apply NoDup_nil_2 |].
    intros frame_id Hin. by apply elem_of_nil in Hin.
  - eexists _, _. split; [vm_compute; reflexivity |]. split; reflexivity.
Qed.

(** *** Fuel and the caller *)

Section Fuel.
Context (dataup : DataUpService) (cvat : CVATServer) (provider : Inference).

Lemma jobs_pages_turn (fuel : nat) (task_id page_size : Z)
    (cvat_labels : list CVATLabel) (page : Z) :
  Jobs.jobs_pages cvat (S fuel) task_id page_size cvat_labels page
  = match jobs_list cvat task_id page page_size with
    | Raise e => gen_stop (Failed e)
    | Ok jobs_response =>
        gen_then (Jobs.page_jobs cvat cvat_labels (pr_results jobs_response))
          (match pr_next jobs_response with
           | None => gen_stop Finished
           | Some _ => Jobs.jobs_pages cvat fuel task_id page_size cvat_labels (page + 1)
           end)
    end.
Proof. reflexivity. Qed.

Lemma jobs_pages_more_fuel (fuel : nat) (task_id page_size : Z)
    (cvat_labels : list CVATLabel) (page : Z) :
  gen_end (Jobs.jobs_pages cvat fuel task_id page_size cvat_labels page) ≠ Unfinished →
  Jobs.jobs_pages cvat (S fuel) task_id page_size cvat_labels page
  = Jobs.jobs_pages cvat fuel task_id page_size cvat_labels page.
Proof.
  revert page. induction fuel as [| fuel IH]; intros page; [done |].
  rewrite (jobs_pages_turn (S fuel)), (jobs_pages_turn fuel _ _ _ page).
  destruct (jobs_list cvat task_id page page_size) as [jobs_response | e];
    [| done].
  destruct (pr_next jobs_response); [| done].
  unfold gen_then.
  destruct (gen_end (Jobs.page_jobs cvat cvat_labels (pr_results jobs_response)));
    [| done | done].
  cbn [gen_end]. intros Hend. by rewrite IH.
Qed.

(** A run that returns does not depend on the fuel left over. *)
Lemma run_and_submit_more_fuel fuel task_id agent_id agent_name agent_version
    job_ids conf iou batch_size w res w' :
  Runner.run_and_submit dataup cvat provider fuel task_id agent_id agent_name
    agent_version job_ids conf iou batch_size w = (Returned res, w') →
  Runner.run_and_submit dataup cvat provider (S fuel) task_id agent_id agent_name
    agent_version job_ids conf iou batch_size w = (Returned res, w').
Proof.
  intros Hrun.
  assert (Jobs.iter_jobs_with_annotations cvat (S fuel) task_id
          = Jobs.iter_jobs_with_annotations cvat fuel task_id) as Hsame.
  { apply bind_returned in Hrun as (total & w1 & Hfirst & _).
    apply for_gen_returned in Hfirst as [Hend _].
    unfold Jobs.iter_jobs_with_annotations in *.
    destruct (task_labels cvat task_id); [| done].
    apply jobs_pages_more_fuel. by rewrite Hend. }
  unfold Runner.run_and_submit, Runner.first_pass, Runner.second_pass in *.
  by rewrite Hsame.
Qed.

(** The command-line caller closes both connections after a run that
    returned, and only then. *)
Lemma cli_closes_after_return fuel task agent_id agent_name agent_version conf iou
    batch_size w :
  match cli_evaluation_run dataup cvat provider fuel task agent_id agent_name
          agent_version conf iou batch_size w with
  | (Returned _, w') => dataup_open w' = false ∧ cvat_open w' = false
  | (_, w') => dataup_open w' = dataup_open w ∧ cvat_open w' = cvat_open w
  end.
Proof.
  unfold cli_evaluation_run.
  pose proof (keeps_run_and_submit dataup cvat provider fuel task agent_id agent_name
                agent_version None conf iou batch_size w) as Hkeeps.
  destruct (Runner.run_and_submit _ _ _ _ _ _ _ _ _ _ _ _ w) as [[res | e |] w'];
    done.
Qed.

End Fuel.

(** * Further properties *)

(** ** [shape_to_label]: names, attributes and polygons *)

Section ShapeFields.
Import Utils.

Lemma ShapeType_of_value (t : ShapeType) : ShapeType_of (ShapeType_value t) = Ok t.
Proof. by destruct t. Qed.

Lemma convert_attribute_dump (m : gmap Z CVATLabelAttribute) (a : AttributeValue) :
  convert_attribute m (AttrDict (Some (spec_id a)) (Some (value a)))
  = convert_attribute m (AttrObj a).
Proof. reflexivity. Qed.

(** X1: a shape converts to the same label (or raises the same exception)
    whether it is passed as the [Shape] object or as the dict
    [model_dump] makes of it. *)
Theorem shape_to_label_dump (s : Shape) (labels : list CVATLabel) (score : Q) :
  shape_to_label (OfDict (model_dump s)) labels score
  = shape_to_label (OfShape s) labels score.
Proof.
  assert (∀ amap, omap (convert_attribute amap)
            ((λ a, AttrDict (Some (spec_id a)) (Some (value a))) <$> attributes s)
          = omap (convert_attribute amap) (AttrObj <$> attributes s)) as Hattrs.
  { intros amap. induction (attributes s) as [| a l IH]; [done |].
    rewrite !fmap_cons. cbn [omap list_omap].
    by rewrite convert_attribute_dump, IH. }
  unfold shape_to_label, read_fields.
  cbn [model_dump d_type d_points d_attributes d_label_id default from_option id].
  rewrite ShapeType_of_value.
  cbn [mbind result_bind f_label_id f_type f_points f_attributes].
  destruct (resolve_label (Some (label_id s)) labels) as [name amap].
  by rewrite Hattrs.
Qed.

Lemma shape_to_label_fields shape labels given f l :
  read_fields shape = Ok f →
  shape_to_label shape labels given = Ok l →
  label l = (resolve_label (f_label_id f) labels).1
  ∧ label_attributes l
    = omap (convert_attribute (resolve_label (f_label_id f) labels).2) (f_attributes f)
  ∧ score l = given.
Proof.
  intros Hf. unfold shape_to_label. rewrite Hf. simpl.
  destruct (resolve_label (f_label_id f) labels) as [name amap].
  by intros (g & Hg & [= <-])%bind_ok.
Qed.

Lemma find_first_label (i : Z) (labels : list CVATLabel) :
  match find (λ l, bool_decide (cl_id l = i)) labels with
  | Some d => first_label_with i labels d
  | None => ∀ d, d ∈ labels → cl_id d ≠ i
  end.
Proof.
  induction labels as [| d labels IH]; simpl.
  - intros d Hd. by apply elem_of_nil in Hd.
  - case_bool_decide as Hid.
    + exists [], labels. split_and!; [done | done |].
      intros d' Hd'. by apply elem_of_nil in Hd'.
    + destruct (find _ labels) as [d' |].
      * destruct IH as (before & after & -> & Hd' & Hbefore).
        exists (d :: before), after. split_and!; [done | done |].
        intros d'' [-> | Hin]%elem_of_cons; [done | by apply Hbefore].
      * intros d' [-> | Hin]%elem_of_cons; [done | by apply IH].
Qed.

Lemma first_label_unique i labels d d' :
  first_label_with i labels d → first_label_with i labels d' → d = d'.
Proof.
  intros (b1 & a1 & -> & Hid1 & Hb1) (b2 & a2 & Heq & Hid2 & Hb2).
  revert b2 Heq Hb2. induction b1 as [| x b1 IH]; intros [| y b2] Heq Hb2;
    simpl in Heq.
  - by injection Heq.
  - injection Heq as -> _. exfalso. apply (Hb2 y); [by left | done].
  - injection Heq as -> _. exfalso. apply (Hb1 d'); [by left | done].
  - injection Heq as -> Heq. apply (IH (λ z Hz, Hb1 z (list_elem_of_further _ _ _ Hz)) b2 Heq).
    intros z Hz. apply Hb2. by right.
Qed.

End ShapeFields.

(** X2: the label is named after the first label definition whose id is
    the shape's [label_id]; when no definition has that id the name is
    ["label_<id>"], and ["label_None"] when the shape has no label id. The
    lookup never fails. *)
Theorem label_name_resolved (shape : shape_arg) (labels : list CVATLabel) (score : Q)
    (f : Utils.fields) (l : Label) :
  Utils.read_fields shape = Ok f →
  Utils.shape_to_label shape labels score = Ok l →
  match Utils.f_label_id f with
  | None => label l = "label_None"
  | Some i =>
      (∀ d, first_label_with i labels d → label l = cl_name d)
      ∧ ((∀ d, d ∈ labels → cl_id d ≠ i) → label l = "label_" +:+ py_str i)
  end.
Proof.
  intros Hf Hl. destruct (shape_to_label_fields _ _ _ _ _ Hf Hl) as (-> & _ & _).
  unfold Utils.resolve_label. destruct (Utils.f_label_id f) as [i |]; [| done].
  pose proof (find_first_label i labels) as Hfind.
  destruct (find _ labels) as [d |]; simpl.
  - split.
    + intros d' Hd'. by rewrite (first_label_unique _ _ _ _ Hd' Hfind).
    + intros Hnone. destruct Hfind as (before & after & -> & Hid & _).
      exfalso. apply (Hnone d); [| done]. apply elem_of_app. right. by left.
  - split; [| done]. intros d (before & after & -> & Hid & _).
    exfalso. apply (Hfind d); [| done]. apply elem_of_app. right. by left.
Qed.

Lemma label_name_resolved_witness :
  ∃ l, Utils.shape_to_label (Scenario.dict_shape "rectangle" [10; 10; 50; 40]%Q)
         Scenario.car_labels 1%Q = Ok l
       ∧ label l = "car".
Proof.
  eexists. split; [vm_compute; reflexivity |].
  refine (proj1 (label_name_resolved
    (Scenario.dict_shape "rectangle" [10; 10; 50; 40]%Q) Scenario.car_labels 1%Q
    _ _ eq_refl _) {| cl_id := 7; cl_name := "car"; cl_attributes := [] |} _).
  - vm_compute. reflexivity.
  - exists [], []. split_and!; [done | done |].
    intros d Hd. by apply elem_of_nil in Hd.
Defined.

Section Attributes.
Import Utils.

Lemma attr_map_of_snoc (attrs : list CVATLabelAttribute) (a : CVATLabelAttribute) :
  attr_map_of (attrs ++ [a]) = <[cla_id a := a]> (attr_map_of attrs).
Proof. unfold attr_map_of. by rewrite foldl_snoc. Qed.

(** The dict of a label's attributes: a later definition of an id replaces
    an earlier one. *)
Lemma attr_map_of_lookup (attrs : list CVATLabelAttribute) (i : Z) :
  match attr_map_of attrs !! i with
  | Some a => last_attribute_with i attrs a
  | None => ∀ a, a ∈ attrs → cla_id a ≠ i
  end.
Proof.
  induction attrs as [| a attrs IH] using rev_ind.
  - unfold attr_map_of. simpl. rewrite lookup_empty.
    intros a Ha. by apply elem_of_nil in Ha.
  - rewrite attr_map_of_snoc. destruct (decide (cla_id a = i)) as [Hid | Hne].
    + rewrite <- Hid, lookup_insert_eq. exists attrs, []. split_and!; [done | done |].
      intros a' Ha'. by apply elem_of_nil in Ha'.
    + rewrite lookup_insert_ne by done.
      destruct (attr_map_of attrs !! i) as [a' |].
      * destruct IH as (before & after & -> & Hid & Hafter).
        exists before, (after ++ [a]). split_and!.
        -- by rewrite <- (assoc_L (++)).
        -- done.
        -- intros a'' [Hin | ->%list_elem_of_singleton]%elem_of_app;
             [by apply Hafter | done].
      * intros a' [Hin | ->%list_elem_of_singleton]%elem_of_app;
          [by apply IH | done].
Qed.

Lemma last_attribute_unique i attrs a a' :
  last_attribute_with i attrs a → last_attribute_with i attrs a' → a = a'.
Proof.
  intros (b1 & a1 & -> & Hid1 & Ha1) (b2 & a2 & Heq & Hid2 & Ha2).
  revert b2 Heq. induction b1 as [| x b1 IH]; intros [| y b2] Heq; simpl in Heq.
  - by injection Heq.
  - injection Heq as -> ->. exfalso. apply (Ha1 a'); [| done].
    apply elem_of_app. right. by left.
  - injection Heq as <- <-. exfalso. apply (Ha2 a); [| done].
    apply elem_of_app. right. by left.
  - injection Heq as -> Heq. by apply (IH b2).
Qed.

Lemma attr_key_defined attrs i a :
  last_attribute_with i attrs a → attr_key (attr_map_of attrs) (Some i) = cla_name a.
Proof.
  intros Hlast. unfold attr_key. pose proof (attr_map_of_lookup attrs i) as Hlook.
  destruct (attr_map_of attrs !! i) as [a' |].
  - by rewrite (last_attribute_unique _ _ _ _ Hlast Hlook).
  - destruct Hlast as (before & after & -> & Hid & _). exfalso.
    apply (Hlook a); [| done]. apply elem_of_app. right. by left.
Qed.

Lemma attr_key_undefined attrs i :
  (∀ a, a ∈ attrs → cla_id a ≠ i) → attr_key (attr_map_of attrs) (Some i) = py_str i.
Proof.
  intros Hnone. unfold attr_key. pose proof (attr_map_of_lookup attrs i) as Hlook.
  destruct (attr_map_of attrs !! i) as [a' |]; [| done].
  destruct Hlook as (before & after & -> & Hid & _). exfalso.
  apply (Hnone a'); [| done]. apply elem_of_app. right. by left.
Qed.

Lemma converted_attributes (amap : gmap Z CVATLabelAttribute) (attrs : list AttributeValue) :
  Forall2 (λ out a, la_value out = value a
                    ∧ la_key out = attr_key amap (Some (spec_id a)))
    (omap (convert_attribute amap) (AttrObj <$> attrs))
    (filter (λ a, value a ≠ "") attrs).
Proof.
  induction attrs as [| a attrs IH]; [constructor |].
  rewrite fmap_cons. cbn [omap list_omap convert_attribute].
  destruct (decide (value a = "")) as [Hempty | Hvalue].
  - by rewrite filter_cons_False by (by intros Hne).
  - rewrite filter_cons_True by done. by constructor.
Qed.

Lemma Forall2_values (P : LabelAttribute → AttributeValue → Prop)
    (outs : list LabelAttribute) (attrs : list AttributeValue) :
  Forall2 (λ out a, la_value out = value a ∧ P out a) outs attrs →
  la_value <$> outs = value <$> attrs.
Proof.
  induction 1 as [| out a outs attrs [Hv _] _ IH]; [done |].
  rewrite !fmap_cons. by f_equal.
Qed.

End Attributes.

(** X3: the attributes of the label of a [Shape] are those of the shape
    whose value is not empty, in their order and with their values; the
    key of each is the name the shape's label definition gives to its
    [spec_id] (the last definition, if the id is defined twice), and the
    [spec_id] printed as a number when the label definition, or the label
    itself, does not define it. *)
Theorem attributes_resolved (s : Shape) (labels : list CVATLabel) (given : Q)
    (l : Label) :
  Utils.shape_to_label (OfShape s) labels given = Ok l →
  Forall2
    (λ out a,
       la_value out = value a
       ∧ (∀ d def, first_label_with (label_id s) labels d →
            last_attribute_with (spec_id a) (cl_attributes d) def →
            la_key out = cla_name def)
       ∧ (∀ d, first_label_with (label_id s) labels d →
            (∀ def, def ∈ cl_attributes d → cla_id def ≠ spec_id a) →
            la_key out = py_str (spec_id a))
       ∧ ((∀ d, d ∈ labels → cl_id d ≠ label_id s) →
            la_key out = py_str (spec_id a)))
    (label_attributes l) (filter (λ a, value a ≠ "") (attributes s)).
Proof.
  intros Hl.
  destruct (shape_to_label_fields (OfShape s) labels given _ l eq_refl Hl)
    as (_ & -> & _).
  cbn [Utils.f_label_id Utils.f_attributes].
  eapply Forall2_impl; [apply converted_attributes |].
  intros out a [Hvalue Hkey]. split; [done |]. rewrite Hkey. clear Hkey Hvalue.
  unfold Utils.resolve_label.
  pose proof (find_first_label (label_id s) labels) as Hfind.
  destruct (find _ labels) as [d |]; cbn [snd].
  - split_and!.
    + intros d' def Hd' Hdef. rewrite (first_label_unique _ _ _ _ Hd' Hfind) in Hdef.
      by apply attr_key_defined.
    + intros d' Hd' Hnone. rewrite (first_label_unique _ _ _ _ Hd' Hfind) in Hnone.
      by apply attr_key_undefined.
    + intros Hnone. destruct Hfind as (before & after & -> & Hid & _).
      exfalso. apply (Hnone d); [| done]. apply elem_of_app. right. by left.
  - assert (∀ d, ¬ first_label_with (label_id s) labels d) as Hno.
    { intros d (before & after & -> & Hid & _).
      apply (Hfind d); [| done]. apply elem_of_app. right. by left. }
    split_and!.
    + intros d def Hd. by destruct (Hno d).
    + intros d Hd. by destruct (Hno d).
    + intros _. unfold Utils.attr_key. by rewrite lookup_empty.
Qed.

Lemma attributes_resolved_witness :
  ∃ l, Utils.shape_to_label (OfShape Fleet.truck) Fleet.labels 1%Q = Ok l
       ∧ (la_value <$> label_attributes l) = ["red"; "yes"].
Proof.
  destruct (Utils.shape_to_label (OfShape Fleet.truck) Fleet.labels 1%Q)
    as [l | e] eqn:Hl; [| by vm_compute in Hl].
  exists l. split; [done |].
  rewrite (Forall2_values _ _ _ (attributes_resolved _ _ _ _ Hl)).
  vm_compute. reflexivity.
Defined.

(** ** Polygons and their boxes *)

Section Polygons.
Import Utils.

Lemma Zmin_list_le (x : Z) (l : list Z) :
  Zmin_list x l ≤ x ∧ Forall (λ y, Zmin_list x l ≤ y) l.
Proof.
  unfold Zmin_list. revert x. induction l as [| y l IH]; intros x; simpl.
  - split; [lia | constructor].
  - destruct (IH (Z.min x y)) as [Hle Hall]. split; [lia |].
    constructor; [lia | done].
Qed.

Lemma Zmax_list_ge (x : Z) (l : list Z) :
  x ≤ Zmax_list x l ∧ Forall (λ y, y ≤ Zmax_list x l) l.
Proof.
  unfold Zmax_list. revert x. induction l as [| y l IH]; intros x; simpl.
  - split; [lia | constructor].
  - destruct (IH (Z.max x y)) as [Hle Hall]. split; [lia |].
    constructor; [lia | done].
Qed.

Lemma Zmin_list_in (x : Z) (l : list Z) : Zmin_list x l ∈ x :: l.
Proof.
  unfold Zmin_list. revert x. induction l as [| y l IH]; intros x; simpl.
  - by left.
  - specialize (IH (Z.min x y)).
    apply elem_of_cons in IH as [-> | Hin].
    + destruct (Z.min_spec x y) as [[_ ->] | [_ ->]]; [by left | right; by left].
    + right. by right.
Qed.

Lemma Zmax_list_in (x : Z) (l : list Z) : Zmax_list x l ∈ x :: l.
Proof.
  unfold Zmax_list. revert x. induction l as [| y l IH]; intros x; simpl.
  - by left.
  - specialize (IH (Z.max x y)).
    apply elem_of_cons in IH as [-> | Hin].
    + destruct (Z.max_spec x y) as [[_ ->] | [_ ->]]; [right; by left | by left].
    + right. by right.
Qed.

End Polygons.

Lemma to_bbox_spec (p : Polygon) :
  poly_points p ≠ [] →
  ∃ b, to_bbox p = Ok b
    ∧ 0 ≤ bb_width b ∧ 0 ≤ bb_height b
    ∧ Forall (box_holds b) (poly_points p)
    ∧ bb_x b ∈ (poly_points p).*1
    ∧ bb_x b + bb_width b ∈ (poly_points p).*1
    ∧ bb_y b ∈ (poly_points p).*2
    ∧ bb_y b + bb_height b ∈ (poly_points p).*2.
Proof.
  destruct p as [pts]. unfold to_bbox. simpl.
  destruct pts as [| [x0 y0] rest]; [done |]. intros _.
  destruct (Zmin_list_le x0 (rest.*1)) as [Hx0 Hxs].
  destruct (Zmax_list_ge x0 (rest.*1)) as [Hx0' Hxs'].
  destruct (Zmin_list_le y0 (rest.*2)) as [Hy0 Hys].
  destruct (Zmax_list_ge y0 (rest.*2)) as [Hy0' Hys'].
  eexists. split; [done |]. simpl. split_and!.
  - lia.
  - lia.
  - constructor; [unfold box_holds; simpl; lia |].
    apply Forall_forall. intros [px py] Hin. unfold box_holds. simpl.
    assert (px ∈ rest.*1) as Hpx by (by apply (list_elem_of_fmap_2 fst _ (px, py))).
    assert (py ∈ rest.*2) as Hpy by (by apply (list_elem_of_fmap_2 snd _ (px, py))).
    rewrite Forall_forall in Hxs, Hxs', Hys, Hys'.
    specialize (Hxs _ Hpx). specialize (Hxs' _ Hpx).
    specialize (Hys _ Hpy). specialize (Hys' _ Hpy). lia.
  - apply Zmin_list_in.
  - replace (Zmin_list x0 rest.*1 + (Zmax_list x0 rest.*1 - Zmin_list x0 rest.*1))
      with (Zmax_list x0 rest.*1) by lia.
    apply Zmax_list_in.
  - apply Zmin_list_in.
  - replace (Zmin_list y0 rest.*2 + (Zmax_list y0 rest.*2 - Zmin_list y0 rest.*2))
      with (Zmax_list y0 rest.*2) by lia.
    apply Zmax_list_in.
Qed.

(** X4: [Polygon.to_bbox] raises [ValueError] on a polygon without
    points; on any other polygon the box holds every point, its width and
    height are not negative, and each of its four sides passes through a
    point of the polygon. *)
Theorem to_bbox_tight (p : Polygon) :
  (poly_points p = [] → to_bbox p = Raise ValueError)
  ∧ (poly_points p ≠ [] →
     ∃ b, to_bbox p = Ok b
       ∧ 0 ≤ bb_width b ∧ 0 ≤ bb_height b
       ∧ Forall (box_holds b) (poly_points p)
       ∧ bb_x b ∈ (poly_points p).*1
       ∧ bb_x b + bb_width b ∈ (poly_points p).*1
       ∧ bb_y b ∈ (poly_points p).*2
       ∧ bb_y b + bb_height b ∈ (poly_points p).*2).
Proof.
  split.
  - destruct p as [pts]. unfold to_bbox. simpl. by intros ->.
  - apply to_bbox_spec.
Qed.

Lemma to_bbox_tight_witness :
  ∃ b, to_bbox {| poly_points := [(12, 3); (40, 5); (38, 30); (10, 28)] |} = Ok b
    ∧ b = {| bb_x := 10; bb_y := 3; bb_width := 30; bb_height := 27 |}.
Proof.
  destruct (proj2 (to_bbox_tight
              {| poly_points := [(12, 3); (40, 5); (38, 30); (10, 28)] |}))
    as (b & Hb & _); [done |].
  exists b. split; [exact Hb |]. vm_compute in Hb. by injection Hb as <-.
Defined.

Section PolygonLabels.
Import Utils.

Lemma range_step2_lookup (n i : nat) :
  (i < (n + 1) / 2)%nat → range_step2 n !! i = Some (2 * i)%nat.
Proof.
  intros Hi. unfold range_step2. rewrite list_lookup_fmap, lookup_seq_lt by done.
  done.
Qed.

(** The points of the polygon are the coordinates taken in pairs, each
    truncated. *)
Lemma polygon_points_spec (pts : list Q) (zs : list (Z * Z)) :
  polygon_points pts = Ok zs →
  length zs = ((length pts + 1) / 2)%nat
  ∧ ∀ i z, zs !! i = Some z →
      ∃ x y, pts !! (2 * i)%nat = Some x ∧ pts !! (2 * i + 1)%nat = Some y
             ∧ z = (py_int x, py_int y).
Proof.
  unfold polygon_points. intros Hzs%comprehension_Forall2.
  split; [by rewrite <- (Forall2_length _ _ _ Hzs), range_step2_length |].
  intros i z Hz.
  destruct (Forall2_lookup_r _ _ _ _ _ Hzs Hz) as (k & Hk & Hpair).
  assert (i < length (range_step2 (length pts)))%nat as Hi
    by (eapply lookup_lt_Some; eassumption).
  rewrite range_step2_length in Hi.
  rewrite range_step2_lookup in Hk by done. injection Hk as <-.
  apply bind_ok in Hpair as (x & Hx%py_index_Ok & (y & Hy%py_index_Ok & [= <-])%bind_ok).
  eauto.
Qed.

Lemma polygon_geometry_inv (pts : list Q) (g : option BoundingBox * option Polygon) :
  polygon_geometry pts = Ok g →
  ∃ zs b, polygon_points pts = Ok zs ∧ to_bbox {| poly_points := zs |} = Ok b
          ∧ g = (Some b, Some {| poly_points := zs |}).
Proof.
  unfold polygon_geometry.
  intros (zs & Hzs & (b & Hb & [= <-])%bind_ok)%bind_ok. eauto.
Qed.

(** Outside the polygon and polyline branches no polygon is assigned. *)
Lemma geometry_polygon (t : ShapeType) (pts : list Q)
    (g : option BoundingBox * option Polygon) :
  geometry t pts = Ok g →
  match g.2 with
  | Some p =>
      ((t = POLYGON ∧ 6 ≤ length pts) ∨ (t = POLYLINE ∧ 4 ≤ length pts))%nat
      ∧ polygon_points pts = Ok (poly_points p)
      ∧ ∃ b, g.1 = Some b ∧ to_bbox p = Ok b
  | None =>
      ¬ ((t = POLYGON ∧ 6 ≤ length pts) ∨ (t = POLYLINE ∧ 4 ≤ length pts))%nat
  end.
Proof.
  assert (∀ (r : result BoundingBox),
    (bbox ← r; Ok (Some bbox, @None Polygon)) = Ok g → g.2 = None) as Hbox.
  { intros r (b & _ & [= <-])%bind_ok. done. }
  assert (∀ (r1 r2 : result (list Q)),
    (xs ← r1; ys ← r2; bbox ← extent_box xs ys; Ok (bbox, @None Polygon)) = Ok g →
    g.2 = None) as Hcloud.
  { intros r1 r2 (xs & _ & (ys & _ & (b & _ & [= <-])%bind_ok)%bind_ok)%bind_ok.
    done. }
  destruct t; simpl.
  - destruct pts as [| ? [| ? [| ? [| ? ?]]]];
      try (intros [= <-]; simpl; by intros [[? _] | [? _]]).
    intros ->%Hbox. by intros [[? _] | [? _]].
  - case_bool_decide.
    + intros (zs & b & Hzs & Hb & ->)%polygon_geometry_inv. simpl.
      split_and!; [by left | done | eauto].
    + intros [= <-]. simpl. intros [[_ ?] | [? _]]; [lia | done].
  - case_bool_decide.
    + intros (zs & b & Hzs & Hb & ->)%polygon_geometry_inv. simpl.
      split_and!; [by right | done | eauto].
    + intros [= <-]. simpl. intros [[? _] | [_ ?]]; [done | lia].
  - case_bool_decide; [| intros [= <-]; simpl; by intros [[? _] | [? _]]].
    intros ->%Hcloud. by intros [[? _] | [? _]].
  - destruct pts as [| ? [| ? [| ? [| ? [| ? ?]]]]];
      try (intros [= <-]; simpl; by intros [[? _] | [? _]]);
      intros ->%Hbox; by intros [[? _] | [? _]].
  - case_bool_decide; [| intros [= <-]; simpl; by intros [[? _] | [? _]]].
    intros ->%Hcloud. by intros [[? _] | [? _]].
  - case_bool_decide; [| intros [= <-]; simpl; by intros [[? _] | [? _]]].
    intros ->%Hcloud. by intros [[? _] | [? _]].
  - case_bool_decide; [| intros [= <-]; simpl; by intros [[? _] | [? _]]].
    intros ->%Hcloud. by intros [[? _] | [? _]].
Qed.

Lemma shape_to_label_inv_full shape labels given f l :
  read_fields shape = Ok f →
  shape_to_label shape labels given = Ok l →
  ∃ g, geometry (f_type f) (f_points f) = Ok g
       ∧ bbox l = default unit_box g.1 ∧ polygon l = g.2.
Proof.
  intros Hf. unfold shape_to_label. rewrite Hf. simpl.
  destruct (resolve_label (f_label_id f) labels) as [name amap].
  intros (g & Hg & [= <-])%bind_ok. eauto.
Qed.

End PolygonLabels.

(** X5: a label carries a polygon exactly when the shape is a polygon with
    at least 6 coordinates or a polyline with at least 4.  The polygon
    then has one point per pair of coordinates, the i-th being
    (int(points[2i]), int(points[2i+1])), and the label's box is the box
    of the polygon: it holds every point of it. *)
Theorem polygon_of_label (shape : shape_arg) (labels : list CVATLabel) (given : Q)
    (f : Utils.fields) (l : Label) :
  Utils.read_fields shape = Ok f →
  Utils.shape_to_label shape labels given = Ok l →
  (is_Some (polygon l)
   ↔ ((Utils.f_type f = POLYGON ∧ 6 ≤ length (Utils.f_points f))
      ∨ (Utils.f_type f = POLYLINE ∧ 4 ≤ length (Utils.f_points f)))%nat)
  ∧ ∀ p, polygon l = Some p →
      (2 * length (poly_points p) = length (Utils.f_points f))%nat
      ∧ (∀ i z, poly_points p !! i = Some z →
           ∃ x y, Utils.f_points f !! (2 * i)%nat = Some x
                  ∧ Utils.f_points f !! (2 * i + 1)%nat = Some y
                  ∧ z = (py_int x, py_int y))
      ∧ to_bbox p = Ok (bbox l)
      ∧ Forall (box_holds (bbox l)) (poly_points p).
Proof.
  intros Hf Hl.
  destruct (shape_to_label_inv_full _ _ _ _ _ Hf Hl) as (g & Hg & Hbox & Hpoly).
  pose proof (geometry_polygon _ _ _ Hg) as Hspec. rewrite <- Hpoly in Hspec.
  split.
  - destruct (polygon l) as [p |].
    + split; [intros _; apply Hspec | by eauto].
    + split; [by intros [? ?] | by intros ?].
  - intros p Hp. rewrite Hp in Hspec. destruct Hspec as (Hsize & Hpts & b & Hb & Hbb).
    rewrite Hb in Hbox. simpl in Hbox. rewrite Hbox.
    destruct (polygon_points_spec _ _ Hpts) as [Hlen Hith].
    split_and!; [| done | done |].
    + pose proof (Nat.div_mod_eq (length (Utils.f_points f) + 1) 2) as Hdiv.
      pose proof (Nat.mod_upper_bound (length (Utils.f_points f) + 1) 2) as Hmod.
      assert (4 ≤ length (Utils.f_points f))%nat as Hfour
        by (destruct Hsize as [[_ ?] | [_ ?]]; lia).
      destruct (lookup_lt_is_Some_2 (poly_points p) (length (poly_points p) - 1))
        as [z Hz]; [lia |].
      destruct (Hith _ _ Hz) as (x & y & _ & Hy%lookup_lt_Some & _).
      lia.
    + destruct (to_bbox_spec p) as (b' & Hb' & _ & _ & Hall & _).
      * intros Hnil. unfold to_bbox in Hbb. by rewrite Hnil in Hbb.
      * rewrite Hbb in Hb'. by injection Hb' as <-.
Qed.

Lemma polygon_of_label_witness :
  ∃ l p, Utils.shape_to_label (OfShape Fleet.truck) Fleet.labels 1%Q = Ok l
    ∧ polygon l = Some p
    ∧ poly_points p = [(12, 3); (40, 5); (38, 30); (10, 28)]
    ∧ to_bbox p = Ok (bbox l).
Proof.
  destruct (Utils.shape_to_label (OfShape Fleet.truck) Fleet.labels 1%Q)
    as [l | e] eqn:Hl; [| by vm_compute in Hl].
  destruct (polygon l) as [p |] eqn:Hp;
    [| vm_compute in Hl; injection Hl as <-; discriminate Hp].
  exists l, p. split; [done |]. split; [done |].
  destruct (polygon_of_label (OfShape Fleet.truck) Fleet.labels 1%Q _ l eq_refl Hl)
    as [_ Hpoly].
  destruct (Hpoly p Hp) as (_ & _ & Hbox & _).
  split; [| exact Hbox].
  vm_compute in Hl. injection Hl as <-. by injection Hp as <-.
Defined.

(** ** Sizes and failures *)

Section BoxSizes.
Import Utils.

(** The box of a returned label outside the centre-radius ellipse. *)
Lemma geometry_nonneg (t : ShapeType) (pts : list Q)
    (g : option BoundingBox * option Polygon) :
  geometry t pts = Ok g →
  ¬ (t = ELLIPSE ∧ length pts = 4%nat) →
  0 ≤ bb_width (default unit_box g.1) ∧ 0 ≤ bb_height (default unit_box g.1).
Proof.
  intros Hg Hnot.
  destruct (decide (length pts < least_count t)%nat) as [Hshort | Hlong].
  { rewrite geometry_short in Hg by done. injection Hg as <-. simpl. lia. }
  assert (t ∈ [POINTS; CUBOID; SKELETON; MASK] →
    0 ≤ bb_width (default unit_box g.1) ∧ 0 ≤ bb_height (default unit_box g.1))
    as Hcloud.
  { intros Ht.
    destruct (cloud_branch t pts Ht ltac:(lia))
      as [[Hg' _] | [(Hg' & _) | (b & Hg' & _ & _ & Hw & Hh & _)]];
      rewrite Hg' in Hg; try done.
    injection Hg as <-. done. }
  assert (polygon_geometry pts = Ok g →
    0 ≤ bb_width (default unit_box g.1) ∧ 0 ≤ bb_height (default unit_box g.1))
    as Hpoly.
  { intros (zs & b & Hzs & Hb & ->)%polygon_geometry_inv. simpl.
    destruct (to_bbox_spec {| poly_points := zs |}) as (b' & Hb' & Hw & Hh & _).
    - intros Hnil. simpl in Hnil. by rewrite Hnil in Hb.
    - rewrite Hb in Hb'. by injection Hb' as <-. }
  assert (∀ x1 y1 x2 y2,
    (bbox ← corner_box x1 y1 x2 y2; Ok (Some bbox, @None Polygon)) = Ok g →
    0 ≤ bb_width (default unit_box g.1) ∧ 0 ≤ bb_height (default unit_box g.1))
    as Hcorner.
  { intros x1 y1 x2 y2.
    destruct (corner_box_cases x1 y1 x2 y2)
      as [[-> _] | (w & h & Hw & Hh & _ & _ & ->)]; [done |].
    intros [= <-]. simpl.
    split; apply py_int_nonneg; (eapply float_round_nonneg; [| eassumption]);
      apply Qabs_nonneg. }
  destruct t; simpl in Hg, Hlong.
  - destruct pts as [| ? [| ? [| ? [| ? ?]]]]; simpl in Hlong; try lia.
    by eapply Hcorner.
  - rewrite bool_decide_eq_true_2 in Hg by lia. by apply Hpoly.
  - rewrite bool_decide_eq_true_2 in Hg by lia. by apply Hpoly.
  - apply Hcloud. repeat constructor.
  - destruct pts as [| ? [| ? [| ? [| ? [| ? ?]]]]]; simpl in Hlong; try lia.
    + by destruct Hnot.
    + by eapply Hcorner.
  - apply Hcloud. repeat constructor.
  - apply Hcloud. repeat constructor.
  - apply Hcloud. repeat constructor.
Qed.

End BoxSizes.

(** X6: except for an ellipse in centre-radius form (exactly four
    coordinates, where a negative radius gives a negative size), the box of
    a label never has a negative width or height. *)
Theorem box_sizes_nonnegative (shape : shape_arg) (labels : list CVATLabel) (given : Q)
    (f : Utils.fields) (l : Label) :
  Utils.read_fields shape = Ok f →
  Utils.shape_to_label shape labels given = Ok l →
  ¬ (Utils.f_type f = ELLIPSE ∧ length (Utils.f_points f) = 4%nat) →
  0 ≤ bb_width (bbox l) ∧ 0 ≤ bb_height (bbox l).
Proof.
  intros Hf Hl Hnot.
  destruct (shape_to_label_inv_full _ _ _ _ _ Hf Hl) as (g & Hg & -> & _).
  by eapply geometry_nonneg.
Qed.

Lemma box_sizes_nonnegative_witness :
  ∃ l, Utils.shape_to_label (Scenario.dict_shape "rectangle" [50; 40; 10; 10]%Q)
         Scenario.car_labels 1%Q = Ok l
       ∧ 0 ≤ bb_width (bbox l) ∧ 0 ≤ bb_height (bbox l).
Proof.
  destruct (Utils.shape_to_label (Scenario.dict_shape "rectangle" [50; 40; 10; 10]%Q)
              Scenario.car_labels 1%Q) as [l | e] eqn:Hl; [| by vm_compute in Hl].
  exists l. split; [done |].
  apply (box_sizes_nonnegative
           (Scenario.dict_shape "rectangle" [50; 40; 10; 10]%Q) Scenario.car_labels
           1%Q _ l eq_refl Hl).
  by intros [[=] _].
Defined.



(** ** [paginate]: failures and a page that loops *)

Section PaginateMore.
Context {T : Type} (fetch_page : option string → result (CursorPage T)).

Lemma paginate_from_run (token token' : option string) (pages : list (CursorPage T)) :
  page_run fetch_page token pages token' →
  ∀ fuel, paginate_from (length pages + fuel) fetch_page token
          = gen_then {| yields := concat (items <$> pages); gen_end := Finished |}
              (paginate_from fuel fetch_page token').
Proof.
  induction 1 as [token | token page pages token' Hfetch Hnext _ IH]; intros fuel.
  - simpl. unfold gen_then. simpl. by destruct (paginate_from fuel fetch_page token).
  - simpl. rewrite Hfetch, Hnext, IH. unfold gen_then. simpl.
    by rewrite (assoc_L (++)).
Qed.

End PaginateMore.

(** X8: when the fetch of a page raises, [paginate] has yielded the items
    of all the pages before it, in order, and ends with that exception. *)
Theorem paginate_fails_late {T : Type}
    (fetch_page : option string → result (CursorPage T))
    (pages : list (CursorPage T)) (token : option string) (e : exn) (fuel : nat) :
  page_run fetch_page None pages token →
  fetch_page token = Raise e →
  (length pages < fuel)%nat →
  paginate fuel fetch_page
  = {| yields := concat (items <$> pages); gen_end := Failed e |}.
Proof.
  intros Hrun Hfail Hfuel. unfold paginate.
  replace fuel with (length pages + S (fuel - length pages - 1))%nat by lia.
  rewrite (paginate_from_run _ _ _ _ Hrun).
  simpl. rewrite Hfail. unfold gen_then. simpl. by rewrite app_nil_r.
Qed.

Lemma paginate_fails_late_witness :
  paginate 4
    (λ token, if decide (token = Some "c2") then Raise TimeoutError
              else Scenario.fetch_page token)
  = {| yields := [1; 2; 3]; gen_end := Failed TimeoutError |}.
Proof.
  refine (paginate_fails_late _
    [ {| items := [1; 2]; cursor := Some "c1"; next_page := None |};
      {| items := [3]; cursor := None; next_page := Some "c2" |} ]
    (Some "c2") TimeoutError 4 _ eq_refl _).
  - apply run_cons; [reflexivity | reflexivity |].
    apply run_cons; [reflexivity | reflexivity |]. apply run_nil.
  - simpl. lia.
Defined.

(** X9: a first page with an empty cursor and no next-page URL announces a
    next page ([cursor] is not [None]) but gives no token to fetch it
    with: [paginate] fetches the first page again and again, yielding its
    items each time, and never finishes. *)
Theorem paginate_empty_cursor_loops {T : Type}
    (fetch_page : option string → result (CursorPage T)) (page : CursorPage T)
    (fuel : nat) :
  fetch_page None = Ok page →
  cursor page = Some "" →
  next_page page = None →
  paginate fuel fetch_page
  = {| yields := concat (replicate fuel (items page)); gen_end := Unfinished |}.
Proof.
  intros Hfetch Hcursor Hnext. unfold paginate.
  induction fuel as [| fuel IH]; [done |].
  simpl. rewrite Hfetch.
  assert (has_next page = true) as -> by (unfold has_next; by rewrite Hcursor).
  assert (cursor_or_next_page page = None) as ->
    by (unfold cursor_or_next_page; by rewrite Hcursor, Hnext).
  rewrite IH. done.
Qed.

Lemma paginate_empty_cursor_loops_witness :
  paginate 3 (λ _, Ok {| items := [7; 8]; cursor := Some ""; next_page := None |})
  = {| yields := [7; 8; 7; 8; 7; 8]; gen_end := Unfinished |}.
Proof.
  exact (paginate_empty_cursor_loops
           (λ _, Ok {| items := [7; 8]; cursor := Some ""; next_page := None |})
           _ 3 eq_refl eq_refl eq_refl).
Defined.

(** ** [JobsResource]: frames and annotations *)

Section JobFrames.
Context (cvat : CVATServer).

Lemma gen_of_results_all {A} (l : list A) :
  gen_of_results (Ok <$> l) = {| yields := l; gen_end := Finished |}.
Proof.
  induction l as [| a l IH]; [done |].
  rewrite fmap_cons. cbn [gen_of_results]. by rewrite IH.
Qed.

Lemma gen_of_results_until {A} (before : list A) (e : exn) (after : list (result A)) :
  gen_of_results ((Ok <$> before) ++ Raise e :: after)
  = {| yields := before; gen_end := Failed e |}.
Proof.
  induction before as [| a before IH]; [done |].
  rewrite fmap_cons. cbn [app gen_of_results]. by rewrite IH.
Qed.

Lemma get_frame_all (job_id : Z) (frame_ids : list Z) :
  Forall (λ frame_id, is_ok (jobs_data cvat job_id frame_id) = true) frame_ids →
  ∃ frame_images,
    Jobs.get_frame cvat job_id <$> frame_ids = Ok <$> frame_images
    ∧ fi_frame_id <$> frame_images = frame_ids.
Proof.
  induction 1 as [| frame_id frame_ids Hok _ (frame_images & Hall & Hids)].
  - by exists [].
  - assert (∃ fi, Jobs.get_frame cvat job_id frame_id = Ok fi
                  ∧ fi_frame_id fi = frame_id) as (fi & Hfi & Hid).
    { unfold Jobs.get_frame.
      destruct (jobs_data cvat job_id frame_id) as [[content ctype] | e]; [| done].
      simpl. eauto. }
    exists (fi :: frame_images). rewrite !fmap_cons. by rewrite Hfi, Hall, Hid, Hids.
Qed.

End JobFrames.

(** X10: with the job and its metadata fetched, [iter_frames] asks for the
    frames of the range that are not deleted, in ascending order.  When
    every image is served it yields all of them and ends; when the image
    of a frame cannot be fetched it has yielded the frames before that one
    and ends with the exception of the fetch. *)
Theorem iter_frames_until_failure (cvat : CVATServer) (job_id : Z) (job : Job)
    (meta : DataMetaInfo) :
  jobs_get cvat job_id = Ok job →
  jobs_get_data_meta cvat job_id = Ok meta →
  (Forall (λ frame_id, is_ok (jobs_data cvat job_id frame_id) = true)
     (Jobs.live_frames job meta) →
   fi_frame_id <$> yields (Jobs.iter_frames cvat job_id) = Jobs.live_frames job meta
   ∧ gen_end (Jobs.iter_frames cvat job_id) = Finished)
  ∧ (∀ before frame_id after e,
       Jobs.live_frames job meta = before ++ frame_id :: after →
       Forall (λ frame_id, is_ok (jobs_data cvat job_id frame_id) = true) before →
       jobs_data cvat job_id frame_id = Raise e →
       fi_frame_id <$> yields (Jobs.iter_frames cvat job_id) = before
       ∧ gen_end (Jobs.iter_frames cvat job_id) = Failed e).
Proof.
  intros Hjob Hmeta. unfold Jobs.iter_frames. rewrite Hjob, Hmeta. split.
  - intros Hall. destruct (get_frame_all cvat job_id _ Hall) as (fis & -> & Hids).
    by rewrite gen_of_results_all.
  - intros before frame_id after e -> Hbefore Hfail.
    destruct (get_frame_all cvat job_id _ Hbefore) as (fis & Hfis & Hids).
    assert (Jobs.get_frame cvat job_id frame_id = Raise e) as Hraise
      by (unfold Jobs.get_frame; by rewrite Hfail).
    by rewrite fmap_app, fmap_cons, Hfis, Hraise, gen_of_results_until.
Qed.

Lemma iter_frames_until_failure_witness :
  fi_frame_id <$> yields (Jobs.iter_frames Scenario.cvat 11) = [0; 2]
  ∧ gen_end (Jobs.iter_frames Scenario.cvat 11) = Finished.
Proof.
  apply (proj1 (iter_frames_until_failure Scenario.cvat 11 _ _ eq_refl eq_refl)).
  by repeat constructor.
Defined.

Section FrameAnnotations.
Context (cvat : CVATServer).



End FrameAnnotations.



Section JobsPages.
Context (cvat : CVATServer).

Lemma page_jobs_all (cvat_labels : list CVATLabel) (results : list JobSummary)
    (pairs : list (JobSummary * list FrameLabels)) :
  Forall2 (λ job_summary pair,
             pair.1 = job_summary
             ∧ Jobs.get_annotations cvat (js_id job_summary) (Some cvat_labels)
               = Ok pair.2) results pairs →
  Jobs.page_jobs cvat cvat_labels results = {| yields := pairs; gen_end := Finished |}.
Proof.
  unfold Jobs.page_jobs.
  induction 1 as [| job_summary [js fll] results pairs [Hjs Hget] _ IH]; [done |].
  simpl in Hjs, Hget. subst js. rewrite fmap_cons. rewrite Hget. simpl.
  by rewrite IH.
Qed.

Lemma jobs_pages_all (task_id page_size : Z) (cvat_labels : list CVATLabel)
    (page : Z) (pages : list (PaginatedResponse JobSummary)) :
  job_pages cvat task_id page_size page pages →
  ∀ pairs fuel,
    Forall2 (λ job_summary pair,
               pair.1 = job_summary
               ∧ Jobs.get_annotations cvat (js_id job_summary) (Some cvat_labels)
                 = Ok pair.2) (concat (pr_results <$> pages)) pairs →
    (length pages ≤ fuel)%nat →
    Jobs.jobs_pages cvat fuel task_id page_size cvat_labels page
    = {| yields := pairs; gen_end := Finished |}.
Proof.
  induction 1 as [page response Hlist Hnext | page response pages Hlist Hnext _ IH];
    intros pairs [| fuel] Hpairs Hfuel; simpl in Hfuel; try lia;
    rewrite jobs_pages_turn, Hlist.
  - simpl in Hpairs. rewrite app_nil_r in Hpairs.
    rewrite (page_jobs_all _ _ _ Hpairs), Hnext. unfold gen_then. simpl.
    by rewrite app_nil_r.
  - rewrite fmap_cons, concat_cons in Hpairs.
    apply Forall2_app_inv_l in Hpairs as (pairs1 & pairs2 & Hp1 & Hp2 & ->).
    rewrite (page_jobs_all _ _ _ Hp1).
    destruct (pr_next response); [| done].
    rewrite (IH pairs2 fuel Hp2) by lia. done.
Qed.

End JobsPages.

(** X12: with the labels of the task fetched once, when the pages of the
    job listing from page 1 on end with a page without a [next] link and
    the annotations of every listed job can be fetched with those labels,
    [iter_jobs_with_annotations] yields every listed job, page after page
    in the listed order, each with its annotations, and ends. *)
Theorem iter_jobs_drains (cvat : CVATServer) (task_id : Z)
    (cvat_labels : list CVATLabel) (pages : list (PaginatedResponse JobSummary))
    (pairs : list (JobSummary * list FrameLabels)) (fuel : nat) :
  task_labels cvat task_id = Ok cvat_labels →
  job_pages cvat task_id 100 1 pages →
  Forall2 (λ job_summary pair,
             pair.1 = job_summary
             ∧ Jobs.get_annotations cvat (js_id job_summary) (Some cvat_labels)
               = Ok pair.2) (concat (pr_results <$> pages)) pairs →
  (length pages ≤ fuel)%nat →
  Jobs.iter_jobs_with_annotations cvat fuel task_id
  = {| yields := pairs; gen_end := Finished |}.
Proof.
  intros Hlabels Hpages Hpairs Hfuel. unfold Jobs.iter_jobs_with_annotations.
  rewrite Hlabels. by eapply jobs_pages_all.
Qed.

Lemma iter_jobs_drains_witness :
  js_id ∘ fst <$> yields (Jobs.iter_jobs_with_annotations Scenario.cvat 2 1) = [11; 12]
  ∧ gen_end (Jobs.iter_jobs_with_annotations Scenario.cvat 2 1) = Finished.
Proof.
  destruct (Jobs.get_annotations Scenario.cvat 11 (Some Scenario.car_labels))
    as [a11 | e] eqn:H11; [| by vm_compute in H11].
  destruct (Jobs.get_annotations Scenario.cvat 12 (Some Scenario.car_labels))
    as [a12 | e] eqn:H12; [| by vm_compute in H12].
  rewrite (iter_jobs_drains Scenario.cvat 1 Scenario.car_labels
    [ {| pr_count := 2; pr_next := Some "/jobs?page=2"; pr_previous := None;
         pr_results := [Scenario.summary 11] |};
      {| pr_count := 2; pr_next := None; pr_previous := Some "/jobs?page=1";
         pr_results := [Scenario.summary 12] |} ]
    [(Scenario.summary 11, a11); (Scenario.summary 12, a12)] 2 eq_refl).
  - done.
  - apply job_pages_next; [reflexivity | done |].
    apply job_pages_last; reflexivity.
  - by repeat constructor.
  - simpl. lia.
Defined.

(** ** The runner: what a run sends *)

Section Replay.
Context (dataup : DataUpService) (cvat : CVATServer) (provider : Inference).
Context (evaluation_id : string) (total_frames batch_size : Z) (conf iou : Q).

Local Abbreviation reporting := (bool_decide (is_Some (progress_callback provider))).
Local Abbreviation replayed := (replay reporting evaluation_id total_frames batch_size).

Lemma replay_app (st : Runner.progress) (r1 r2 : list FrameData) (b : bool) :
  replay b evaluation_id total_frames batch_size st (r1 ++ r2)
  = let '(c1, st1) := replay b evaluation_id total_frames batch_size st r1 in
    let '(c2, st2) := replay b evaluation_id total_frames batch_size st1 r2 in
    (c1 ++ c2, st2).
Proof.
  revert st. induction r1 as [| fd r1 IH]; intros st; simpl.
  - by destruct (replay b _ _ _ st r2).
  - case_bool_decide; rewrite IH;
      destruct (replay b _ _ _ _ r1) as [c1 st1];
      destruct (replay b _ _ _ st1 r2) as [c2 st2];
      by rewrite <- ?(assoc_L (++)).
Qed.

Lemma process_frame_replay job_id lookup st frame_image w st' w' :
  Runner.process_frame dataup provider evaluation_id total_frames batch_size conf iou
    job_id lookup st frame_image w = (Returned st', w') →
  ∃ frame_data,
    frame_record provider conf iou job_id lookup frame_image = Ok frame_data
    ∧ log w' = log w ++ (replayed st [frame_data]).1
    ∧ st' = (replayed st [frame_data]).2.
Proof.
  unfold Runner.process_frame, frame_record.
  intros (pil_image & w1 & [Hopen ->]%lift_returned & H)%bind_returned.
  apply bind_returned in H as (predictions & w1 & [Hpredict ->]%lift_returned & H).
  apply bind_returned in H as (frame_data & w1 & [Hfd ->]%lift_returned & H).
  apply bind_returned in H as ([] & w1 & Hreport & H).
  exists frame_data. rewrite Hopen. simpl. rewrite Hpredict. simpl.
  split; [done |].
  assert (log w1 = log w ++ (if reporting
                             then [CallProgress (Runner.processed_frames st + 1)
                                     total_frames]
                             else [])) as Hw1.
  { destruct (progress_callback provider) as [callback |].
    - by apply remote_returned in Hreport as [_ ->].
    - apply ret_returned in Hreport as [_ ->]. by rewrite app_nil_r. }
  cbn [replay].
  destruct (bool_decide (batch_size
                         ≤ Z.of_nat (length (Runner.current_batch st ++ [frame_data])))).
  - apply bind_returned in H as ([] & w2 & [_ ->]%remote_returned & [-> ->]%ret_returned).
    simpl. rewrite Hw1. by rewrite <- (assoc_L (++)).
  - apply ret_returned in H as [-> ->]. simpl. by rewrite app_nil_r.
Qed.

Lemma frames_loop_replay job_id lookup frame_images st w st' w' :
  for_each (Runner.process_frame dataup provider evaluation_id total_frames batch_size
              conf iou job_id lookup) st frame_images w = (Returned st', w') →
  ∃ records,
    Forall2 (work_record provider conf iou)
      ((λ frame_image, (job_id, lookup, frame_image)) <$> frame_images) records
    ∧ log w' = log w ++ (replayed st records).1
    ∧ st' = (replayed st records).2.
Proof.
  revert st w. induction frame_images as [| frame_image frame_images IH];
    intros st w; simpl.
  - intros [-> ->]%ret_returned. exists []. split; [constructor |].
    simpl. by rewrite app_nil_r.
  - intros (st1 & w1 & Hstep & Hrest)%bind_returned.
    apply process_frame_replay in Hstep as (fd & Hfd & Hw1 & ->).
    apply IH in Hrest as (records & Hrecords & Hw' & ->).
    exists (fd :: records). split; [by constructor |].
    rewrite (replay_app st [fd] records), Hw', Hw1.
    destruct (replayed st [fd]) as [c1 st1]. simpl.
    destruct (replayed st1 records) as [c2 st2]. simpl.
    by rewrite (assoc_L (++)).
Qed.

Lemma jobs_loop_replay ids jobs st w st' w' :
  for_each
    (λ st '(job_summary, frame_labels_list),
       let job_id := js_id job_summary in
       if Runner.filtered_out ids job_id then mret st
       else
         let frame_labels_lookup := Runner.labels_lookup frame_labels_list in
         for_gen
           (Runner.process_frame dataup provider evaluation_id total_frames
              batch_size conf iou job_id frame_labels_lookup)
           st (Jobs.iter_frames cvat job_id))
    st jobs w = (Returned st', w') →
  ∃ records,
    Forall2 (work_record provider conf iou) (scoped_work cvat ids jobs) records
    ∧ log w' = log w ++ (replayed st records).1
    ∧ st' = (replayed st records).2.
Proof.
  revert st w. induction jobs as [| [job_summary frame_labels_list] jobs IH];
    intros st w; simpl.
  - intros [-> ->]%ret_returned. exists []. split; [constructor |].
    simpl. by rewrite app_nil_r.
  - intros (st1 & w1 & Hjob & Hrest)%bind_returned.
    apply IH in Hrest as (records & Hrecords & Hw' & ->). unfold scoped_work.
    destruct (Runner.filtered_out ids (js_id job_summary)) eqn:Hfilter.
    + apply ret_returned in Hjob as [-> ->].
      rewrite filter_cons_False by (simpl; by rewrite Hfilter). eauto.
    + apply for_gen_returned in Hjob as [_ Hloop].
      apply frames_loop_replay in Hloop as (records1 & Hrecords1 & Hw1 & ->).
      rewrite filter_cons_True by done. rewrite bind_cons.
      exists (records1 ++ records). split; [by apply Forall2_app |].
      rewrite replay_app, Hw', Hw1.
      destruct (replayed st records1) as [c1 st1]. simpl.
      destruct (replayed st1 records) as [c2 st2]. simpl.
      by rewrite (assoc_L (++)).
Qed.

End Replay.

Section ReplayFacts.
Context (evaluation_id : string) (total_frames batch_size : Z).

Lemma replay_reports (st : Runner.progress) (records : list FrameData) :
  progress_reports (replay true evaluation_id total_frames batch_size st records).1
  = (λ current, (current, total_frames))
      <$> seqZ (Runner.processed_frames st + 1) (Z.of_nat (length records)).
Proof.
  revert st. induction records as [| fd records IH]; intros st; [done |].
  cbn [replay length]. rewrite seqZ_cons by lia. rewrite fmap_cons.
  replace (Z.pred (Z.of_nat (S (length records)))) with (Z.of_nat (length records))
    by lia.
  case_bool_decide;
    match goal with
    | |- context [replay true _ _ _ ?s records] =>
        specialize (IH s); destruct (replay true _ _ _ s records) as [calls st']
    end; simpl in *; by rewrite IH.
Qed.

Lemma replay_no_reports (st : Runner.progress) (records : list FrameData) :
  progress_reports (replay false evaluation_id total_frames batch_size st records).1 = [].
Proof.
  revert st. induction records as [| fd records IH]; intros st; [done |].
  cbn [replay].
  case_bool_decide;
    match goal with
    | |- context [replay false _ _ _ ?s records] =>
        specialize (IH s); destruct (replay false _ _ _ s records) as [calls st']
    end; simpl in *; by rewrite IH.
Qed.

Lemma replay_records (b : bool) (st : Runner.progress) (records : list FrameData) :
  concat (batches (replay b evaluation_id total_frames batch_size st records).1)
  ++ Runner.current_batch (replay b evaluation_id total_frames batch_size st records).2
  = Runner.current_batch st ++ records.
Proof.
  revert st. induction records as [| fd records IH]; intros st.
  - simpl. by rewrite app_nil_r.
  - cbn [replay].
    case_bool_decide;
      match goal with
      | |- context [replay b _ _ _ ?s records] =>
          specialize (IH s); destruct (replay b _ _ _ s records) as [calls st']
      end; destruct b; simpl in *; rewrite <- ?(assoc_L (++)); rewrite IH; try done;
      by rewrite <- (assoc_L (++)).
Qed.

Lemma replay_quiet (b : bool) (st : Runner.progress) (records : list FrameData) :
  finalize_calls (replay b evaluation_id total_frames batch_size st records).1 = 0%nat
  ∧ created_totals (replay b evaluation_id total_frames batch_size st records).1 = [].
Proof.
  revert st. induction records as [| fd records IH]; intros st; [done |].
  cbn [replay].
  case_bool_decide;
    match goal with
    | |- context [replay b _ _ _ ?s records] =>
        specialize (IH s); destruct (replay b _ _ _ s records) as [calls st']
    end; destruct b; simpl in *; done.
Qed.

Lemma replay_singletons (b : bool) (st : Runner.progress) (records : list FrameData) :
  batch_size ≤ 1 →
  Runner.current_batch st = [] →
  batches (replay b evaluation_id total_frames batch_size st records).1
  = (λ frame_data, [frame_data]) <$> records
  ∧ Runner.current_batch (replay b evaluation_id total_frames batch_size st records).2
    = [].
Proof.
  intros Hsize. revert st. induction records as [| fd records IH]; intros st Hempty;
    [done |].
  cbn [replay]. rewrite Hempty. rewrite bool_decide_eq_true_2 by (simpl; lia).
  match goal with
  | |- context [replay b _ _ _ ?s records] =>
      specialize (IH s eq_refl); destruct (replay b _ _ _ s records) as [calls st']
  end.
  destruct IH as [IH1 IH2]. destruct b; simpl in *; by rewrite IH1.
Qed.

Lemma replay_calls (b : bool) (st : Runner.progress) (records : list FrameData) :
  Forall (second_pass_call evaluation_id total_frames)
    (replay b evaluation_id total_frames batch_size st records).1.
Proof.
  revert st. induction records as [| fd records IH]; intros st; [constructor |].
  cbn [replay].
  case_bool_decide;
    match goal with
    | |- context [replay b _ _ _ ?s records] =>
        specialize (IH s); destruct (replay b _ _ _ s records) as [calls st']
    end; destruct b; simpl in *; repeat (constructor; simpl; try done);
    try (split; [done |]); by destruct (Runner.current_batch st).
Qed.

Lemma progress_reports_app (l k : list call) :
  progress_reports (l ++ k) = progress_reports l ++ progress_reports k.
Proof.
  induction l as [| c l IH]; simpl; [done |].
  destruct c; simpl; by rewrite IH.
Qed.

End ReplayFacts.

Section Work.
Context (cvat : CVATServer) (provider : Inference) (conf iou : Q).

Lemma scoped_work_ids (ids : option (gset Z)) (jobs : list (JobSummary * list FrameLabels)) :
  (λ work : Z * gmap Z (list Label) * FrameImage, (work.1.1, fi_frame_id work.2))
    <$> scoped_work cvat ids jobs
  = scoped ids jobs ≫= job_frames cvat.
Proof.
  unfold scoped_work, scoped.
  induction jobs as [| [job_summary fll] jobs IH]; [done |].
  rewrite fmap_cons. simpl.
  destruct (Runner.filtered_out ids (js_id job_summary)) eqn:Hfilter.
  - rewrite !filter_cons_False by (simpl; by rewrite Hfilter). exact IH.
  - rewrite !filter_cons_True by done. rewrite !bind_cons, fmap_app, IH.
    f_equal. unfold job_work, job_frames. simpl. by rewrite <- list_fmap_compose.
Qed.

Lemma work_record_ids work frame_data :
  work_record provider conf iou work frame_data →
  (fd_job_id frame_data, fd_frame_id frame_data) = (work.1.1, fi_frame_id work.2).
Proof.
  unfold work_record, frame_record.
  destruct (image_open provider _) as [image |]; [| done]. simpl.
  destruct (predict provider _ _ _) as [predictions |]; [| done]. simpl.
  intros [-> ->]%new_FrameData_ids. done.
Qed.

Lemma work_records_ids works records :
  Forall2 (work_record provider conf iou) works records →
  record_ids records
  = (λ work : Z * gmap Z (list Label) * FrameImage, (work.1.1, fi_frame_id work.2))
      <$> works.
Proof.
  induction 1 as [| work fd works records Hrec _ IH]; [done |].
  unfold record_ids in *. rewrite !fmap_cons, IH. f_equal.
  by apply work_record_ids.
Qed.

End Work.

Section RunReplay.
Context (dataup : DataUpService) (cvat : CVATServer) (provider : Inference).
Context (fuel : nat) (task_id : Z) (agent_id agent_name agent_version : option string).
Context (job_ids : option (list Z)) (conf iou : Q) (batch_size : Z).

(** The calls of a run that returns, in full. *)
Lemma run_and_submit_replay w res w' :
  Runner.run_and_submit dataup cvat provider fuel task_id agent_id agent_name
    agent_version job_ids conf iou batch_size w = (Returned res, w') →
  ∃ total evaluation evaluation_id records,
    Runner.first_pass cvat fuel task_id (list_to_set <$> job_ids) w
    = (Returned total, w)
    ∧ new_EvaluationCreate agent_id task_id agent_name agent_version total
      = Ok evaluation
    ∧ evaluations_create dataup (log w) evaluation = Ok evaluation_id
    ∧ gen_end (Jobs.iter_jobs_with_annotations cvat fuel task_id) = Finished
    ∧ Forall2 (work_record provider conf iou)
        (scoped_work cvat (list_to_set <$> job_ids)
           (yields (Jobs.iter_jobs_with_annotations cvat fuel task_id))) records
    ∧ let played :=
        replay (bool_decide (is_Some (progress_callback provider))) evaluation_id
          total batch_size
          {| Runner.processed_frames := 0; Runner.current_batch := [] |} records in
      log w' = log w ++ CallCreate evaluation :: played.1
                 ++ remainder_call evaluation_id played.2
                 ++ [CallFinalize evaluation_id; CallGet evaluation_id].
Proof.
  unfold Runner.run_and_submit.
  intros (total & w1 & Hfirst & H)%bind_returned.
  pose proof (first_pass_silent _ _ _ _ _ _ _ Hfirst) as ->.
  apply bind_returned in H as (evaluation & w1 & [Hcreate ->]%lift_returned & H).
  apply bind_returned in H as (evaluation_id & w1 & [Hid ->]%remote_returned & H).
  apply bind_returned in H as (st & w2 & Hsecond & H).
  unfold Runner.second_pass in Hsecond.
  apply for_gen_returned in Hsecond as [Hend Hloop].
  apply jobs_loop_replay in Hloop as (records & Hrecords & Hw2 & ->).
  apply bind_returned in H as ([] & w3 & Hflush & H).
  apply bind_returned in H as ([] & w4 & [_ ->]%remote_returned & [_ ->]%remote_returned).
  exists total, evaluation, evaluation_id, records.
  split_and!; [done | done | done | done | done |].
  cbv zeta. unfold remainder_call.
  destruct (Runner.current_batch _) as [| frame_data batch].
  - apply ret_returned in Hflush as [_ ->]. simpl. rewrite Hw2. simpl.
    by rewrite <- !(assoc_L (++)).
  - apply remote_returned in Hflush as [_ ->]. simpl. rewrite Hw2. simpl.
    by rewrite <- !(assoc_L (++)).
Qed.

End RunReplay.

(** X13: in a run that returns, the first call is the creation of the
    evaluation, the last two are the finalize call and the read, both with
    the id the creation answered, and every call in between is an
    ingestion of a batch with a record in it, under that same id, or a
    progress report against the total sent with the creation. *)
Theorem calls_carry_created_id (dataup : DataUpService) (cvat : CVATServer)
    (provider : Inference) (fuel : nat) (task_id : Z)
    (agent_id agent_name agent_version : option string) (job_ids : option (list Z))
    (conf iou : Q) (batch_size : Z) (w : world) (res : EvaluationRead) (w' : world) :
  Runner.run_and_submit dataup cvat provider fuel task_id agent_id agent_name
    agent_version job_ids conf iou batch_size w = (Returned res, w') →
  ∃ evaluation evaluation_id total between,
    log w' = log w ++ CallCreate evaluation :: between
               ++ [CallFinalize evaluation_id; CallGet evaluation_id]
    ∧ evaluations_create dataup (log w) evaluation = Ok evaluation_id
    ∧ ec_total_frames evaluation = Some total
    ∧ Forall (second_pass_call evaluation_id total) between.
Proof.
  intros (total & evaluation & evaluation_id & records & _ & Hcreate & Hid & _ & _
          & Hlog)%run_and_submit_replay.
  cbv zeta in Hlog.
  set (played := replay _ evaluation_id total batch_size _ records) in Hlog.
  exists evaluation, evaluation_id, total,
    (played.1 ++ remainder_call evaluation_id played.2).
  split_and!.
  - rewrite Hlog. by rewrite <- !(assoc_L (++)).
  - done.
  - unfold new_EvaluationCreate in Hcreate.
    destruct (_ && _); [| done]. by injection Hcreate as <-.
  - apply Forall_app. split; [apply replay_calls |].
    unfold remainder_call.
    destruct (Runner.current_batch played.2) as [| fd batch] eqn:Hbatch;
      constructor; [| constructor].
    simpl. done.
Qed.

Lemma calls_carry_created_id_witness :
  ∃ evaluation between,
    log (Scenario.run_it Scenario.provider 3).2
    = CallCreate evaluation :: between ++ [CallFinalize "ev-1"; CallGet "ev-1"]
    ∧ Forall (second_pass_call "ev-1" 4) between.
Proof.
  destruct (calls_carry_created_id Scenario.dataup Scenario.cvat Scenario.provider 5 1
              None (Some "yolo") (Some "1.0.0") None 0%Q (1 # 2)%Q 3 Scenario.fresh
              {| er_id := "ev-1"; er_status := "DONE" |}
              (Scenario.run_it Scenario.provider 3).2)
    as (evaluation & evaluation_id & total & between & Hlog & Hid & Htotal & Hcalls).
  - vm_compute. reflexivity.
  - change (log (Scenario.run_it Scenario.provider 3).2
            = CallCreate evaluation :: between
                ++ [CallFinalize evaluation_id; CallGet evaluation_id]) in Hlog.
    injection Hid as <-.
    assert (total = 4) as ->.
    { revert Hlog Htotal. vm_compute. intros [= <- _]. by intros [= <-]. }
    eauto.
Defined.

(** X14: with a progress callback, a run that returns has called it once
    per frame processed, in order, with the counts 1, 2, ... up to the
    number of frames of the jobs in scope, and each time with the total of
    the first pass as second argument. *)
Theorem progress_reported (dataup : DataUpService) (cvat : CVATServer)
    (provider : Inference) (fuel : nat) (task_id : Z)
    (agent_id agent_name agent_version : option string) (job_ids : option (list Z))
    (conf iou : Q) (batch_size : Z) (w : world) (res : EvaluationRead) (w' : world) :
  is_Some (progress_callback provider) →
  Runner.run_and_submit dataup cvat provider fuel task_id agent_id agent_name
    agent_version job_ids conf iou batch_size w = (Returned res, w') →
  ∃ calls total,
    log w' = log w ++ calls
    ∧ Runner.first_pass cvat fuel task_id (list_to_set <$> job_ids) w
      = (Returned total, w)
    ∧ progress_reports calls
      = (λ current, (current, total))
          <$> seqZ 1 (Z.of_nat (length (frames_in_scope cvat fuel task_id job_ids))).
Proof.
  intros Hcallback (total & evaluation & evaluation_id & records & Hfirst & _ & _ & _
                    & Hrecords & Hlog)%run_and_submit_replay.
  cbv zeta in Hlog. rewrite bool_decide_eq_true_2 in Hlog by done.
  eexists _, total. split_and!; [exact Hlog | done |].
  cbn [progress_reports]. rewrite !progress_reports_app, replay_reports.
  assert (progress_reports (remainder_call evaluation_id
            (replay true evaluation_id total batch_size
               {| Runner.processed_frames := 0; Runner.current_batch := [] |}
               records).2) = []) as ->
    by (unfold remainder_call; by destruct (Runner.current_batch _)).
  simpl. rewrite app_nil_r.
  unfold frames_in_scope, jobs_in_scope.
  rewrite <- scoped_work_ids, length_fmap.
  by rewrite (Forall2_length _ _ _ Hrecords).
Qed.

Lemma progress_reported_witness :
  progress_reports (log (Reporting.run_it None 3).2) = [(1, 4); (2, 4); (3, 4); (4, 4)].
Proof.
  destruct (progress_reported Scenario.dataup Scenario.cvat Reporting.provider 5 1
              None (Some "yolo") (Some "1.0.0") None 0%Q (1 # 2)%Q 3 Scenario.fresh
              {| er_id := "ev-1"; er_status := "DONE" |} (Reporting.run_it None 3).2)
    as (calls & total & Hlog & Hfirst & Hreports).
  - by eexists.
  - vm_compute. reflexivity.
  - change (log (Reporting.run_it None 3).2 = calls) in Hlog.
    rewrite Hlog, Hreports.
    assert (total = 4) as -> by (revert Hfirst; vm_compute; by intros [= <-]).
    vm_compute. reflexivity.
Defined.

(** X15: with a batch size of one or less (zero and negative sizes
    included), a run that returns has sent every frame record in an
    ingestion call of its own, in the order of the traversal, with nothing
    left for a call after the loops. *)
Theorem small_batch_size_sends_singly (dataup : DataUpService) (cvat : CVATServer)
    (provider : Inference) (fuel : nat) (task_id : Z)
    (agent_id agent_name agent_version : option string) (job_ids : option (list Z))
    (conf iou : Q) (batch_size : Z) (w : world) (res : EvaluationRead) (w' : world) :
  batch_size ≤ 1 →
  Runner.run_and_submit dataup cvat provider fuel task_id agent_id agent_name
    agent_version job_ids conf iou batch_size w = (Returned res, w') →
  ∃ calls records,
    log w' = log w ++ calls
    ∧ batches calls = (λ frame_data, [frame_data]) <$> records
    ∧ record_ids records = frames_in_scope cvat fuel task_id job_ids.
Proof.
  intros Hsize (total & evaluation & evaluation_id & records & _ & _ & _ & _
                & Hrecords & Hlog)%run_and_submit_replay.
  cbv zeta in Hlog. eexists _, records. split_and!; [exact Hlog | |].
  - destruct (replay_singletons evaluation_id total batch_size
                (bool_decide (is_Some (progress_callback provider)))
                {| Runner.processed_frames := 0; Runner.current_batch := [] |}
                records Hsize eq_refl) as [Hbatches Hempty].
    cbn [batches]. rewrite !batches_app, Hbatches. unfold remainder_call.
    rewrite Hempty. simpl. by rewrite app_nil_r.
  - rewrite (work_records_ids _ _ _ _ _ Hrecords).
    unfold frames_in_scope, jobs_in_scope. apply scoped_work_ids.
Qed.

Lemma small_batch_size_sends_singly_witness :
  length <$> batches (log (Scenario.run_it Scenario.provider 0).2)
  = [1%nat; 1%nat; 1%nat; 1%nat].
Proof.
  destruct (small_batch_size_sends_singly Scenario.dataup Scenario.cvat
              Scenario.provider 5 1 None (Some "yolo") (Some "1.0.0") None 0%Q
              (1 # 2)%Q 0 Scenario.fresh
              {| er_id := "ev-1"; er_status := "DONE" |}
              (Scenario.run_it Scenario.provider 0).2)
    as (calls & records & Hlog & Hbatches & Hids).
  - lia.
  - vm_compute. reflexivity.
  - change (log (Scenario.run_it Scenario.provider 0).2 = calls) in Hlog.
    rewrite Hlog, Hbatches, <- list_fmap_compose.
    assert (length records = 4%nat) as Hlen.
    { rewrite <- (length_fmap (λ fd, (fd_job_id fd, fd_frame_id fd)) records).
      change (length (record_ids records) = 4%nat). rewrite Hids.
      vm_compute. reflexivity. }
    destruct records as [| r1 [| r2 [| r3 [| r4 [| r5 records]]]]]; try discriminate.
    reflexivity.
Defined.

Section Records.
Context (dataup : DataUpService) (cvat : CVATServer) (provider : Inference).
Context (fuel : nat) (task_id : Z) (agent_id agent_name agent_version : option string).
Context (job_ids : option (list Z)) (conf iou : Q) (batch_size : Z).

(** The records a run that returns has sent: one per piece of work. *)
Lemma run_and_submit_records w res w' :
  Runner.run_and_submit dataup cvat provider fuel task_id agent_id agent_name
    agent_version job_ids conf iou batch_size w = (Returned res, w') →
  ∃ calls,
    log w' = log w ++ calls
    ∧ gen_end (Jobs.iter_jobs_with_annotations cvat fuel task_id) = Finished
    ∧ Forall2 (work_record provider conf iou)
        (scoped_work cvat (list_to_set <$> job_ids)
           (yields (Jobs.iter_jobs_with_annotations cvat fuel task_id)))
        (concat (batches calls)).
Proof.
  intros (total & evaluation & evaluation_id & records & _ & _ & _ & Hend
          & Hrecords & Hlog)%run_and_submit_replay.
  cbv zeta in Hlog. eexists. split_and!; [exact Hlog | done |].
  set (played := replay _ evaluation_id total batch_size _ records).
  pose proof (replay_records evaluation_id total batch_size
                (bool_decide (is_Some (progress_callback provider)))
                {| Runner.processed_frames := 0; Runner.current_batch := [] |}
                records) as Hall.
  fold played in Hall. simpl in Hall.
  cbn [batches]. rewrite !batches_app, !concat_app.
  assert (concat (batches (remainder_call evaluation_id played.2))
          = Runner.current_batch played.2) as ->.
  { unfold remainder_call. destruct (Runner.current_batch played.2); [done |].
    simpl. by rewrite app_nil_r. }
  simpl. rewrite app_nil_r. by rewrite Hall.
Qed.

Lemma scoped_work_elem ids jobs work :
  work ∈ scoped_work cvat ids jobs →
  ∃ job frame_image,
    job ∈ jobs
    ∧ Runner.filtered_out ids (js_id job.1) = false
    ∧ frame_image ∈ yields (Jobs.iter_frames cvat (js_id job.1))
    ∧ work = (js_id job.1, Runner.labels_lookup job.2, frame_image).
Proof.
  unfold scoped_work. intros (job & Hwork & Hjob)%list_elem_of_bind.
  apply list_elem_of_filter in Hjob as [Hfilter Hjob].
  unfold job_work in Hwork. apply list_elem_of_fmap in Hwork as (fi & -> & Hfi).
  eauto 6.
Qed.

Lemma iter_frames_yield job_id frame_image :
  frame_image ∈ yields (Jobs.iter_frames cvat job_id) →
  ∃ job meta,
    jobs_get cvat job_id = Ok job
    ∧ jobs_get_data_meta cvat job_id = Ok meta
    ∧ Jobs.get_frame cvat job_id (fi_frame_id frame_image) = Ok frame_image
    ∧ fi_frame_id frame_image ∈ Jobs.live_frames job meta.
Proof.
  unfold Jobs.iter_frames.
  destruct (jobs_get cvat job_id) as [job | e]; [| by intros ?%elem_of_nil].
  destruct (jobs_get_data_meta cvat job_id) as [meta | e]; [| by intros ?%elem_of_nil].
  intros Hin. exists job, meta. split; [done |]. split; [done |].
  induction (Jobs.live_frames job meta) as [| frame_id frame_ids IH];
    [by apply elem_of_nil in Hin |].
  rewrite fmap_cons in Hin. cbn [gen_of_results] in Hin.
  destruct (Jobs.get_frame cvat job_id frame_id) as [fi | e] eqn:Hget;
    [| by apply elem_of_nil in Hin].
  simpl in Hin. apply elem_of_cons in Hin as [-> | Hin].
  - rewrite (get_frame_id _ _ _ _ Hget). split; [done | by left].
  - destruct (IH Hin) as [Hframe Hlive]. split; [done | by right].
Qed.

Lemma filtered_out_false job_id ids :
  Runner.filtered_out (list_to_set <$> job_ids) job_id = false →
  job_ids = Some ids → job_id ∈ ids.
Proof.
  intros Hfilter ->. simpl in Hfilter.
  apply bool_decide_eq_false in Hfilter.
  destruct (decide (job_id ∈ ids)) as [| Hnot]; [done |].
  exfalso. apply Hfilter. by rewrite elem_of_list_to_set.
Qed.

End Records.

(** X16: every frame record a run that returns has sent is the record of a
    frame its job serves: the job passes the job-id filter when one is
    given, and the frame lies in the job's range and is not one of its
    deleted frames. *)
Theorem records_in_scope (dataup : DataUpService) (cvat : CVATServer)
    (provider : Inference) (fuel : nat) (task_id : Z)
    (agent_id agent_name agent_version : option string) (job_ids : option (list Z))
    (conf iou : Q) (batch_size : Z) (w : world) (res : EvaluationRead) (w' : world) :
  Runner.run_and_submit dataup cvat provider fuel task_id agent_id agent_name
    agent_version job_ids conf iou batch_size w = (Returned res, w') →
  ∃ calls,
    log w' = log w ++ calls
    ∧ ∀ frame_data, frame_data ∈ concat (batches calls) →
        (∀ ids, job_ids = Some ids → fd_job_id frame_data ∈ ids)
        ∧ ∃ job meta,
            jobs_get cvat (fd_job_id frame_data) = Ok job
            ∧ jobs_get_data_meta cvat (fd_job_id frame_data) = Ok meta
            ∧ start_frame job ≤ fd_frame_id frame_data ≤ stop_frame job
            ∧ fd_frame_id frame_data ∉ deleted_frames meta.
Proof.
  intros (calls & Hlog & _ & Hrecords)%run_and_submit_records.
  exists calls. split; [done |]. intros frame_data Hin.
  apply list_elem_of_lookup in Hin as [i Hi].
  destruct (Forall2_lookup_r _ _ _ _ _ Hrecords Hi) as (work & Hwork & Hrecord).
  apply list_elem_of_lookup_2 in Hwork.
  apply scoped_work_elem in Hwork as (job & fi & _ & Hfilter & Hfi & ->).
  apply work_record_ids in Hrecord. simpl in Hrecord. injection Hrecord as -> ->.
  split; [intros ids; by apply filtered_out_false |].
  apply iter_frames_yield in Hfi as (j & meta & Hjob & Hmeta & _ & Hlive).
  apply live_frames_spec in Hlive as [Hdeleted Hrange]. eauto 6.
Qed.

Lemma records_in_scope_witness :
  Forall (λ frame_data,
            fd_job_id frame_data = 11 ∧ 0 ≤ fd_frame_id frame_data ≤ 2
            ∧ fd_frame_id frame_data ≠ 1)
    (concat (batches (log (Reporting.run_it (Some [11]) 3).2))).
Proof.
  apply Forall_forall.
  destruct (records_in_scope Scenario.dataup Scenario.cvat Reporting.provider 5 1
              None (Some "yolo") (Some "1.0.0") (Some [11]) 0%Q (1 # 2)%Q 3
              Scenario.fresh {| er_id := "ev-1"; er_status := "DONE" |}
              (Reporting.run_it (Some [11]) 3).2)
    as (calls & Hlog & Hscope).
  - vm_compute. reflexivity.
  - change (log (Reporting.run_it (Some [11]) 3).2 = calls) in Hlog.
    rewrite Hlog. intros frame_data Hin.
    destruct (Hscope frame_data Hin) as [Hids (job & meta & Hjob & Hmeta & Hrange & Hdel)].
    specialize (Hids _ eq_refl).
    apply elem_of_cons in Hids as [Heleven | Hids]; [| by apply elem_of_nil in Hids].
    rewrite Heleven in Hjob, Hmeta. vm_compute in Hjob, Hmeta.
    injection Hjob as <-. injection Hmeta as <-. simpl in Hrange, Hdel.
    split; [done |]. split; [done |]. intros Hone. apply Hdel. rewrite Hone. by left.
Defined.

(** ** The runner: runs that do not return *)

Section Outcomes.

Lemma bind_outcome {A B} (m : run A) (k : A → run B) (w : world) :
  (m ≫= k) w = match m w with
               | (Returned a, w1) => k a w1
               | (Raised e, w1) => (Raised e, w1)
               | (OutOfFuel, w1) => (OutOfFuel, w1)
               end.
Proof. reflexivity. Qed.

Lemma lift_outcome {A} (r : result A) (w : world) :
  lift r w = match r with
             | Ok a => (Returned a, w)
             | Raise e => (Raised e, w)
             end.
Proof. reflexivity. Qed.

Lemma remote_outcome {A} (c : call) (answer : list call → result A) (w : world) :
  remote c answer w = match answer (log w) with
                      | Ok a => (Returned a, record_call c w)
                      | Raise e => (Raised e, record_call c w)
                      end.
Proof. reflexivity. Qed.

Lemma for_each_world {A S} (body : S → A → run S) :
  (∀ s a w, (body s a w).2 = w) → ∀ l s w, (for_each body s l w).2 = w.
Proof.
  intros Hbody. induction l as [| a l IH]; intros s w; simpl; [done |].
  rewrite bind_outcome. specialize (Hbody s a w).
  destruct (body s a w) as [[s1 | e |] w1]; simpl in *; subst;
    [apply IH | done | done].
Qed.

(** The first pass leaves the world as it is, however it ends. *)
Lemma first_pass_world cvat fuel task_id ids w :
  (Runner.first_pass cvat fuel task_id ids w).2 = w.
Proof.
  unfold Runner.first_pass, for_gen. rewrite bind_outcome.
  match goal with
  | |- context [for_each ?body 0 ?l w] =>
      assert (∀ s a w, (body s a w).2 = w) as Hbody;
      [| pose proof (for_each_world body Hbody l 0 w) as Hloop;
         destruct (for_each body 0 l w) as [[total | e |] w1]; simpl in *; subst;
         [by destruct (gen_end _) | done | done]]
  end.
  intros total [job_summary fll] w0.
  destruct (Runner.filtered_out ids (js_id job_summary)); [done |].
  rewrite bind_outcome. unfold lift.
  destruct (jobs_get cvat (js_id job_summary)); [| done].
  rewrite bind_outcome.
  destruct (jobs_get_data_meta cvat (js_id job_summary)); done.
Qed.

Lemma quiet_ret {A} (a : A) : feeds_only (mret a : run A).
Proof. intros w. exists []. by rewrite app_nil_r. Qed.

Lemma quiet_lift {A} (r : result A) : feeds_only (lift r).
Proof. intros w. exists []. rewrite app_nil_r. unfold lift. by destruct r. Qed.

Lemma quiet_remote {A} (c : call) (answer : list call → result A) :
  is_feed c = true → feeds_only (remote c answer).
Proof.
  intros Hc w. exists [c]. unfold remote.
  split; [by destruct (answer (log w)) |].
  by destruct c.
Qed.

Lemma quiet_bind {A B} (m : run A) (k : A → run B) :
  feeds_only m → (∀ a, feeds_only (k a)) → feeds_only (m ≫= k).
Proof.
  intros Hm Hk w. rewrite bind_outcome.
  destruct (Hm w) as (c1 & H1 & F1 & C1).
  destruct (m w) as [[a | e |] w1]; simpl in *; [| by exists c1 | by exists c1].
  destruct (Hk a w1) as (c2 & H2 & F2 & C2). exists (c1 ++ c2).
  rewrite H2, H1, finalize_calls_app, created_totals_app, F1, F2, C1, C2.
  by rewrite (assoc_L (++)).
Qed.

Lemma quiet_for_each {A S} (body : S → A → run S) :
  (∀ s a, feeds_only (body s a)) → ∀ l s, feeds_only (for_each body s l).
Proof.
  intros Hbody. induction l as [| a l IH]; intros s; simpl; [apply quiet_ret |].
  apply quiet_bind; [apply Hbody | intros s'; apply IH].
Qed.

Lemma quiet_for_gen {A S} (body : S → A → run S) (s : S) (g : generator A) :
  (∀ s a, feeds_only (body s a)) → feeds_only (for_gen body s g).
Proof.
  intros Hbody. unfold for_gen. apply quiet_bind; [by apply quiet_for_each |].
  intros s'. destruct (gen_end g); [apply quiet_ret | |];
    intros w; exists []; by rewrite app_nil_r.
Qed.

Context (dataup : DataUpService) (cvat : CVATServer) (provider : Inference).

Lemma quiet_process_frame evaluation_id total_frames batch_size conf iou job_id lookup
    st frame_image :
  feeds_only
    (Runner.process_frame dataup provider evaluation_id total_frames batch_size conf iou
       job_id lookup st frame_image).
Proof.
  unfold Runner.process_frame.
  apply quiet_bind; [apply quiet_lift | intros pil_image].
  apply quiet_bind; [apply quiet_lift | intros predictions].
  apply quiet_bind; [apply quiet_lift | intros frame_data].
  apply quiet_bind.
  - destruct (progress_callback provider); [by apply quiet_remote | apply quiet_ret].
  - intros _. case_bool_decide; [| apply quiet_ret].
    apply quiet_bind; [by apply quiet_remote | intros _; apply quiet_ret].
Qed.

Lemma quiet_second_pass fuel task_id ids evaluation_id total_frames batch_size conf iou :
  feeds_only
    (Runner.second_pass dataup cvat provider fuel task_id ids evaluation_id
       total_frames batch_size conf iou).
Proof.
  unfold Runner.second_pass. apply quiet_for_gen. intros st [job_summary fll].
  destruct (Runner.filtered_out ids (js_id job_summary)); [apply quiet_ret |].
  apply quiet_for_gen. intros st' frame_image. apply quiet_process_frame.
Qed.

(** Acceptance of the ingestion calls of a log. *)
Lemma accepted_app (base l k : list call) :
  accepted dataup base (l ++ k)
  ↔ accepted dataup base l ∧ accepted dataup (base ++ l) k.
Proof.
  revert base. induction l as [| c l IH]; intros base; simpl.
  - rewrite app_nil_r. tauto.
  - rewrite IH, <- (assoc_L (++)). simpl. tauto.
Qed.

Lemma accepted_feeds (base l : list call) :
  Forall (λ c, batches [c] = []) l → accepted dataup base l.
Proof.
  intros Hl. revert base. induction Hl as [| c l Hc _ IH]; intros base; simpl; [done |].
  split; [by destruct c | apply IH].
Qed.

Lemma accepted_not_refused (base calls : list call) (e : exn) :
  accepted dataup base calls → ¬ refused_last dataup base calls e.
Proof.
  intros Hacc (before & id & frames & -> & _ & Href).
  apply accepted_app in Hacc as [_ [Hlast _]]. congruence.
Qed.

Lemma refused_last_app (base l calls : list call) (e : exn) :
  accepted dataup base l →
  refused_last dataup (base ++ l) calls e → refused_last dataup base (l ++ calls) e.
Proof.
  intros Hl (before & id & frames & -> & Hbefore & Href).
  exists (l ++ before), id, frames. split_and!.
  - by rewrite (assoc_L (++)).
  - by apply accepted_app.
  - by rewrite (assoc_L (++)).
Qed.

Lemma checked_silent {A} (m : run A) : (∀ w, (m w).2 = w) → checked dataup m.
Proof. intros H w. exists []. rewrite H, app_nil_r. split; [done | by left]. Qed.

Lemma checked_ret {A} (a : A) : checked dataup (mret a : run A).
Proof. by apply checked_silent. Qed.

Lemma checked_lift {A} (r : result A) : checked dataup (lift r).
Proof. apply checked_silent. intros w. unfold lift. by destruct r. Qed.

Lemma checked_feed {A} (c : call) (answer : list call → result A) :
  batches [c] = [] → checked dataup (remote c answer).
Proof.
  intros Hc w. exists [c]. rewrite remote_outcome.
  split; [by destruct (answer (log w)) |]. left. simpl. by destruct c.
Qed.

Lemma checked_ingest (evaluation_id : string) (frames : list FrameData) :
  checked dataup
    (remote (CallIngest evaluation_id frames)
       (λ l, evaluations_ingest_batch dataup l evaluation_id frames)).
Proof.
  intros w. exists [CallIngest evaluation_id frames]. rewrite remote_outcome.
  destruct (evaluations_ingest_batch dataup (log w) evaluation_id frames)
    as [[] | e] eqn:Hanswer.
  - split; [done |]. left. by simpl.
  - split; [done |]. right. exists e. split; [| done].
    exists [], evaluation_id, frames. by rewrite app_nil_r.
Qed.

Lemma checked_bind {A B} (m : run A) (k : A → run B) :
  checked dataup m → (∀ a, checked dataup (k a)) → checked dataup (m ≫= k).
Proof.
  intros Hm Hk w. rewrite bind_outcome.
  destruct (Hm w) as (c1 & H1 & D1).
  destruct (m w) as [[a | e |] w1]; simpl in *.
  - destruct D1 as [A1 | (e & _ & ?)]; [| done].
    destruct (Hk a w1) as (c2 & H2 & D2). exists (c1 ++ c2).
    split; [by rewrite H2, H1, (assoc_L (++)) |].
    rewrite H1 in D2. destruct D2 as [A2 | (e & R2 & O2)].
    + left. by apply accepted_app.
    + right. exists e. split; [by apply refused_last_app | done].
  - exists c1. split; [exact H1 |].
    destruct D1 as [A1 | (e' & R1 & [= ->])]; [by left | right; by exists e'].
  - exists c1. split; [exact H1 |].
    destruct D1 as [A1 | (e' & _ & ?)]; [by left | done].
Qed.

Lemma checked_for_each {A S} (body : S → A → run S) :
  (∀ s a, checked dataup (body s a)) → ∀ l s, checked dataup (for_each body s l).
Proof.
  intros Hbody. induction l as [| a l IH]; intros s; simpl; [apply checked_ret |].
  apply checked_bind; [apply Hbody | intros s'; apply IH].
Qed.

Lemma checked_for_gen {A S} (body : S → A → run S) (s : S) (g : generator A) :
  (∀ s a, checked dataup (body s a)) → checked dataup (for_gen body s g).
Proof.
  intros Hbody. unfold for_gen. apply checked_bind; [by apply checked_for_each |].
  intros s'. destruct (gen_end g); [apply checked_ret | |]; by apply checked_silent.
Qed.

Lemma checked_process_frame evaluation_id total_frames batch_size conf iou job_id lookup
    st frame_image :
  checked dataup
    (Runner.process_frame dataup provider evaluation_id total_frames batch_size conf iou
       job_id lookup st frame_image).
Proof.
  unfold Runner.process_frame.
  apply checked_bind; [apply checked_lift | intros pil_image].
  apply checked_bind; [apply checked_lift | intros predictions].
  apply checked_bind; [apply checked_lift | intros frame_data].
  apply checked_bind.
  - destruct (progress_callback provider); [by apply checked_feed | apply checked_ret].
  - intros _. case_bool_decide; [| apply checked_ret].
    apply checked_bind; [apply checked_ingest | intros _; apply checked_ret].
Qed.

Lemma checked_second_pass fuel task_id ids evaluation_id total_frames batch_size conf iou :
  checked dataup
    (Runner.second_pass dataup cvat provider fuel task_id ids evaluation_id
       total_frames batch_size conf iou).
Proof.
  unfold Runner.second_pass. apply checked_for_gen. intros st [job_summary fll].
  destruct (Runner.filtered_out ids (js_id job_summary)); [apply checked_ret |].
  apply checked_for_gen. intros st' frame_image. apply checked_process_frame.
Qed.

(** The calls after the loops: the remainder, the finalize call, the
    read.  Either the service refuses the remainder, which ends the run,
    or the finalize call is made. *)
Lemma closing_shape (evaluation_id : string) (st : Runner.progress) (w : world) :
  let closing : run EvaluationRead :=
    _ ← match Runner.current_batch st with
        | [] => mret ()
        | _ :: _ =>
            remote (CallIngest evaluation_id (Runner.current_batch st))
              (λ l, evaluations_ingest_batch dataup l evaluation_id
                      (Runner.current_batch st))
        end;
    _ ← remote (CallFinalize evaluation_id)
          (λ l, evaluations_finalize dataup l evaluation_id);
    remote (CallGet evaluation_id) (λ l, evaluations_get dataup l evaluation_id) in
  ∃ tail,
    log (closing w).2 = log w ++ tail
    ∧ ((∃ e, tail = [CallIngest evaluation_id (Runner.current_batch st)]
             ∧ evaluations_ingest_batch dataup (log w) evaluation_id
                 (Runner.current_batch st) = Raise e
             ∧ (closing w).1 = Raised e)
       ∨ (accepted dataup (log w) (remainder_call evaluation_id st)
          ∧ ((tail = remainder_call evaluation_id st ++ [CallFinalize evaluation_id]
              ∧ ∃ e, (closing w).1 = Raised e)
             ∨ tail = remainder_call evaluation_id st
                      ++ [CallFinalize evaluation_id; CallGet evaluation_id]))).
Proof.
  cbv zeta. rewrite bind_outcome. unfold remainder_call.
  assert (∀ w1,
    let rest : run EvaluationRead :=
      _ ← remote (CallFinalize evaluation_id)
            (λ l, evaluations_finalize dataup l evaluation_id);
      remote (CallGet evaluation_id) (λ l, evaluations_get dataup l evaluation_id) in
    (log (rest w1).2 = log w1 ++ [CallFinalize evaluation_id]
     ∧ ∃ e, (rest w1).1 = Raised e)
    ∨ log (rest w1).2 = log w1 ++ [CallFinalize evaluation_id; CallGet evaluation_id])
    as Hrest.
  { intros w1. cbv zeta. rewrite bind_outcome, remote_outcome.
    destruct (evaluations_finalize dataup (log w1) evaluation_id) as [[] | e].
    - right. rewrite remote_outcome.
      destruct (evaluations_get dataup _ evaluation_id); simpl;
        by rewrite <- (assoc_L (++)).
    - left. split; [done | by exists e]. }
  destruct (Runner.current_batch st) as [| frame_data batch].
  - destruct (Hrest w) as [[Hlog Hout] | Hlog]; cbv zeta in *.
    + exists [CallFinalize evaluation_id]. split; [done |]. right.
      split; [done |]. by left.
    + exists [CallFinalize evaluation_id; CallGet evaluation_id].
      split; [done |]. right. split; [done |]. by right.
  - rewrite remote_outcome.
    destruct (evaluations_ingest_batch dataup (log w) evaluation_id
                (frame_data :: batch)) as [[] | e] eqn:Hanswer.
    + destruct (Hrest (record_call (CallIngest evaluation_id (frame_data :: batch)) w))
        as [[Hlog Hout] | Hlog]; cbv zeta in *.
      * exists [CallIngest evaluation_id (frame_data :: batch);
                CallFinalize evaluation_id].
        split; [by rewrite Hlog; simpl; rewrite <- (assoc_L (++)) |]. right.
        split; [by simpl |]. by left.
      * exists [CallIngest evaluation_id (frame_data :: batch);
                CallFinalize evaluation_id; CallGet evaluation_id].
        split; [by rewrite Hlog; simpl; rewrite <- (assoc_L (++)) |]. right.
        split; [by simpl |]. by right.
    + exists [CallIngest evaluation_id (frame_data :: batch)].
      split; [done |]. left. by exists e.
Qed.

End Outcomes.

(** X17: when the first pass raises, the run raises the same exception
    with no call made on the evaluation service; when the total it counts
    is negative, the run raises a validation error, again with no call
    made: no evaluation is created. *)
Theorem nothing_sent_without_total (dataup : DataUpService) (cvat : CVATServer)
    (provider : Inference) (fuel : nat) (task_id : Z)
    (agent_id agent_name agent_version : option string) (job_ids : option (list Z))
    (conf iou : Q) (batch_size : Z) (w : world) :
  (∀ e w1,
     Runner.first_pass cvat fuel task_id (list_to_set <$> job_ids) w = (Raised e, w1) →
     Runner.run_and_submit dataup cvat provider fuel task_id agent_id agent_name
       agent_version job_ids conf iou batch_size w = (Raised e, w))
  ∧ (∀ total w1,
       Runner.first_pass cvat fuel task_id (list_to_set <$> job_ids) w
       = (Returned total, w1) →
       total < 0 →
       Runner.run_and_submit dataup cvat provider fuel task_id agent_id agent_name
         agent_version job_ids conf iou batch_size w = (Raised ValidationError, w)).
Proof.
  pose proof (first_pass_world cvat fuel task_id (list_to_set <$> job_ids) w) as Hw.
  split.
  - intros e w1 Hfirst. rewrite Hfirst in Hw. simpl in Hw. subst w1.
    unfold Runner.run_and_submit. rewrite bind_outcome. by rewrite Hfirst.
  - intros total w1 Hfirst Hneg. rewrite Hfirst in Hw. simpl in Hw. subst w1.
    unfold Runner.run_and_submit. rewrite bind_outcome, Hfirst.
    rewrite bind_outcome. unfold new_EvaluationCreate.
    rewrite (bool_decide_eq_false_2 (0 ≤ total)) by lia.
    by rewrite andb_false_r.
Qed.

Lemma nothing_sent_without_total_witness :
  Runner.run_and_submit Scenario.dataup Scenario.inverted_cvat Scenario.provider 5 1
    None (Some "yolo") (Some "1.0.0") (Some [12]) 0%Q (1 # 2)%Q 2 Scenario.fresh
  = (Raised ValidationError, Scenario.fresh).
Proof.
  apply (proj2 (nothing_sent_without_total Scenario.dataup Scenario.inverted_cvat
                  Scenario.provider 5 1 None (Some "yolo") (Some "1.0.0") (Some [12])
                  0%Q (1 # 2)%Q 2 Scenario.fresh) (-1) Scenario.fresh).
  - vm_compute. reflexivity.
  - lia.
Defined.

Section Finalize.
Context (dataup : DataUpService).

Lemma refused_last_unique (base calls : list call) (e e' : exn) :
  refused_last dataup base calls e → refused_last dataup base calls e' → e = e'.
Proof.
  intros (before & id & frames & -> & _ & Href) (before' & id' & frames' & Heq & _ & Href').
  apply app_inj_tail in Heq as [<- [= <- <-]]. congruence.
Qed.

Lemma remainder_batches (evaluation_id : string) (st : Runner.progress) :
  concat (batches (remainder_call evaluation_id st)) = Runner.current_batch st
  ∧ finalize_calls (remainder_call evaluation_id st) = 0%nat
  ∧ created_totals (remainder_call evaluation_id st) = [].
Proof.
  unfold remainder_call. destruct (Runner.current_batch st); [done |].
  simpl. by rewrite app_nil_r.
Qed.

End Finalize.

(** X18: however a run ends (returning, raising, or with the pagination
    still going), it creates at most one evaluation and makes at most one
    finalize call.  When it has made one, the traversal of the jobs ran
    to its end, the record of every frame of the jobs in scope was built
    and ingested, in order, and the service accepted every ingestion
    call; a run that returns has made it.  The service refuses no
    ingestion call but, possibly, the last call of the run.  A run that
    fails on an ingestion (the service refuses the call, which then is
    the last of the log) raises the exception of the refusal, and a run
    whose loops over the jobs and frames do not return (a frame fails, an
    ingestion in the loops is refused, or the pagination is still going)
    ends as the loops did, with the log the loops left: both leave the
    evaluation without a finalize call. *)
Theorem finalize_only_when_complete (dataup : DataUpService) (cvat : CVATServer)
    (provider : Inference) (fuel : nat) (task_id : Z)
    (agent_id agent_name agent_version : option string) (job_ids : option (list Z))
    (conf iou : Q) (batch_size : Z) (w : world) :
  ∃ calls,
    log (Runner.run_and_submit dataup cvat provider fuel task_id agent_id agent_name
           agent_version job_ids conf iou batch_size w).2 = log w ++ calls
    ∧ (finalize_calls calls ≤ 1)%nat
    ∧ (length (created_totals calls) ≤ 1)%nat
    ∧ (finalize_calls calls = 1%nat →
       gen_end (Jobs.iter_jobs_with_annotations cvat fuel task_id) = Finished
       ∧ Forall2 (work_record provider conf iou)
           (scoped_work cvat (list_to_set <$> job_ids)
              (yields (Jobs.iter_jobs_with_annotations cvat fuel task_id)))
           (concat (batches calls))
       ∧ record_ids (concat (batches calls)) = frames_in_scope cvat fuel task_id job_ids
       ∧ accepted dataup (log w) calls)
    ∧ (∀ res,
         (Runner.run_and_submit dataup cvat provider fuel task_id agent_id agent_name
            agent_version job_ids conf iou batch_size w).1 = Returned res →
         finalize_calls calls = 1%nat)
    ∧ (accepted dataup (log w) calls ∨ ∃ e, refused_last dataup (log w) calls e)
    ∧ (∀ e, refused_last dataup (log w) calls e →
         (Runner.run_and_submit dataup cvat provider fuel task_id agent_id agent_name
            agent_version job_ids conf iou batch_size w).1 = Raised e
         ∧ finalize_calls calls = 0%nat)
    ∧ (∀ o w',
         loops_end dataup cvat provider fuel task_id agent_id agent_name agent_version
           job_ids conf iou batch_size w o w' →
         (∀ st, o ≠ Returned st) →
         (Runner.run_and_submit dataup cvat provider fuel task_id agent_id agent_name
            agent_version job_ids conf iou batch_size w) = (stopped o, w')
         ∧ log w' = log w ++ calls
         ∧ finalize_calls calls = 0%nat).
Proof.
  unfold loops_end, Runner.run_and_submit. rewrite bind_outcome.
  pose proof (first_pass_world cvat fuel task_id (list_to_set <$> job_ids) w) as Hw.
  assert (∀ e, ¬ refused_last dataup (log w) [] e) as Hnone.
  { intros e (before & ? & ? & Heq & _). by destruct before. }
  destruct (Runner.first_pass cvat fuel task_id (list_to_set <$> job_ids) w)
    as [[total | e |] w1] eqn:Hfirst; simpl in Hw; subst w1.
  2, 3: exists []; rewrite app_nil_r;
    (split_and!;
     [done | unfold finalize_calls; simpl; lia | simpl; lia | done | done | by left
     | intros e' Hlast; by destruct (Hnone _ Hlast)
     | by intros o w' (? & ? & ? & [=] & _)]).
  rewrite bind_outcome, lift_outcome.
  destruct (new_EvaluationCreate agent_id task_id agent_name agent_version total)
    as [evaluation | e] eqn:Hcreate.
  2: { exists []. rewrite app_nil_r.
       split_and!;
         [done | unfold finalize_calls; simpl; lia | simpl; lia | done | done | by left
         | intros e' Hlast; by destruct (Hnone _ Hlast) |].
       intros o w' (? & ? & ? & [= <-] & Hc & _). congruence. }
  rewrite bind_outcome, remote_outcome.
  destruct (evaluations_create dataup (log w) evaluation) as [evaluation_id | e]
    eqn:Hid.
  2: { exists [CallCreate evaluation].
       split_and!;
         [done | unfold finalize_calls; simpl; lia | simpl; lia | done | done | by left
         | | ].
       - intros e' (before & ? & ? & Heq & _). by destruct before as [| ? [| ? ?]].
       - intros o w' (? & ? & ? & [= <-] & Hc & Hi & _). congruence. }
  assert (∀ (o : outcome Runner.progress) w',
            (∃ total_frames evaluation' evaluation_id',
               (Returned total, w) = (Returned total_frames, w)
               ∧ new_EvaluationCreate agent_id task_id agent_name agent_version
                   total_frames = Ok evaluation'
               ∧ evaluations_create dataup (log w) evaluation' = Ok evaluation_id'
               ∧ Runner.second_pass dataup cvat provider fuel task_id
                   (list_to_set <$> job_ids) evaluation_id' total_frames batch_size
                   conf iou (record_call (CallCreate evaluation') w) = (o, w')) →
            Runner.second_pass dataup cvat provider fuel task_id
              (list_to_set <$> job_ids) evaluation_id total batch_size conf iou
              (record_call (CallCreate evaluation) w) = (o, w')) as Hloops.
  { intros o w' (? & ? & ? & [= <-] & Hc & Hi & Hs).
    rewrite Hcreate in Hc. injection Hc as <-.
    rewrite Hid in Hi. by injection Hi as <-. }
  rewrite bind_outcome.
  set (w1 := record_call (CallCreate evaluation) w) in *.
  assert (log w1 = log w ++ [CallCreate evaluation]) as Hw1 by done.
  destruct (quiet_second_pass dataup cvat provider fuel task_id
              (list_to_set <$> job_ids) evaluation_id total batch_size conf iou w1)
    as (calls & Hlog & Hfin & Hcre).
  destruct (checked_second_pass dataup cvat provider fuel task_id
              (list_to_set <$> job_ids) evaluation_id total batch_size conf iou w1)
    as (calls' & Hlog' & Hchecked).
  assert (calls' = calls) as -> by (eapply app_inv_head; by rewrite <- Hlog, <- Hlog').
  clear Hlog'. rewrite Hw1 in Hchecked.
  assert (∀ l, finalize_calls (CallCreate evaluation :: l) = finalize_calls l)
    as Hskip by done.
  assert (∀ l, accepted dataup (log w ++ [CallCreate evaluation]) l →
               accepted dataup (log w) (CallCreate evaluation :: l)) as Hacc1
    by (intros l Hl; by split).
  assert (∀ l e, refused_last dataup (log w ++ [CallCreate evaluation]) l e →
                 refused_last dataup (log w) (CallCreate evaluation :: l) e) as Href1.
  { intros l e. by apply (refused_last_app dataup (log w) [CallCreate evaluation]). }
  destruct (Runner.second_pass dataup cvat provider fuel task_id
              (list_to_set <$> job_ids) evaluation_id total batch_size conf iou w1)
    as [[st | e |] w2] eqn:Hsecond; simpl in Hlog, Hchecked.
  2, 3: exists (CallCreate evaluation :: calls);
    (split_and!;
     [etrans; [exact Hlog |]; by rewrite <- (assoc_L (++))
     | rewrite Hskip, Hfin; lia
     | cbn [created_totals]; rewrite Hcre; simpl; lia
     | by rewrite Hskip, Hfin
     | done
     | destruct Hchecked as [Hacc | (e0 & Hlast & _)];
       [left; by apply Hacc1 | right; exists e0; by apply Href1]
     | intros e' Hlast'; destruct Hchecked as [Hacc | (e0 & Hlast & Hout)];
       [destruct (accepted_not_refused dataup _ _ _ (Hacc1 _ Hacc) Hlast')
       | rewrite (refused_last_unique dataup _ _ _ _ Hlast' (Href1 _ _ Hlast));
         split; [simpl; congruence | by rewrite Hskip]]
     | intros o w' Hl%Hloops _; injection Hl as <- <-;
       split_and!; [done | by rewrite Hlog, <- (assoc_L (++)) | by rewrite Hskip]]).
  destruct Hchecked as [Haccepted | (e & _ & ?)]; [| done].
  unfold Runner.second_pass in Hsecond.
  apply for_gen_returned in Hsecond as [Hend Hloop].
  apply jobs_loop_replay in Hloop as (records & Hrecords & Hreplay & Hst).
  assert (calls = (replay (bool_decide (is_Some (progress_callback provider)))
                     evaluation_id total batch_size
                     {| Runner.processed_frames := 0; Runner.current_batch := [] |}
                     records).1) as Hcalls.
  { apply (app_inv_head (log w ++ [CallCreate evaluation])). rewrite <- Hlog.
    exact Hreplay. }
  pose proof (replay_records evaluation_id total batch_size
                (bool_decide (is_Some (progress_callback provider)))
                {| Runner.processed_frames := 0; Runner.current_batch := [] |}
                records) as Hall.
  rewrite <- Hcalls, <- Hst in Hall. simpl in Hall.
  destruct (remainder_batches evaluation_id st) as (Hrem & Hremfin & Hremcre).
  assert (Forall2 (work_record provider conf iou)
            (scoped_work cvat (list_to_set <$> job_ids)
               (yields (Jobs.iter_jobs_with_annotations cvat fuel task_id)))
            (concat (batches calls) ++ Runner.current_batch st)) as Hwork
    by (by rewrite Hall).
  assert (record_ids (concat (batches calls) ++ Runner.current_batch st)
          = frames_in_scope cvat fuel task_id job_ids) as Hids.
  { rewrite (work_records_ids _ _ _ _ _ Hwork).
    unfold frames_in_scope, jobs_in_scope. apply scoped_work_ids. }
  assert (∀ l, batches l = [] →
            concat (batches (CallCreate evaluation
                             :: calls ++ remainder_call evaluation_id st ++ l))
            = concat (batches calls) ++ Runner.current_batch st) as Hsent.
  { intros l Hl. cbn [batches].
    by rewrite !batches_app, !concat_app, Hrem, Hl, app_nil_r. }
  assert (∀ l, finalize_calls (CallCreate evaluation
                               :: calls ++ remainder_call evaluation_id st ++ l)
               = finalize_calls l) as Hcount.
  { intros l. by rewrite Hskip, !finalize_calls_app, Hfin, Hremfin. }
  assert (∀ l, (length (created_totals (CallCreate evaluation :: calls ++ l)) ≤ 1)%nat
               ↔ created_totals l = []) as Hone.
  { intros l. cbn [created_totals]. rewrite created_totals_app, Hcre. simpl.
    destruct (created_totals l); simpl; split; (done || lia). }
  destruct (closing_shape dataup evaluation_id st w2) as (tail & Htail & Hshape).
  cbv zeta in Htail, Hshape.
  exists (CallCreate evaluation :: calls ++ tail).
  split; [etrans; [exact Htail |]; rewrite Hlog; by rewrite <- !(assoc_L (++)) |].
  destruct Hshape as [(e & -> & Hrefused & Hout) | [Hrem_ok [[-> [e Hout]] | ->]]].
  - (* the service refuses the remainder *)
    assert (refused_last dataup (log w)
              (CallCreate evaluation :: calls
               ++ [CallIngest evaluation_id (Runner.current_batch st)]) e) as Hlast.
    { exists (CallCreate evaluation :: calls), evaluation_id, (Runner.current_batch st).
      split_and!; [done | by apply Hacc1 |].
      change (log w ++ CallCreate evaluation :: calls)
        with (log w ++ [CallCreate evaluation] ++ calls).
      by rewrite (assoc_L (++)), <- Hlog. }
    assert (finalize_calls (CallCreate evaluation :: calls
              ++ [CallIngest evaluation_id (Runner.current_batch st)]) = 0%nat)
      as Hzero by (by rewrite Hskip, finalize_calls_app, Hfin).
    split_and!;
      [lia | by apply Hone | by rewrite Hzero
      | intros res Hres; by pose proof (eq_trans (eq_sym Hout) Hres)
      | right; by exists e
      | intros e' Hlast'; split; [| done];
        by rewrite (refused_last_unique dataup _ _ _ _ Hlast' Hlast)
      | intros o w' Hl%Hloops Hnot; injection Hl as <- <-; by destruct (Hnot st)].
  - (* the finalize call is made and refused *)
    assert (accepted dataup (log w)
              (CallCreate evaluation :: calls ++ remainder_call evaluation_id st
               ++ [CallFinalize evaluation_id])) as Hall_ok.
    { apply Hacc1, accepted_app. split; [done |]. rewrite <- Hlog.
      apply accepted_app. split; [done |]. apply accepted_feeds.
      by repeat constructor. }
    split_and!;
      [by rewrite Hcount
      | apply Hone; by rewrite created_totals_app, Hremcre
      | intros _; split_and!; [done | by rewrite Hsent | by rewrite Hsent | done]
      | intros res _; by rewrite Hcount
      | by left
      | intros e' Hlast'; destruct (accepted_not_refused dataup _ _ _ Hall_ok Hlast')
      | intros o w' Hl%Hloops Hnot; injection Hl as <- <-; by destruct (Hnot st)].
  - (* the finalize call is made, and the evaluation is read *)
    assert (accepted dataup (log w)
              (CallCreate evaluation :: calls ++ remainder_call evaluation_id st
               ++ [CallFinalize evaluation_id; CallGet evaluation_id])) as Hall_ok.
    { apply Hacc1, accepted_app. split; [done |]. rewrite <- Hlog.
      apply accepted_app. split; [done |]. apply accepted_feeds.
      by repeat constructor. }
    split_and!;
      [by rewrite Hcount
      | apply Hone; by rewrite created_totals_app, Hremcre
      | intros _; split_and!; [done | by rewrite Hsent | by rewrite Hsent | done]
      | intros res _; by rewrite Hcount
      | by left
      | intros e' Hlast'; destruct (accepted_not_refused dataup _ _ _ Hall_ok Hlast')
      | intros o w' Hl%Hloops Hnot; injection Hl as <- <-; by destruct (Hnot st)].
Qed.

Lemma finalize_only_when_complete_witness :
  ((Flaky.run_it 3).1 = Raised (APIError 500)
   ∧ finalize_calls (log (Flaky.run_it 3).2) = 0%nat)
  ∧ ((Scenario.run_it Scenario.broken_provider 2).1 = Raised InferenceError
     ∧ finalize_calls (log (Scenario.run_it Scenario.broken_provider 2).2) = 0%nat).
Proof.
  split.
  - destruct (finalize_only_when_complete Flaky.dataup Scenario.cvat Scenario.provider
                5 1 None (Some "yolo") (Some "1.0.0") None 0%Q (1 # 2)%Q 3
                Scenario.fresh)
      as (calls & Hlog & _ & _ & _ & _ & _ & Hrefused & _).
    change (log (Flaky.run_it 3).2 = calls) in Hlog. subst calls.
    apply (Hrefused (APIError 500)).
    exists (removelast (log (Flaky.run_it 3).2)), "ev-1",
      (default [] (last (batches (log (Flaky.run_it 3).2)))).
    split_and!; [vm_compute; reflexivity | vm_compute; tauto | vm_compute; reflexivity].
  - destruct (finalize_only_when_complete Scenario.dataup Scenario.cvat
                Scenario.broken_provider 5 1 None (Some "yolo") (Some "1.0.0") None
                0%Q (1 # 2)%Q 2 Scenario.fresh)
      as (calls & Hlog & _ & _ & _ & _ & _ & _ & Hloops).
    change (log (Scenario.run_it Scenario.broken_provider 2).2 = calls) in Hlog.
    subst calls.
    destruct (Hloops (Raised InferenceError)
                (Scenario.run_it Scenario.broken_provider 2).2) as (Hrun & _ & Hzero).
    + eexists _, _, _. split_and!; [lazy; reflexivity ..].
    + done.
    + split; [| exact Hzero]. exact (f_equal fst Hrun).
Defined.

(** ** The runner: what a frame record holds *)

Section GroundTruth.
Context (cvat : CVATServer).










End GroundTruth.



(** ** [TasksResource]: annotations and frames of a task *)

Section TaskAnnotations.
Context (srv : Tasks.TaskEndpoints).

Lemma set_frames_lookup (m : gmap Z Z) (v : Z) (l : list Z) (f : Z) :
  foldl (λ m f', <[f' := v]> m) m l !! f = if decide (f ∈ l) then Some v else m !! f.
Proof.
  revert m. induction l as [| a l IH]; intros m.
  - rewrite decide_False; [done | by intros ?%elem_of_nil].
  - cbn [foldl]. rewrite IH.
    destruct (decide (f ∈ l)) as [Hin | Hnot].
    + by rewrite decide_True by (by right).
    + destruct (decide (f = a)) as [-> | Hne].
      * rewrite lookup_insert_eq. by rewrite decide_True by (by left).
      * rewrite lookup_insert_ne by done.
        rewrite decide_False; [done |]. by intros [? | ?]%elem_of_cons.
Qed.

(** The mapping sends a frame to the last listed job whose range holds
    it. *)
Lemma frame_to_job_lookup (results : list Tasks.JobRange) (f : Z) :
  Tasks.frame_to_job results !! f
  = (js_id ∘ Tasks.jr_summary) <$> last (filter (Tasks.covers f) results).
Proof.
  unfold Tasks.frame_to_job.
  assert (∀ m : gmap Z Z,
            foldl (λ frame_to_job job_summary,
                     foldl (λ frame_to_job frame_id,
                              <[frame_id := js_id (Tasks.jr_summary job_summary)]>
                                frame_to_job)
                       frame_to_job
                       (py_range (Tasks.jr_start_frame job_summary)
                          (Tasks.jr_stop_frame job_summary + 1)))
              m results !! f
            = match last (filter (Tasks.covers f) results) with
              | Some job => Some (js_id (Tasks.jr_summary job))
              | None => m !! f
              end) as Hfold.
  { induction results as [| job results IH]; intros m; [done |].
    cbn [foldl]. rewrite IH, set_frames_lookup.
    destruct (decide (Tasks.covers f job)) as [Hcovers | Hnot].
    - rewrite filter_cons_True by done. rewrite last_cons.
      destruct (last (filter (Tasks.covers f) results)); [done |].
      rewrite decide_True; [done |].
      apply elem_of_py_range. unfold Tasks.covers in Hcovers. lia.
    - rewrite filter_cons_False by done.
      destruct (last (filter (Tasks.covers f) results)); [done |].
      rewrite decide_False; [done |].
      intros Hin%elem_of_py_range. apply Hnot. unfold Tasks.covers. lia. }
  rewrite Hfold. destruct (last _); [done | apply lookup_empty].
Qed.

Lemma first_seen_snoc (l : list Z) (x : Z) :
  Tasks.first_seen (l ++ [x])
  = if decide (x ∈ Tasks.first_seen l) then Tasks.first_seen l
    else Tasks.first_seen l ++ [x].
Proof. unfold Tasks.first_seen. by rewrite foldl_app. Qed.

Lemma first_seen_elem (l : list Z) (x : Z) : x ∈ Tasks.first_seen l ↔ x ∈ l.
Proof.
  induction l as [| y l IH] using rev_ind; [done |].
  rewrite first_seen_snoc, elem_of_app, list_elem_of_singleton.
  destruct (decide (y ∈ Tasks.first_seen l)) as [Hin | Hnot].
  - split; [tauto |]. intros [? | ->]; [tauto | done].
  - rewrite elem_of_app, list_elem_of_singleton. tauto.
Qed.

Lemma first_seen_NoDup (l : list Z) : NoDup (Tasks.first_seen l).
Proof.
  induction l as [| y l IH] using rev_ind; [constructor |].
  rewrite first_seen_snoc.
  destruct (decide (y ∈ Tasks.first_seen l)) as [Hin | Hnot]; [done |].
  apply NoDup_app. split_and!; [done | | apply NoDup_singleton].
  intros x Hx ->%list_elem_of_singleton. done.
Qed.

(** One step of the grouping loop on a dict given by its keys. *)
Lemma add_shape_fmap (D : Z → list ShapeDict) (ks : list Z) (f : Z) (d : ShapeDict) :
  NoDup ks →
  (f ∉ ks → D f = []) →
  Tasks.add_shape ((λ k, (k, D k)) <$> ks) f d
  = (λ k, (k, if decide (k = f) then D k ++ [d] else D k))
      <$> (if decide (f ∈ ks) then ks else ks ++ [f]).
Proof.
  induction ks as [| k ks IH]; intros Hnodup Hempty.
  - rewrite decide_False by (by intros ?%elem_of_nil). simpl.
    rewrite decide_True by done. rewrite Hempty by (by intros ?%elem_of_nil). done.
  - apply NoDup_cons in Hnodup as [Hk Hnodup]. rewrite fmap_cons. cbn [Tasks.add_shape].
    destruct (decide (k = f)) as [-> | Hne].
    + rewrite decide_True by (by left). rewrite fmap_cons, decide_True by done.
      f_equal. apply list_fmap_ext. intros i k' Hk'.
      rewrite decide_False; [done |]. intros ->.
      by apply list_elem_of_lookup_2 in Hk'.
    + rewrite IH; [| done | intros Hnot; apply Hempty; by intros [? | ?]%elem_of_cons].
      destruct (decide (f ∈ ks)) as [Hin | Hnot].
      * rewrite decide_True by (by right). rewrite fmap_cons.
        by rewrite (decide_False (P := k = f)) by done.
      * rewrite decide_False by (by intros [? | ?]%elem_of_cons).
        rewrite <- app_comm_cons, fmap_cons.
        by rewrite (decide_False (P := k = f)) by done.
Qed.

(** The grouping loop: an item per distinct frame, in the order in which
    the frames first appear, each with the shapes of the frame in their
    order. *)
Lemma group_in_order_spec (l : list Shape) :
  Tasks.group_in_order l
  = (λ f, (f, model_dump <$> filter (λ s, frame s = f) l))
      <$> Tasks.first_seen (frame <$> l).
Proof.
  induction l as [| s l IH] using rev_ind; [done |].
  unfold Tasks.group_in_order in *. rewrite foldl_app. cbn [foldl]. rewrite IH.
  rewrite fmap_app. cbn [fmap list_fmap]. rewrite first_seen_snoc.
  rewrite add_shape_fmap; [| apply first_seen_NoDup |].
  - apply list_fmap_ext. intros i k _. f_equal.
    rewrite filter_app, fmap_app.
    destruct (decide (k = frame s)) as [-> | Hne].
    + by rewrite filter_cons_True by done.
    + rewrite filter_cons_False by (by intros ?). simpl. by rewrite app_nil_r.
  - intros Hnot. rewrite first_seen_elem in Hnot.
    destruct (filter (λ s', frame s' = frame s) l) as [| s' l'] eqn:Hfilter; [done |].
    exfalso. apply Hnot.
    assert (s' ∈ filter (λ s', frame s' = frame s) l) as Hs'
      by (rewrite Hfilter; by left).
    apply list_elem_of_filter in Hs' as [<- Hs']. by apply list_elem_of_fmap_2.
Qed.

Lemma omap_fmap {A B C} (f : A → B) (g : B → option C) (l : list A) :
  omap g (f <$> l) = omap (λ a, g (f a)) l.
Proof.
  induction l as [| a l IH]; [done |].
  rewrite fmap_cons. simpl. destruct (g (f a)); [f_equal |]; exact IH.
Qed.

Lemma omap_eq {A B} (f g : A → option B) (l : list A) :
  (∀ a, f a = g a) → omap f l = omap g l.
Proof.
  intros Hfg. induction l as [| a l IH]; [done |].
  simpl. rewrite Hfg. destruct (g a); [f_equal |]; exact IH.
Qed.

(** The job given to a frame, from the listing alone. *)
Lemma assign_job_spec (results : list Tasks.JobRange) (task : Tasks.Task) (f : Z) :
  Tasks.t_jobs task = results →
  Tasks.assign_job (Tasks.frame_to_job results) task f
  = match last (filter (Tasks.covers f) results) with
    | Some job => Some (js_id (Tasks.jr_summary job))
    | None => (js_id ∘ Tasks.jr_summary) <$> head results
    end.
Proof.
  intros <-. unfold Tasks.assign_job. rewrite frame_to_job_lookup.
  destruct (last _); [done |]. simpl. by destruct (Tasks.t_jobs task).
Qed.

(** What [get_annotations] returns, in full. *)
Lemma task_annotations_spec (task_id : Z) (frame_labels_list : list FrameLabels) :
  Tasks.get_annotations srv task_id = Ok frame_labels_list →
  ∃ annotations cvat_labels response,
    Tasks.tasks_annotations srv task_id = Ok annotations
    ∧ Tasks.tasks_labels srv task_id = Ok cvat_labels
    ∧ Tasks.jobs_listing srv task_id 1 1000 = Ok response
    ∧ frame_labels_list
      = omap (λ f,
                match last (filter (Tasks.covers f) (pr_results response)) with
                | Some job => Some (js_id (Tasks.jr_summary job))
                | None => (js_id ∘ Tasks.jr_summary) <$> head (pr_results response)
                end
                ≫= λ job_id,
                  Some {| fl_frame_id := f; fl_job_id := job_id;
                          fl_labels :=
                            Jobs.convert_shapes cvat_labels
                              (model_dump <$> filter (λ s, frame s = f)
                                                (shapes annotations)) |})
          (Tasks.first_seen (frame <$> shapes annotations)).
Proof.
  unfold Tasks.get_annotations.
  intros (annotations & Hann & H)%bind_ok.
  apply bind_ok in H as (task & Htask & H).
  apply bind_ok in H as (cvat_labels & Hlabels & H).
  apply bind_ok in H as (response & Hlisting & H).
  unfold Tasks.get in Htask.
  apply bind_ok in Htask as (read & _ & Htask).
  apply bind_ok in Htask as (response' & Hlisting' & Htask).
  rewrite Hlisting in Hlisting'. injection Hlisting' as <-.
  injection Htask as <-. injection H as <-.
  exists annotations, cvat_labels, response.
  split_and!; [done | done | done |].
  rewrite group_in_order_spec, omap_fmap. apply omap_eq. intros f.
  rewrite (assign_job_spec (pr_results response)) by done.
  by destruct (last _) as [job |]; [| destruct (head _)].
Qed.

End TaskAnnotations.

Section TaskEntries.
Context (srv : Tasks.TaskEndpoints) (task_id : Z).
Context (read : Tasks.Task) (annotations : Annotations) (cvat_labels : list CVATLabel).
Context (response : PaginatedResponse Tasks.JobRange).
Hypothesis Hread : Tasks.tasks_read srv task_id = Ok read.
Hypothesis Hannotations : Tasks.tasks_annotations srv task_id = Ok annotations.
Hypothesis Hlabels : Tasks.tasks_labels srv task_id = Ok cvat_labels.
Hypothesis Hlisting : Tasks.jobs_listing srv task_id 1 1000 = Ok response.

Lemma task_get_value :
  Tasks.get srv task_id
  = Ok {| Tasks.t_id := Tasks.t_id read; Tasks.t_name := Tasks.t_name read;
          Tasks.t_jobs := pr_results response |}.
Proof. unfold Tasks.get. by rewrite Hread, Hlisting. Qed.

(** [get_annotations] when the listing is empty, and when it is not. *)
Lemma task_annotations_unlisted :
  pr_results response = [] → Tasks.get_annotations srv task_id = Ok [].
Proof.
  intros Hnone.
  destruct (Tasks.get_annotations srv task_id) as [fll | e] eqn:Hget.
  - apply task_annotations_spec in Hget
      as (annotations' & cvat_labels' & response' & Ha & Hl & Hr & ->).
    rewrite Hlisting in Hr. injection Hr as <-. rewrite Hnone.
    f_equal. by induction (Tasks.first_seen _) as [| f ks IH].
  - unfold Tasks.get_annotations in Hget.
    by rewrite Hannotations, task_get_value, Hlabels, Hlisting in Hget.
Qed.

Lemma task_annotations_listed (first : Tasks.JobRange) (rest : list Tasks.JobRange) :
  pr_results response = first :: rest →
  Tasks.get_annotations srv task_id
  = Ok ((λ f, {| fl_frame_id := f;
                 fl_job_id :=
                   match last (filter (Tasks.covers f) (first :: rest)) with
                   | Some job => js_id (Tasks.jr_summary job)
                   | None => js_id (Tasks.jr_summary first)
                   end;
                 fl_labels :=
                   Jobs.convert_shapes cvat_labels
                     (model_dump <$> filter (λ s, frame s = f) (shapes annotations)) |})
          <$> Tasks.first_seen (frame <$> shapes annotations)).
Proof.
  intros Hsome.
  destruct (Tasks.get_annotations srv task_id) as [fll | e] eqn:Hget.
  - apply task_annotations_spec in Hget
      as (annotations' & cvat_labels' & response' & Ha & Hl & Hr & ->).
    rewrite Hlisting in Hr. injection Hr as <-.
    rewrite Hannotations in Ha. injection Ha as <-.
    rewrite Hlabels in Hl. injection Hl as <-.
    rewrite Hsome. f_equal.
    induction (Tasks.first_seen _) as [| f ks IH]; [done |].
    rewrite fmap_cons, <- IH. simpl.
    by destruct (last (filter (Tasks.covers f) (first :: rest))).
  - unfold Tasks.get_annotations in Hget.
    by rewrite Hannotations, task_get_value, Hlabels, Hlisting in Hget.
Qed.

Lemma find_entry (entry : Z → FrameLabels) (ks : list Z) (f : Z) :
  (∀ k, fl_frame_id (entry k) = k) →
  find (λ fl, bool_decide (fl_frame_id fl = f)) (entry <$> ks)
  = if decide (f ∈ ks) then Some (entry f) else None.
Proof.
  intros Hkey. induction ks as [| k ks IH].
  - rewrite decide_False; [done | by intros ?%elem_of_nil].
  - rewrite fmap_cons. cbn [find]. rewrite Hkey.
    destruct (decide (k = f)) as [-> | Hne].
    + rewrite bool_decide_eq_true_2 by done. by rewrite decide_True by (by left).
    + rewrite bool_decide_eq_false_2 by done. rewrite IH.
      destruct (decide (f ∈ ks)) as [Hin | Hnot].
      * by rewrite decide_True by (by right).
      * rewrite decide_False; [done |]. by intros [? | ?]%elem_of_cons.
Qed.

End TaskEntries.

(** X20: [TasksResource.get_annotations] returns an entry per distinct
    frame that carries a shape, in the order in which the frames first
    appear among the shapes (not sorted by frame), each with the labels of
    those shapes of the frame whose conversion returns, in their order.
    When the job listing of the task is empty, every frame is skipped and
    the result is empty, whatever the shapes. *)
Theorem task_annotations_first_seen (srv : Tasks.TaskEndpoints) (task_id : Z)
    (frame_labels_list : list FrameLabels) :
  Tasks.get_annotations srv task_id = Ok frame_labels_list →
  ∃ annotations cvat_labels response,
    Tasks.tasks_annotations srv task_id = Ok annotations
    ∧ Tasks.tasks_labels srv task_id = Ok cvat_labels
    ∧ Tasks.jobs_listing srv task_id 1 1000 = Ok response
    ∧ fl_frame_id <$> frame_labels_list
      = match pr_results response with
        | [] => []
        | _ :: _ => Tasks.first_seen (frame <$> shapes annotations)
        end
    ∧ NoDup (fl_frame_id <$> frame_labels_list)
    ∧ ∀ frame_labels, frame_labels ∈ frame_labels_list →
        fl_labels frame_labels
        = Jobs.convert_shapes cvat_labels
            (model_dump <$> filter (λ s, frame s = fl_frame_id frame_labels)
                              (shapes annotations)).
Proof.
  intros Hget.
  destruct (task_annotations_spec srv task_id _ Hget)
    as (annotations & cvat_labels & response & Ha & Hl & Hr & _).
  assert (∃ read, Tasks.tasks_read srv task_id = Ok read) as [read Hread].
  { unfold Tasks.get_annotations, Tasks.get in Hget. rewrite Ha in Hget.
    destruct (Tasks.tasks_read srv task_id) as [read |]; [eauto | done]. }
  exists annotations, cvat_labels, response. split_and!; [done | done | done | ..].
  - destruct (pr_results response) as [| first rest] eqn:Hresults.
    + rewrite (task_annotations_unlisted srv task_id read annotations cvat_labels
                 response Hread Ha Hl Hr Hresults) in Hget.
      by injection Hget as <-.
    + rewrite (task_annotations_listed srv task_id read annotations cvat_labels
                 response Hread Ha Hl Hr first rest Hresults) in Hget.
      injection Hget as <-. rewrite <- list_fmap_compose.
      etrans; [| apply list_fmap_id]. by apply list_fmap_ext.
  - destruct (pr_results response) as [| first rest] eqn:Hresults.
    + rewrite (task_annotations_unlisted srv task_id read annotations cvat_labels
                 response Hread Ha Hl Hr Hresults) in Hget.
      injection Hget as <-. constructor.
    + rewrite (task_annotations_listed srv task_id read annotations cvat_labels
                 response Hread Ha Hl Hr first rest Hresults) in Hget.
      injection Hget as <-. rewrite <- list_fmap_compose.
      eapply (eq_ind_r NoDup (first_seen_NoDup (frame <$> shapes annotations))).
      etrans; [| apply list_fmap_id]. by apply list_fmap_ext.
  - intros frame_labels Hin.
    destruct (pr_results response) as [| first rest] eqn:Hresults.
    + rewrite (task_annotations_unlisted srv task_id read annotations cvat_labels
                 response Hread Ha Hl Hr Hresults) in Hget.
      injection Hget as <-. by apply elem_of_nil in Hin.
    + rewrite (task_annotations_listed srv task_id read annotations cvat_labels
                 response Hread Ha Hl Hr first rest Hresults) in Hget.
      injection Hget as <-.
      by apply list_elem_of_fmap in Hin as (f & -> & _).
Qed.

Lemma task_annotations_first_seen_witness :
  ∃ listed,
    Tasks.get_annotations Tasks.overlapping 1 = Ok listed
    ∧ fl_frame_id <$> listed = [5; 3; 9]
    ∧ length <$> (fl_labels <$> listed) = [2%nat; 1%nat; 1%nat]
    ∧ Tasks.get_annotations Tasks.unlisted 1 = Ok [].
Proof.
  destruct (Tasks.get_annotations Tasks.overlapping 1) as [listed | e] eqn:Hget;
    [| by vm_compute in Hget].
  destruct (Tasks.get_annotations Tasks.unlisted 1) as [none | e] eqn:Hnone;
    [| by vm_compute in Hnone].
  destruct (task_annotations_first_seen Tasks.overlapping 1 listed Hget)
    as (annotations & cvat_labels & response & Ha & Hl & Hr & Hids & _ & _).
  destruct (task_annotations_first_seen Tasks.unlisted 1 none Hnone)
    as (annotations' & cvat_labels' & response' & _ & _ & Hr' & Hids' & _ & _).
  injection Ha as <-. injection Hr as <-. injection Hr' as <-.
  exists listed. split; [done |]. split; [exact Hids |].
  split; [revert Hget; vm_compute; by intros [= <-] |].
  f_equal. by destruct none.
Defined.

(** X21: the job of an entry of [TasksResource.get_annotations] is the
    last job of the listing whose frame range holds the frame of the
    entry (where the ranges of two jobs overlap, the later job wins), and
    the first job of the listing when no range holds it. *)
Theorem task_annotations_job (srv : Tasks.TaskEndpoints) (task_id : Z)
    (frame_labels_list : list FrameLabels) :
  Tasks.get_annotations srv task_id = Ok frame_labels_list →
  ∃ response,
    Tasks.jobs_listing srv task_id 1 1000 = Ok response
    ∧ ∀ frame_labels, frame_labels ∈ frame_labels_list →
        match last (filter (Tasks.covers (fl_frame_id frame_labels))
                      (pr_results response)) with
        | Some job => fl_job_id frame_labels = js_id (Tasks.jr_summary job)
        | None =>
            ∃ first rest,
              pr_results response = first :: rest
              ∧ (∀ job, job ∈ pr_results response →
                   ¬ Tasks.covers (fl_frame_id frame_labels) job)
              ∧ fl_job_id frame_labels = js_id (Tasks.jr_summary first)
        end.
Proof.
  intros (annotations & cvat_labels & response & _ & _ & Hr & ->)%task_annotations_spec.
  exists response. split; [done |].
  intros frame_labels (f & _ & Hentry)%list_elem_of_omap.
  destruct (last (filter (Tasks.covers f) (pr_results response))) as [job |] eqn:Hlast;
    simpl in Hentry.
  - injection Hentry as <-. simpl. by rewrite Hlast.
  - destruct (pr_results response) as [| first rest] eqn:Hresults; [done |].
    simpl in Hentry. injection Hentry as <-. simpl. rewrite Hlast.
    exists first, rest. split_and!; [done | | done].
    intros job Hjob Hcovers.
    assert (job ∈ filter (Tasks.covers f) (first :: rest)) as Hin
      by (by apply list_elem_of_filter).
    apply last_None in Hlast. rewrite Hlast in Hin. by apply elem_of_nil in Hin.
Qed.

Lemma task_annotations_job_witness :
  ∃ listed,
    Tasks.get_annotations Tasks.overlapping 1 = Ok listed
    ∧ (∀ frame_labels, frame_labels ∈ listed → fl_frame_id frame_labels = 3 →
         fl_job_id frame_labels = 22)
    ∧ (∀ frame_labels, frame_labels ∈ listed → fl_frame_id frame_labels = 9 →
         fl_job_id frame_labels = 21).
Proof.
  destruct (Tasks.get_annotations Tasks.overlapping 1) as [listed | e] eqn:Hget;
    [| by vm_compute in Hget].
  destruct (task_annotations_job Tasks.overlapping 1 listed Hget)
    as (response & Hr & Hjobs).
  injection Hr as <-. exists listed. split; [done |].
  split; intros frame_labels Hin Hframe; specialize (Hjobs frame_labels Hin);
    rewrite Hframe in Hjobs; vm_compute in Hjobs.
  - exact Hjobs.
  - destruct Hjobs as (first & rest & [= <- <-] & _ & Hjob). exact Hjob.
Defined.

(** X22: with the task, its labels, its annotations and its job listing
    read, [TasksResource.get_frame_annotations] returns an entry for the
    frame asked for.  When the listing holds a job, its labels are those
    of the shapes of the frame; its job is the last listed job whose range
    holds the frame only when the frame carries a shape, and the first
    listed job otherwise.  When the listing is empty the entry has no
    label, whatever the shapes, and the job 0. *)
Theorem task_frame_annotations (srv : Tasks.TaskEndpoints) (task_id frame_id : Z)
    (read : Tasks.Task) (annotations : Annotations) (cvat_labels : list CVATLabel)
    (response : PaginatedResponse Tasks.JobRange) :
  Tasks.tasks_read srv task_id = Ok read →
  Tasks.tasks_annotations srv task_id = Ok annotations →
  Tasks.tasks_labels srv task_id = Ok cvat_labels →
  Tasks.jobs_listing srv task_id 1 1000 = Ok response →
  Tasks.get_frame_annotations srv task_id frame_id
  = Ok match pr_results response with
       | [] => {| fl_frame_id := frame_id; fl_job_id := 0; fl_labels := [] |}
       | first :: _ =>
           {| fl_frame_id := frame_id;
              fl_job_id :=
                if decide (frame_id ∈ frame <$> shapes annotations) then
                  match last (filter (Tasks.covers frame_id) (pr_results response)) with
                  | Some job => js_id (Tasks.jr_summary job)
                  | None => js_id (Tasks.jr_summary first)
                  end
                else js_id (Tasks.jr_summary first);
              fl_labels :=
                Jobs.convert_shapes cvat_labels
                  (model_dump <$> filter (λ s, frame s = frame_id)
                                    (shapes annotations)) |}
       end.
Proof.
  intros Hread Ha Hl Hr. unfold Tasks.get_frame_annotations.
  destruct (pr_results response) as [| first rest] eqn:Hresults.
  - rewrite (task_annotations_unlisted srv task_id read annotations cvat_labels
               response Hread Ha Hl Hr Hresults).
    simpl. rewrite (task_get_value srv task_id read response Hread Hr). simpl.
    by rewrite Hresults.
  - rewrite (task_annotations_listed srv task_id read annotations cvat_labels
               response Hread Ha Hl Hr first rest Hresults).
    cbn [mbind result_bind]. rewrite find_entry by done.
    destruct (decide (frame_id ∈ Tasks.first_seen (frame <$> shapes annotations)))
      as [Hin | Hnot].
    + rewrite decide_True by (by apply first_seen_elem). done.
    + rewrite first_seen_elem in Hnot. rewrite decide_False by done.
      rewrite (task_get_value srv task_id read response Hread Hr). simpl.
      rewrite Hresults. do 2 f_equal.
      destruct (filter (λ s, frame s = frame_id) (shapes annotations))
        as [| s l] eqn:Hfilter; [done |].
      exfalso. apply Hnot.
      assert (s ∈ filter (λ s, frame s = frame_id) (shapes annotations)) as Hs
        by (rewrite Hfilter; by left).
      apply list_elem_of_filter in Hs as [<- Hs]. by apply list_elem_of_fmap_2.
Qed.

Lemma task_frame_annotations_witness :
  ∃ shared empty unlisted,
    Tasks.get_frame_annotations Tasks.overlapping 1 3 = Ok shared
    ∧ Tasks.get_frame_annotations Tasks.overlapping 1 2 = Ok empty
    ∧ Tasks.get_frame_annotations Tasks.unlisted 1 3 = Ok unlisted
    ∧ fl_job_id shared = 22 ∧ fl_job_id empty = 21 ∧ fl_job_id unlisted = 0
    ∧ fl_labels unlisted = [].
Proof.
  eexists _, _, _.
  split; [exact (task_frame_annotations Tasks.overlapping 1 3 _ _ _ _
                   eq_refl eq_refl eq_refl eq_refl) |].
  split; [exact (task_frame_annotations Tasks.overlapping 1 2 _ _ _ _
                   eq_refl eq_refl eq_refl eq_refl) |].
  split; [exact (task_frame_annotations Tasks.unlisted 1 3 _ _ _ _
                   eq_refl eq_refl eq_refl eq_refl) |].
  vm_compute. done.
Defined.

Section TaskFrames.
Context (srv : Tasks.TaskEndpoints).

Lemma task_get_frame_id (task_id frame_id : Z) (frame_image : FrameImage) :
  Tasks.get_frame srv task_id frame_id = Ok frame_image →
  fi_frame_id frame_image = frame_id.
Proof.
  unfold Tasks.get_frame. intros ([content ctype] & _ & [= <-])%bind_ok. done.
Qed.

Lemma task_frames_prefix (task_id : Z) (frame_ids : list Z) :
  (fi_frame_id
     <$> yields (gen_of_results (Tasks.get_frame srv task_id <$> frame_ids)))
  `prefix_of` frame_ids.
Proof.
  induction frame_ids as [| frame_id frame_ids IH]; simpl; [done |].
  destruct (Tasks.get_frame srv task_id frame_id) as [frame_image | e] eqn:Hget; simpl.
  - rewrite (task_get_frame_id _ _ _ Hget). by apply prefix_cons.
  - apply prefix_nil.
Qed.

Lemma task_frames_all (task_id : Z) (frame_ids : list Z) :
  gen_end (gen_of_results (Tasks.get_frame srv task_id <$> frame_ids)) = Finished →
  fi_frame_id <$> yields (gen_of_results (Tasks.get_frame srv task_id <$> frame_ids))
  = frame_ids.
Proof.
  induction frame_ids as [| frame_id frame_ids IH]; simpl; [done |].
  destruct (Tasks.get_frame srv task_id frame_id) as [frame_image | e] eqn:Hget;
    simpl; [| done].
  intros Hend. f_equal; [by eapply task_get_frame_id | by apply IH].
Qed.

Lemma frames_asked_spec (meta : Tasks.TaskMeta) (start_frame stop_frame : option Z)
    (frame_id : Z) :
  frame_id ∈ Tasks.frames_asked meta start_frame stop_frame
  ↔ default (Tasks.tm_start_frame meta) start_frame ≤ frame_id
      ≤ default (Tasks.tm_stop_frame meta) stop_frame
    ∧ (frame_id ∉ Tasks.tm_deleted_frames meta).
Proof.
  unfold Tasks.frames_asked. rewrite list_elem_of_filter, elem_of_py_range.
  intuition lia.
Qed.

End TaskFrames.

(** X23: [TasksResource.iter_frames] yields frames in strictly ascending
    order, none of them deleted, all between the start and the stop asked
    for, the bounds of the task standing in for those not given; bounds
    given are taken as they are, also outside the range of the task.  When
    the generator runs to its end it has yielded every such frame. *)
Theorem task_iter_frames_bounds (srv : Tasks.TaskEndpoints) (task_id : Z)
    (start_frame stop_frame : option Z) (meta : Tasks.TaskMeta) :
  Tasks.tasks_data_meta srv task_id = Ok meta →
  StronglySorted Z.lt
    (fi_frame_id <$> yields (Tasks.iter_frames srv task_id start_frame stop_frame))
  ∧ (∀ frame_image,
       frame_image ∈ yields (Tasks.iter_frames srv task_id start_frame stop_frame) →
       default (Tasks.tm_start_frame meta) start_frame ≤ fi_frame_id frame_image
         ≤ default (Tasks.tm_stop_frame meta) stop_frame
       ∧ (fi_frame_id frame_image ∉ Tasks.tm_deleted_frames meta))
  ∧ (gen_end (Tasks.iter_frames srv task_id start_frame stop_frame) = Finished →
     ∀ frame_id,
       default (Tasks.tm_start_frame meta) start_frame ≤ frame_id
         ≤ default (Tasks.tm_stop_frame meta) stop_frame →
       frame_id ∉ Tasks.tm_deleted_frames meta →
       frame_id
       ∈ fi_frame_id <$> yields (Tasks.iter_frames srv task_id start_frame stop_frame)).
Proof.
  intros Hmeta. unfold Tasks.iter_frames. rewrite Hmeta.
  pose proof (task_frames_prefix srv task_id
                (Tasks.frames_asked meta start_frame stop_frame)) as Hpre.
  apply prefix_is_sublist in Hpre. split_and!.
  - eapply StronglySorted_sublist; [exact Hpre |].
    eapply StronglySorted_sublist; [apply sublist_filter | apply py_range_sorted].
  - intros frame_image Hin. apply frames_asked_spec.
    eapply elem_of_sublist; [| exact Hpre]. by apply list_elem_of_fmap_2.
  - intros Hend frame_id Hrange Hlive. rewrite task_frames_all by done.
    by apply frames_asked_spec.
Qed.

Lemma task_iter_frames_bounds_witness :
  fi_frame_id <$> yields (Tasks.iter_frames Tasks.overlapping 1 (Some 6) (Some 8))
  = [6; 7; 8]
  ∧ StronglySorted Z.lt
      (fi_frame_id <$> yields (Tasks.iter_frames Tasks.overlapping 1 None None))
  ∧ 3 ∈ fi_frame_id
          <$> yields (Tasks.iter_frames Tasks.overlapping 1 (Some 2) (Some 3)).
Proof.
  split; [vm_compute; reflexivity |].
  split.
  - exact (proj1 (task_iter_frames_bounds Tasks.overlapping 1 None None _ eq_refl)).
  - apply (proj2 (proj2 (task_iter_frames_bounds Tasks.overlapping 1 (Some 2) (Some 3)
                           _ eq_refl))).
    + vm_compute. reflexivity.
    + simpl. lia.
    + simpl. intros [? | Hin]%elem_of_cons; [done | by apply elem_of_nil in Hin].
Defined.

(** ** The runner: what a run that stops has sent *)

Section Stops.
Context (dataup : DataUpService) (cvat : CVATServer) (provider : Inference).
Context (evaluation_id : string) (total_frames batch_size : Z) (conf iou : Q).

Lemma stops_here st w frames : stops batch_size st w frames w.
Proof.
  exists []. rewrite app_nil_r.
  split_and!; try done; try apply prefix_nil; try (intros _; constructor).
Qed.

Lemma advances_stops st w frames st' w' :
  advances batch_size st w frames st' w' → stops batch_size st w frames w'.
Proof.
  intros [_ (calls & Hlog & Hfin & Hcre & Hids & Hfull)].
  exists calls. split_and!; try done.
  - rewrite <- Hids, record_ids_app. by apply prefix_app_r.
  - intros Hlt. by apply Hfull.
Qed.

Lemma stops_compose st w frames1 st1 w1 frames2 w2 :
  advances batch_size st w frames1 st1 w1 →
  stops batch_size st1 w1 frames2 w2 →
  stops batch_size st w (frames1 ++ frames2) w2.
Proof.
  intros [_ (c1 & Hl1 & Hf1 & Ht1 & Hi1 & Hb1)] (c2 & Hl2 & Hf2 & Ht2 & Hi2 & Hb2).
  exists (c1 ++ c2). split_and!.
  - by rewrite Hl2, Hl1, (assoc_L (++)).
  - rewrite finalize_calls_app. lia.
  - by rewrite created_totals_app, Ht1, Ht2.
  - rewrite batches_app, concat_app, record_ids_app.
    rewrite (assoc_L (++)), <- Hi1, record_ids_app, <- (assoc_L (++)).
    by apply prefix_app.
  - intros Hlt. destruct (Hb1 Hlt) as [Hfull1 Hlt1].
    rewrite batches_app. apply Forall_app. split; [done | by apply Hb2].
Qed.

Lemma stops_weaken st w frames more w' :
  stops batch_size st w frames w' → stops batch_size st w (frames ++ more) w'.
Proof.
  intros (calls & Hlog & Hfin & Hcre & Hids & Hfull).
  exists calls. split_and!; try done.
  rewrite (assoc_L (++)). by apply prefix_app_r.
Qed.

(** The end of the loop body, after the progress report. *)
Lemma ingest_stops job_id frame_id st frame_data report w w1 o w' :
  fd_job_id frame_data = job_id →
  fd_frame_id frame_data = frame_id →
  log w1 = log w ++ report →
  batches report = [] →
  finalize_calls report = 0%nat →
  created_totals report = [] →
  (if bool_decide (batch_size
                   ≤ Z.of_nat (length (Runner.current_batch st ++ [frame_data])))
   then
     _ ← remote (CallIngest evaluation_id (Runner.current_batch st ++ [frame_data]))
           (λ l, evaluations_ingest_batch dataup l evaluation_id
                   (Runner.current_batch st ++ [frame_data]));
     mret {| Runner.processed_frames := Runner.processed_frames st + 1;
             Runner.current_batch := [] |}
   else
     mret {| Runner.processed_frames := Runner.processed_frames st + 1;
             Runner.current_batch := Runner.current_batch st ++ [frame_data] |})
    w1 = (o, w') →
  (∀ st', o ≠ Returned st') →
  stops batch_size st w [(job_id, frame_id)] w'.
Proof.
  intros Hjob Hframe Hw1 Hrb Hrf Hrc H Hnot.
  case_bool_decide as Hsize; [| injection H as <- <-; exfalso; by eapply Hnot].
  rewrite bind_outcome, remote_outcome in H.
  destruct (evaluations_ingest_batch dataup (log w1) evaluation_id _) as [[] | e];
    injection H as <- <-; [exfalso; by eapply Hnot |].
  exists (report ++ [CallIngest evaluation_id (Runner.current_batch st ++ [frame_data])]).
  rewrite finalize_calls_app, created_totals_app, batches_app, Hrb, Hrf, Hrc.
  simpl. rewrite app_nil_r. split_and!; try done.
  - rewrite Hw1. by rewrite <- (assoc_L (++)).
  - rewrite record_ids_app. simpl. by rewrite Hjob, Hframe.
  - intros Hlt. constructor; [| constructor].
    unfold full. rewrite length_app in *. simpl in *. lia.
Qed.

Lemma process_frame_stops job_id lookup st frame_image w o w' :
  Runner.process_frame dataup provider evaluation_id total_frames batch_size conf iou
    job_id lookup st frame_image w = (o, w') →
  (∀ st', o ≠ Returned st') →
  stops batch_size st w [(job_id, fi_frame_id frame_image)] w'.
Proof.
  unfold Runner.process_frame. intros H Hnot.
  rewrite bind_outcome, lift_outcome in H.
  destruct (image_open provider (fi_data frame_image)) as [pil_image | e];
    [| injection H as <- <-; apply stops_here].
  rewrite bind_outcome, lift_outcome in H.
  destruct (predict provider pil_image conf iou) as [predictions | e];
    [| injection H as <- <-; apply stops_here].
  rewrite bind_outcome, lift_outcome in H.
  destruct (new_FrameData job_id (fi_frame_id frame_image) _ predictions _ _)
    as [frame_data | e] eqn:Hfd; [| injection H as <- <-; apply stops_here].
  apply new_FrameData_ids in Hfd as [Hjob Hframe].
  rewrite bind_outcome in H.
  destruct (progress_callback provider) as [callback |].
  - rewrite remote_outcome in H.
    destruct (callback _ _) as [[] | e].
    + eapply (ingest_stops job_id (fi_frame_id frame_image) st frame_data
                [CallProgress (Runner.processed_frames st + 1) total_frames] w
                (record_call (CallProgress (Runner.processed_frames st + 1) total_frames)
                   w));
        [done | done | done | done | done | done | exact H | exact Hnot].
    + injection H as <- <-.
      exists [CallProgress (Runner.processed_frames st + 1) total_frames].
      split_and!; try done; try apply prefix_nil; try (intros _; constructor).
  - eapply (ingest_stops job_id (fi_frame_id frame_image) st frame_data [] w w);
      [done | done | by rewrite app_nil_r | done | done | done | exact H | exact Hnot].
Qed.

Lemma frames_loop_stops job_id lookup frame_images st w o w' :
  for_each (Runner.process_frame dataup provider evaluation_id total_frames batch_size
              conf iou job_id lookup) st frame_images w = (o, w') →
  stops batch_size st w
    ((λ frame_image, (job_id, fi_frame_id frame_image)) <$> frame_images) w'.
Proof.
  revert st w. induction frame_images as [| frame_image frame_images IH];
    intros st w; simpl.
  - intros [= <- <-]. apply stops_here.
  - rewrite bind_outcome.
    destruct (Runner.process_frame dataup provider evaluation_id total_frames batch_size
                conf iou job_id lookup st frame_image w) as [[st1 | e |] w1] eqn:Hstep.
    + intros Hrest. apply process_frame_advances in Hstep. apply IH in Hrest.
      by apply (stops_compose st w [_] st1 w1).
    + intros [= <- <-]. apply (stops_weaken st w [_]).
      by eapply process_frame_stops.
    + intros [= <- <-]. apply (stops_weaken st w [_]).
      by eapply process_frame_stops.
Qed.

Lemma frames_gen_stops job_id lookup st w o w' :
  for_gen (Runner.process_frame dataup provider evaluation_id total_frames batch_size
             conf iou job_id lookup) st (Jobs.iter_frames cvat job_id) w = (o, w') →
  stops batch_size st w (job_frames cvat job_id) w'.
Proof.
  unfold for_gen. rewrite bind_outcome.
  destruct (for_each _ st (yields (Jobs.iter_frames cvat job_id)) w)
    as [[st1 | e |] w1] eqn:Hloop; intros H; apply frames_loop_stops in Hloop.
  - by destruct (gen_end (Jobs.iter_frames cvat job_id)); injection H as <- <-.
  - by injection H as <- <-.
  - by injection H as <- <-.
Qed.

Lemma jobs_loop_stops ids jobs st w o w' :
  for_each
    (λ st '(job_summary, frame_labels_list),
       let job_id := js_id job_summary in
       if Runner.filtered_out ids job_id then mret st
       else
         let frame_labels_lookup := Runner.labels_lookup frame_labels_list in
         for_gen
           (Runner.process_frame dataup provider evaluation_id total_frames
              batch_size conf iou job_id frame_labels_lookup)
           st (Jobs.iter_frames cvat job_id))
    st jobs w = (o, w') →
  stops batch_size st w (scoped ids jobs ≫= job_frames cvat) w'.
Proof.
  revert st w. induction jobs as [| [job_summary frame_labels_list] jobs IH];
    intros st w; simpl.
  - intros [= <- <-]. apply stops_here.
  - rewrite bind_outcome. unfold scoped in *. simpl.
    destruct (Runner.filtered_out ids (js_id job_summary)) eqn:Hfilter.
    + rewrite filter_cons_False by (by rewrite Hfilter). apply IH.
    + rewrite filter_cons_True by done. rewrite bind_cons.
      destruct (for_gen _ st (Jobs.iter_frames cvat (js_id job_summary)) w)
        as [[st1 | e |] w1] eqn:Hjob.
      * intros Hrest. apply IH in Hrest.
        apply for_gen_returned in Hjob as [_ Hloop].
        apply frames_loop_advances in Hloop.
        by eapply stops_compose.
      * intros [= <- <-]. apply stops_weaken. by eapply frames_gen_stops.
      * intros [= <- <-]. apply stops_weaken. by eapply frames_gen_stops.
Qed.

Lemma second_pass_stops fuel task_id job_ids w o w' :
  Runner.second_pass dataup cvat provider fuel task_id (list_to_set <$> job_ids)
    evaluation_id total_frames batch_size conf iou w = (o, w') →
  stops batch_size {| Runner.processed_frames := 0; Runner.current_batch := [] |} w
    (frames_in_scope cvat fuel task_id job_ids) w'.
Proof.
  unfold Runner.second_pass, for_gen. rewrite bind_outcome.
  destruct (for_each _ _ (yields (Jobs.iter_jobs_with_annotations cvat fuel task_id)) w)
    as [[st1 | e |] w1] eqn:Hloop; intros H; apply jobs_loop_stops in Hloop.
  - by destruct (gen_end (Jobs.iter_jobs_with_annotations cvat fuel task_id));
      injection H as <- <-.
  - by injection H as <- <-.
  - by injection H as <- <-.
Qed.

(** The batches of the calls after the loops, however they end. *)
Lemma closing_batches (st : Runner.progress) (w : world) :
  ∃ calls,
    log ((_ ← match Runner.current_batch st with
              | [] => mret ()
              | _ :: _ =>
                  remote (CallIngest evaluation_id (Runner.current_batch st))
                    (λ l, evaluations_ingest_batch dataup l evaluation_id
                            (Runner.current_batch st))
              end;
          _ ← remote (CallFinalize evaluation_id)
                (λ l, evaluations_finalize dataup l evaluation_id);
          remote (CallGet evaluation_id)
            (λ l, evaluations_get dataup l evaluation_id)) w).2
    = log w ++ calls
    ∧ batches calls = match Runner.current_batch st with
                      | [] => []
                      | _ :: _ => [Runner.current_batch st]
                      end.
Proof.
  rewrite bind_outcome.
  assert (∀ w1, ∃ calls,
            log ((_ ← remote (CallFinalize evaluation_id)
                        (λ l, evaluations_finalize dataup l evaluation_id);
                  remote (CallGet evaluation_id)
                    (λ l, evaluations_get dataup l evaluation_id)) w1).2
            = log w1 ++ calls ∧ batches calls = []) as Hrest.
  { intros w1. rewrite bind_outcome, remote_outcome.
    destruct (evaluations_finalize dataup (log w1) evaluation_id) as [[] | e].
    - exists [CallFinalize evaluation_id; CallGet evaluation_id].
      rewrite remote_outcome. split; [| done].
      destruct (evaluations_get dataup _ evaluation_id); simpl;
        by rewrite <- (assoc_L (++)).
    - by exists [CallFinalize evaluation_id]. }
  destruct (Runner.current_batch st) as [| frame_data batch].
  - apply Hrest.
  - rewrite remote_outcome.
    destruct (evaluations_ingest_batch dataup (log w) evaluation_id _) as [[] | e].
    + destruct (Hrest (record_call (CallIngest evaluation_id (frame_data :: batch)) w))
        as (calls & Hlog & Hbatches).
      exists (CallIngest evaluation_id (frame_data :: batch) :: calls).
      simpl. rewrite Hbatches. split; [| done].
      rewrite Hlog. simpl. by rewrite <- (assoc_L (++)).
    + by exists [CallIngest evaluation_id (frame_data :: batch)].
Qed.

End Stops.

(** X24: however a run ends, and whatever the batch size, the records of
    its ingestion calls, batch after batch, are the records of the first
    frames of the jobs in scope, in the order of the traversal: none is
    sent twice, out of order or ahead of an earlier frame.  With a batch
    size of at least one, every batch but possibly the last holds exactly
    [batch_size] records, and a last batch that is not full holds at
    least one; and a run whose loops over the jobs and frames do not
    return (a frame fails, an ingestion in the loops is refused, or the
    pagination is still going) makes no call after the loops and has sent
    full batches only: the records of the batch it was filling were never
    sent. *)
Theorem sent_records_prefix (dataup : DataUpService) (cvat : CVATServer)
    (provider : Inference) (fuel : nat) (task_id : Z)
    (agent_id agent_name agent_version : option string) (job_ids : option (list Z))
    (conf iou : Q) (batch_size : Z) (w : world) :
  ∃ calls,
    log (Runner.run_and_submit dataup cvat provider fuel task_id agent_id agent_name
           agent_version job_ids conf iou batch_size w).2 = log w ++ calls
    ∧ record_ids (concat (batches calls))
      `prefix_of` frames_in_scope cvat fuel task_id job_ids
    ∧ (1 ≤ batch_size →
       ∃ full_batches last,
         batches calls = full_batches ++ last
         ∧ Forall (full batch_size) full_batches
         ∧ (last = []
            ∨ ∃ remainder,
                last = [remainder]
                ∧ 0 < Z.of_nat (length remainder) < batch_size))
    ∧ (1 ≤ batch_size →
       ∀ o w',
         loops_end dataup cvat provider fuel task_id agent_id agent_name agent_version
           job_ids conf iou batch_size w o w' →
         (∀ st, o ≠ Returned st) →
         log w' = log w ++ calls ∧ Forall (full batch_size) (batches calls)).
Proof.
  unfold loops_end, Runner.run_and_submit. rewrite bind_outcome.
  pose proof (first_pass_world cvat fuel task_id (list_to_set <$> job_ids) w) as Hw.
  assert (∀ calls, batches calls = [] →
            record_ids (concat (batches calls))
            `prefix_of` frames_in_scope cvat fuel task_id job_ids
            ∧ (1 ≤ batch_size →
               ∃ full_batches last : list (list FrameData),
                 batches calls = full_batches ++ last
                 ∧ Forall (full batch_size) full_batches
                 ∧ (last = []
                    ∨ ∃ remainder,
                        last = [remainder]
                        ∧ 0 < Z.of_nat (length remainder) < batch_size))) as Hnone.
  { intros calls ->. split; [apply prefix_nil |]. intros _.
    exists [], []. by split_and!; [| | left]. }
  destruct (Runner.first_pass cvat fuel task_id (list_to_set <$> job_ids) w)
    as [[total | e |] w1]; simpl in Hw; subst w1.
  2, 3: exists []; rewrite app_nil_r;
    (split; [done |]; rewrite (assoc (∧)); split; [by apply Hnone |];
     by intros _ o w' (? & ? & ? & [=] & _)).
  rewrite bind_outcome, lift_outcome.
  destruct (new_EvaluationCreate agent_id task_id agent_name agent_version total)
    as [evaluation | e] eqn:Hcreate.
  2: { exists []. rewrite app_nil_r.
       split; [done |]. rewrite (assoc (∧)). split; [by apply Hnone |].
       intros _ o w' (? & ? & ? & [= <-] & Hc & _). congruence. }
  rewrite bind_outcome, remote_outcome.
  destruct (evaluations_create dataup (log w) evaluation) as [evaluation_id | e]
    eqn:Hid.
  2: { exists [CallCreate evaluation].
       split; [done |]. rewrite (assoc (∧)). split; [by apply Hnone |].
       intros _ o w' (? & ? & ? & [= <-] & Hc & Hi & _). congruence. }
  assert (∀ (o : outcome Runner.progress) w',
            (∃ total_frames evaluation' evaluation_id',
               (Returned total, w) = (Returned total_frames, w)
               ∧ new_EvaluationCreate agent_id task_id agent_name agent_version
                   total_frames = Ok evaluation'
               ∧ evaluations_create dataup (log w) evaluation' = Ok evaluation_id'
               ∧ Runner.second_pass dataup cvat provider fuel task_id
                   (list_to_set <$> job_ids) evaluation_id' total_frames batch_size
                   conf iou (record_call (CallCreate evaluation') w) = (o, w')) →
            Runner.second_pass dataup cvat provider fuel task_id
              (list_to_set <$> job_ids) evaluation_id total batch_size conf iou
              (record_call (CallCreate evaluation) w) = (o, w')) as Hloops.
  { intros o w' (? & ? & ? & [= <-] & Hc & Hi & Hs).
    rewrite Hcreate in Hc. injection Hc as <-.
    rewrite Hid in Hi. by injection Hi as <-. }
  rewrite bind_outcome.
  destruct (Runner.second_pass dataup cvat provider fuel task_id
              (list_to_set <$> job_ids) evaluation_id total batch_size conf iou
              (record_call (CallCreate evaluation) w)) as [[st | e |] w2] eqn:Hsecond.
  - apply second_pass_advances in Hsecond
      as [[_ (calls & Hw2 & _ & _ & Hids & Hfull)] _].
    destruct (closing_batches dataup evaluation_id st w2) as (tail & Htail & Hbatches).
    exists (CallCreate evaluation :: calls ++ tail). split_and!.
    + etrans; [exact Htail |]. rewrite Hw2. simpl. by rewrite <- !(assoc_L (++)).
    + cbn [batches]. rewrite batches_app, concat_app, Hbatches.
      simpl in Hids. rewrite <- Hids.
      destruct (Runner.current_batch st); simpl; by rewrite ?app_nil_r.
    + intros Hsize. destruct (Hfull ltac:(simpl; lia)) as [Hfull1 Hlt].
      exists (batches calls), (batches tail). cbn [batches]. rewrite batches_app.
      split_and!; [done | done |]. rewrite Hbatches.
      destruct (Runner.current_batch st) as [| frame_data batch] eqn:Hbatch;
        [by left | right].
      exists (frame_data :: batch). split; [done |]. simpl in *. lia.
    + intros _ o w' Hl%Hloops Hnot. injection Hl as <- <-. by destruct (Hnot st).
  - apply second_pass_stops in Hsecond as (calls & Hw2 & _ & _ & Hids & Hfull).
    assert (log w2 = log w ++ CallCreate evaluation :: calls) as Hlog
      by (rewrite Hw2; simpl; by rewrite <- (assoc_L (++))).
    exists (CallCreate evaluation :: calls). split_and!.
    + exact Hlog.
    + exact Hids.
    + intros Hsize. exists (batches calls), []. rewrite app_nil_r.
      split_and!; [done | apply Hfull; simpl; lia | by left].
    + intros Hsize o w' Hl%Hloops _. injection Hl as <- <-.
      split; [exact Hlog | apply Hfull; simpl; lia].
  - apply second_pass_stops in Hsecond as (calls & Hw2 & _ & _ & Hids & Hfull).
    assert (log w2 = log w ++ CallCreate evaluation :: calls) as Hlog
      by (rewrite Hw2; simpl; by rewrite <- (assoc_L (++))).
    exists (CallCreate evaluation :: calls). split_and!.
    + exact Hlog.
    + exact Hids.
    + intros Hsize. exists (batches calls), []. rewrite app_nil_r.
      split_and!; [done | apply Hfull; simpl; lia | by left].
    + intros Hsize o w' Hl%Hloops _. injection Hl as <- <-.
      split; [exact Hlog | apply Hfull; simpl; lia].
Qed.

Lemma sent_records_prefix_witness :
  ∃ e w',
    Flaky.run_it 1 = (Raised e, w')
    ∧ record_ids (concat (batches (log w'))) = [(11, 0); (11, 2)]
    ∧ record_ids (concat (batches (log w')))
      `prefix_of` frames_in_scope Scenario.cvat 5 1 None
    ∧ Forall (full 1) (batches (log w')).
Proof.
  destruct (Flaky.run_it 1) as [[res | e |] w'] eqn:Hrun;
    [by vm_compute in Hrun | | by vm_compute in Hrun].
  exists e, w'. split; [done |].
  split; [revert Hrun; vm_compute; by intros [= <- <-] |].
  destruct (sent_records_prefix Flaky.dataup Scenario.cvat Scenario.provider 5 1 None
              (Some "yolo") (Some "1.0.0") None 0%Q (1 # 2)%Q 1 Scenario.fresh)
    as (calls & Hlog & Hprefix & _ & Hloops).
  change (log (Flaky.run_it 1).2 = calls) in Hlog.
  rewrite Hrun in Hlog. simpl in Hlog. subst calls. split; [done |].
  apply (Hloops ltac:(lia) (Raised e) w'); [| done].
  eexists _, _, _. split_and!; [lazy; reflexivity | lazy; reflexivity
                                | lazy; reflexivity |].
  revert Hrun. vm_compute. by intros [= <- <-].
Defined.
